(** * gridappsd-pyvvo: the GridLAB-D model editor [modGLM]

    A shallow embedding of [pyvvo/app/modGLM.py]: brace-aware object
    extraction, name/type resolution, property read and write, and the
    iterate-and-mutate loops built on them, together with the part of
    Python's [re] module those functions rely on. The methods that add
    and remove blocks, the regulator and capacitor commands, and a few
    pure helpers of [helper.py] and [gld.py] follow.

    Text is a list of code points below 256 ([ascii]); offsets are [nat]
    where the code cannot produce a negative one and [Z] where it can. *)

From Stdlib Require Import Ascii String.
From Stdlib Require Import List ZArith Lia Bool Arith.
Import ListNotations.

Definition text := list ascii.

(** [T "abc"] is the text of a literal. *)
Definition T (s : string) : text := list_ascii_of_string s.

(** The double quote character. *)
Definition dq : ascii := ascii_of_nat 34.
(** The line feed character. *)
Definition lf : ascii := ascii_of_nat 10.

(** ** Python's [re], the fragment used by modGLM *)
Module Re.

(** Character predicates of [re] on [str] patterns, for code points
    below 256. *)
Definition code (c : ascii) : nat := nat_of_ascii c.

Definition between (lo hi n : nat) : bool := (lo <=? n) && (n <=? hi).

(** [\s]: Unicode white space. *)
Definition is_space (c : ascii) : bool :=
  let n := code c in
  between 9 13 n || between 28 32 n || (n =? 133) || (n =? 160).

(** [\w]: alphanumeric or underscore. *)
Definition is_word (c : ascii) : bool :=
  let n := code c in
  between 48 57 n || between 65 90 n || between 97 122 n || (n =? 95)
  || (n =? 170) || between 178 179 n || (n =? 181) || between 185 186 n
  || between 188 190 n || between 192 214 n || between 216 246 n
  || between 248 255 n.

Definition ascii_eqb (a b : ascii) : bool := Ascii.eqb a b.

(** One-character matchers. *)
Inductive cset : Type :=
| CAny                      (* [.] without DOTALL: anything but a line feed *)
| CSpace                    (* [\s] *)
| CNotSpace                 (* [\S] *)
| CChar (c : ascii).        (* a literal character *)

Definition cmatch (cs : cset) (x : ascii) : bool :=
  match cs with
  | CAny => negb (ascii_eqb x lf)
  | CSpace => is_space x
  | CNotSpace => negb (is_space x)
  | CChar c => ascii_eqb x c
  end.

(** Compiled patterns. Quantifiers apply to one-character matchers only,
    which is all the patterns of modGLM need; groups are kept only as
    structure because the code reads nothing but [span()] and [group()]
    of the whole match. *)
Inductive regex : Type :=
| Eps
| One (cs : cset)
| Bnd                                   (* [\b] *)
| Cat (r1 r2 : regex)
| Alt (r1 r2 : regex)
| Star (lazy : bool) (cs : cset)        (* [x*] and [x*?] *)
| Ahead (r : regex)                     (* [(?=r)] *)
| Behind (w : nat) (r : regex).         (* [(?<=r)], [r] of fixed width [w] *)

(** A position in the subject: the characters to the left, nearest first,
    and the characters to the right. *)
Definition ctx : Type := (text * text)%type.
Definition cont : Type := text -> text -> option ctx.

Definition prev_word (l : text) : bool :=
  match l with x :: _ => is_word x | [] => false end.
Definition next_word (a : text) : bool :=
  match a with x :: _ => is_word x | [] => false end.

(** [\b] holds between a word character and a non-word character or an
    end of the subject. *)
Definition boundary (l a : text) : bool := xorb (prev_word l) (next_word a).

(** Step [w] characters back. *)
Fixpoint unwind (w : nat) (l a : text) : option ctx :=
  match w with
  | 0 => Some (l, a)
  | S w' => match l with
            | [] => None
            | x :: l' => unwind w' l' (x :: a)
            end
  end.

Fixpoint star_greedy (cs : cset) (k : cont) (l a : text) {struct a}
  : option ctx :=
  match a with
  | x :: a' =>
      if cmatch cs x then
        match star_greedy cs k (x :: l) a' with
        | Some c => Some c
        | None => k l a
        end
      else k l a
  | [] => k l a
  end.

Fixpoint star_lazy (cs : cset) (k : cont) (l a : text) {struct a}
  : option ctx :=
  match k l a with
  | Some c => Some c
  | None =>
      match a with
      | x :: a' => if cmatch cs x then star_lazy cs k (x :: l) a' else None
      | [] => None
      end
  end.

Definition ret : cont := fun l a => Some (l, a).

(** The backtracking matcher: alternatives are tried in pattern order and
    the first complete match wins. *)
Fixpoint run (r : regex) (l a : text) (k : cont) {struct r} : option ctx :=
  match r with
  | Eps => k l a
  | One cs =>
      match a with
      | x :: a' => if cmatch cs x then k (x :: l) a' else None
      | [] => None
      end
  | Bnd => if boundary l a then k l a else None
  | Cat r1 r2 => run r1 l a (fun l' a' => run r2 l' a' k)
  | Alt r1 r2 =>
      match run r1 l a k with
      | Some c => Some c
      | None => run r2 l a k
      end
  | Star lazy cs => if lazy then star_lazy cs k l a else star_greedy cs k l a
  | Ahead r1 =>
      match run r1 l a ret with
      | Some _ => k l a
      | None => None
      end
  | Behind w r1 =>
      match unwind w l a with
      | Some (l0, a0) =>
          match run r1 l0 a0 ret with
          | Some _ => k l a
          | None => None
          end
      | None => None
      end
  end.

(** [span()] of a match object: start and end offsets. *)
Definition span : Type := (nat * nat)%type.

Definition match_here (r : regex) (l a : text) : option span :=
  match run r l a ret with
  | Some (l', _) => Some (length l, length l')
  | None => None
  end.

(** Scan to the right for the first position at which [here] succeeds,
    the way [search] tries the pattern at successive offsets. *)
Fixpoint leftmost (here : text -> text -> option span) (l a : text)
    {struct a} : option span :=
  match here l a with
  | Some s => Some s
  | None =>
      match a with
      | x :: a' => leftmost here (x :: l) a'
      | [] => None
      end
  end.

Definition search_from (r : regex) (l a : text) : option span :=
  leftmost (match_here r) l a.

(** [pattern.search(string, pos)]: leftmost match starting at or after
    [pos]; [\b] and look-behind still see the characters before [pos]. *)
Definition search (r : regex) (s : text) (pos : nat) : option span :=
  search_from r (rev (firstn pos s)) (skipn pos s).

(** [pattern.match(string, pos, endpos)]: a match starting exactly at
    [pos] in the subject cut at [endpos]; both are clamped to the subject
    and nothing matches when [endpos < pos]. *)
Definition clamp (n : Z) (len : nat) : nat := Nat.min (Z.to_nat n) len.

Definition match_at (r : regex) (s : text) (pos endpos : Z) : option span :=
  let p := clamp pos (length s) in
  let e := clamp endpos (length s) in
  if e <? p then None
  else match_here r (rev (firstn p s)) (firstn (e - p) (skipn p s)).

(** *** Pattern text to pattern *)

Inductive quant : Type := QStar | QPlus | QOpt.

Inductive item : Type :=
| IAtom (cs : cset)              (* may still take a quantifier *)
| IRep (q : quant) (cs : cset)   (* greedy; a following [?] makes it lazy *)
| IDone (r : regex).

Definition rep (lazy : bool) (q : quant) (cs : cset) : regex :=
  match q with
  | QStar => Star lazy cs
  | QPlus => Cat (One cs) (Star lazy cs)
  | QOpt => if lazy then Alt Eps (One cs) else Alt (One cs) Eps
  end.

Definition regex_of_item (i : item) : regex :=
  match i with
  | IAtom cs => One cs
  | IRep q cs => rep false q cs
  | IDone r => r
  end.

Definition seq_of (l : list regex) : regex := fold_right Cat Eps l.

Fixpoint alt_of (l : list regex) : regex :=
  match l with
  | [] => Eps
  | [r] => r
  | r :: rs => Alt r (alt_of rs)
  end.

(** Width of a pattern when it is the same for every match, as
    look-behind requires. *)
Fixpoint width (r : regex) : option nat :=
  match r with
  | Eps | Bnd | Ahead _ | Behind _ _ => Some 0
  | One _ => Some 1
  | Cat r1 r2 =>
      match width r1, width r2 with
      | Some n, Some m => Some (n + m)
      | _, _ => None
      end
  | Alt r1 r2 =>
      match width r1, width r2 with
      | Some n, Some m => if n =? m then Some n else None
      | _, _ => None
      end
  | Star _ _ => None
  end.

Inductive gkind : Type := GTop | GGroup | GAhead | GBehind.

(** An open group: the alternatives finished so far and the items of the
    current one, both latest first. *)
Record frame : Type := Frame {
  fkind : gkind;
  falts : list regex;
  fcur : list item
}.

Inductive pmode : Type :=
| MNorm
| MEsc        (* after a backslash *)
| MBrace      (* after an opening brace taken as a literal *)
| MOpen       (* after [(] *)
| MOpenQ      (* after [(?] *)
| MOpenQLt.   (* after [(?<] *)

Definition pstate : Type := (pmode * list frame)%type.

Definition frame_regex (f : frame) : regex :=
  alt_of (rev (seq_of (map regex_of_item (rev (fcur f))) :: falts f)).

Definition push_item (i : item) (st : list frame) : option pstate :=
  match st with
  | f :: fs => Some (MNorm, Frame (fkind f) (falts f) (i :: fcur f) :: fs)
  | [] => None
  end.

Definition close_group (st : list frame) : option pstate :=
  match st with
  | f :: (g :: fs) as rest =>
      let r := frame_regex f in
      match fkind f with
      | GTop => None
      | GGroup => push_item (IDone r) rest
      | GAhead => push_item (IDone (Ahead r)) rest
      | GBehind =>
          match width r with
          | Some w => push_item (IDone (Behind w r)) rest
          | None => None
          end
      end
  | _ => None
  end.

Definition quantify (q : quant) (st : list frame) : option pstate :=
  match st with
  | f :: fs =>
      match fcur f with
      | IAtom cs :: is' =>
          Some (MNorm, Frame (fkind f) (falts f) (IRep q cs :: is') :: fs)
      | IRep q0 cs :: is' =>
          match q with
          | QOpt =>
              Some (MNorm,
                    Frame (fkind f) (falts f) (IDone (rep true q0 cs) :: is')
                      :: fs)
          | _ => None
          end
      | _ => None
      end
  | [] => None
  end.

Definition is_digit (c : ascii) : bool := between 48 57 (code c).

(** The characters with a meaning of their own in a pattern. *)
Definition special (c : ascii) : bool :=
  existsb (ascii_eqb c) (T ".^$*+?{}[]\|()").

Definition step_norm (c : ascii) (st : list frame) : option pstate :=
  if ascii_eqb c "\" then Some (MEsc, st)
  else if ascii_eqb c "(" then Some (MOpen, st)
  else if ascii_eqb c ")" then close_group st
  else if ascii_eqb c "|" then
    match st with
    | f :: fs =>
        Some (MNorm,
              Frame (fkind f)
                (seq_of (map regex_of_item (rev (fcur f))) :: falts f) []
                :: fs)
    | [] => None
    end
  else if ascii_eqb c "*" then quantify QStar st
  else if ascii_eqb c "+" then quantify QPlus st
  else if ascii_eqb c "?" then quantify QOpt st
  else if ascii_eqb c "." then push_item (IAtom CAny) st
  else if ascii_eqb c "{" then
    match push_item (IAtom (CChar c)) st with
    | Some (_, st') => Some (MBrace, st')
    | None => None
    end
  else if ascii_eqb c "[" || ascii_eqb c "^" || ascii_eqb c "$" then None
  else push_item (IAtom (CChar c)) st.

Definition step (c : ascii) (ps : pstate) : option pstate :=
  let (m, st) := ps in
  match m with
  | MNorm => step_norm c st
  | MEsc =>
      if ascii_eqb c "b" then push_item (IDone Bnd) st
      else if ascii_eqb c "s" then push_item (IAtom CSpace) st
      else if ascii_eqb c "S" then push_item (IAtom CNotSpace) st
      else if special c then push_item (IAtom (CChar c)) st
      else None
  | MBrace =>
      if is_digit c || ascii_eqb c "," then None else step_norm c st
  | MOpen =>
      if ascii_eqb c "?" then Some (MOpenQ, st)
      else step_norm c (Frame GGroup [] [] :: st)
  | MOpenQ =>
      if ascii_eqb c "=" then Some (MNorm, Frame GAhead [] [] :: st)
      else if ascii_eqb c "<" then Some (MOpenQLt, st)
      else None
  | MOpenQLt =>
      if ascii_eqb c "=" then Some (MNorm, Frame GBehind [] [] :: st)
      else None
  end.

Definition steps (p : text) (ps : option pstate) : option pstate :=
  fold_left (fun o c => match o with Some s => step c s | None => None end)
    p ps.

Definition finish (ps : option pstate) : option regex :=
  match ps with
  | Some (MNorm, [f]) | Some (MBrace, [f]) => Some (frame_regex f)
  | _ => None
  end.

(** [re.compile]: [None] when the pattern is rejected by [re] or uses
    syntax outside the fragment above. *)
Definition compile (p : text) : option regex :=
  finish (steps p (Some (MNorm, [Frame GTop [] []]))).

End Re.

(** ** The class [modGLM] *)
Module GLM.
Import Re.

(** Exceptions the modelled methods can raise. *)
Inductive exn : Type :=
| ObjNotFoundError (obj model : text)
| PropNotInObjError (obj prop : text)
| IndexError       (* indexing the empty string *)
| KeyError
| PatternError.    (* [re.compile] refused the pattern, see [Re.compile] *)

Inductive result (A : Type) : Type :=
| Ok (a : A)
| Raise (e : exn).
Arguments Ok {A} a.
Arguments Raise {A} e.

Definition bind {A B : Type} (r : result A) (f : A -> result B) : result B :=
  match r with
  | Ok a => f a
  | Raise e => Raise e
  end.

Notation "x <- r ;; k" := (bind r (fun x => k))
  (at level 61, r at next level, right associativity).

(** Python slices with non-negative bounds. *)
Definition slice (s : text) (a b : nat) : text := skipn a (firstn b s).

(** [s[-1]], [None] standing for IndexError. *)
Fixpoint last_char (s : text) : option ascii :=
  match s with
  | [] => None
  | [c] => Some c
  | _ :: s' => last_char s'
  end.

Fixpoint drop_while (f : ascii -> bool) (s : text) : text :=
  match s with
  | c :: s' => if f c then drop_while f s' else s
  | [] => []
  end.

(** [str.strip]: remove the characters satisfying [f] at both ends. *)
Definition strip (f : ascii -> bool) (s : text) : text :=
  rev (drop_while f (rev (drop_while f s))).

Definition text_eqb (a b : text) : bool :=
  if list_eq_dec ascii_dec a b then true else false.

(** A [dict] with text keys, in insertion order. *)
Section Dict.
Variable V : Type.
Definition dict : Type := list (text * V).

Fixpoint dict_get (d : dict) (k : text) : option V :=
  match d with
  | [] => None
  | (k', v) :: d' => if text_eqb k k' then Some v else dict_get d' k
  end.

Fixpoint dict_set (d : dict) (k : text) (v : V) : dict :=
  match d with
  | [] => [(k, v)]
  | (k', v') :: d' =>
      if text_eqb k k' then (k', v) :: d' else (k', v') :: dict_set d' k v
  end.
End Dict.
Arguments dict_get {V} d k.
Arguments dict_set {V} d k v.

(** The dictionary returned by [extractObject]. *)
Record objDict : Type := ObjDict {
  o_start : nat;
  o_end : nat;
  o_obj : text
}.

(** An entry of the dictionary returned by [extractProperties]. *)
Record propVal : Type := PropVal {
  p_prop : text;
  p_start : nat;
  p_end : nat
}.

(** The instance attributes. *)
Record modGLM : Type := ModGLM {
  strModel : text;
  pathModelOut : text;
  pathModelIn : text
}.

(** [modGLM(strModel=s)] for a non-empty [s]; the paths default to the
    empty string. *)
Definition of_text (s : text) : modGLM := ModGLM s [] [].

Definition set_strModel (self : modGLM) (s : text) : modGLM :=
  ModGLM s (pathModelOut self) (pathModelIn self).

Definition compiled (p : text) : regex :=
  match compile p with
  | Some r => r
  | None => Eps
  end.

Definition REGOBJ_REGEX : regex :=
  Eval vm_compute in compiled (T "\bobject\b(\s+)\bregulator\b").
Definition CLOCK_REGEX : regex :=
  Eval vm_compute in compiled (T "\bclock\b(\s*)(?={)").
Definition POWERFLOW_REGEX : regex :=
  Eval vm_compute in compiled (T "\bmodule\b(\s+)\bpowerflow\b").
Definition HOUSE_REGEX : regex :=
  Eval vm_compute in compiled (T "\bobject\b(\s+)\bhouse\b").

(** [OBJY_BY_NAME.format(name)] *)
Definition OBJY_BY_NAME (name : text) : text :=
  T "\bname\b(\s+)(" ++ [dq] ++ T "?)" ++ name
    ++ T "(" ++ [dq] ++ T "?)(\s*);".

(** *** extractObject *)

Definition is_open (c : ascii) : bool := ascii_eqb c "{".
Definition is_close (c : ascii) : bool := ascii_eqb c "}".

(** The [for] loop of [extractObject] over [strModel[startInd:]]; the
    value is [endInd] when the loop is left. *)
Fixpoint brace_loop (cs : text) (endInd : nat) (braceCount : Z) : nat :=
  match cs with
  | [] => endInd
  | c :: cs' =>
      let endInd := endInd + 1 in
      let braceCount :=
        if is_open c then (braceCount + 1)%Z
        else if is_close c then (braceCount - 1)%Z
        else braceCount in
      if is_close c && (braceCount =? 0)%Z then endInd
      else brace_loop cs' endInd braceCount
  end.

Definition extractObject (self : modGLM) (startInd : nat) : objDict :=
  let endInd := brace_loop (skipn startInd (strModel self)) startInd 0 in
  ObjDict startInd endInd (slice (strModel self) startInd endInd).

(** *** extractProperties *)

Definition prop_pattern (p : text) : text :=
  T "(?<=\b" ++ p ++ T "\b)(\s+)(.*?)(?=;)".

Definition is_dq (c : ascii) : bool := ascii_eqb c dq.

Fixpoint extractProperties_loop (objString : text) (props : list text)
    (outDict : dict propVal) : result (dict propVal) :=
  match props with
  | [] => Ok outDict
  | p :: props' =>
      match compile (prop_pattern p) with
      | None => Raise PatternError
      | Some exp =>
          match search exp objString 0 with
          | None => Raise (PropNotInObjError objString p)
          | Some (s, e) =>
              let propStr := strip is_dq (strip is_space (slice objString s e)) in
              extractProperties_loop objString props'
                (dict_set outDict p (PropVal propStr s e))
          end
      end
  end.

Definition extractProperties (objString : text) (props : list text)
  : result (dict propVal) :=
  extractProperties_loop objString props [].

(** *** modObjProps *)

(** One turn of the loop of [modObjProps]; values are already [str]. *)
Definition modObjProp (objStr prop value : text) : result text :=
  match extractProperties objStr [prop] with
  | Raise (PropNotInObjError _ _) =>
      match last_char objStr with
      | None => Raise IndexError
      | Some c =>
          Ok (removelast objStr ++ T "  " ++ prop ++ T " " ++ value
                ++ [";"%char; lf] ++ [c])
      end
  | Raise e => Raise e
  | Ok propVal =>
      match dict_get propVal prop with
      | None => Raise KeyError
      | Some pv =>
          Ok (firstn (p_start pv) objStr ++ T " " ++ value
                ++ skipn (p_end pv) objStr)
      end
  end.

Fixpoint modObjProps (objStr : text) (propDict : list (text * text))
  : result text :=
  match propDict with
  | [] => Ok objStr
  | (prop, value) :: rest =>
      objStr' <- modObjProp objStr prop value ;;
      modObjProps objStr' rest
  end.

(** *** replaceObject *)

Definition replaceObject (self : modGLM) (d : objDict) : modGLM :=
  set_strModel self
    (firstn (o_start d) (strModel self) ++ o_obj d
       ++ skipn (o_end d) (strModel self)).

(** *** extractObjectByNameAndType *)

Definition is_none {A : Type} (o : option A) : bool :=
  match o with Some _ => false | None => true end.

(** The backward [while] loop; [None] when the fuel runs out before the
    loop is left, otherwise the final [sInd]. *)
Fixpoint back_loop (objRegEx : regex) (s : text) (eInd : Z) (fuel : nat)
    (sInd : Z) (m2 : option span) : option Z :=
  if is_none m2 && (0 <=? sInd)%Z then
    match fuel with
    | 0 => None
    | S fuel' =>
        let sInd := (sInd - 1)%Z in
        back_loop objRegEx s eInd fuel' sInd (match_at objRegEx s sInd eInd)
    end
  else Some sInd.

Definition extractObjectByNameAndType_fuel (fuel : nat) (self : modGLM)
    (name : text) (objRegEx : regex) (minLength : nat)
  : option (result objDict) :=
  match compile (OBJY_BY_NAME name) with
  | None => Some (Raise PatternError)
  | Some pat =>
      match search pat (strModel self) 0 with
      | None => Some (Raise (ObjNotFoundError name (pathModelIn self)))
      | Some m =>
          let eInd := Z.of_nat (fst m) in
          let sInd := (eInd - Z.of_nat minLength)%Z in
          match back_loop objRegEx (strModel self) eInd fuel sInd
                  (match_at objRegEx (strModel self) sInd eInd) with
          | None => None
          | Some sInd =>
              if (sInd <? 0)%Z then
                Some (Raise (ObjNotFoundError name (pathModelIn self)))
              else Some (Ok (extractObject self (Z.to_nat sInd)))
          end
      end
  end.

(** The loop runs at most once per offset of the model, so this much fuel
    is enough (see [back_loop_fuel]). *)
Definition extractObjectByNameAndType (self : modGLM) (name : text)
    (objRegEx : regex) (minLength : nat) : option (result objDict) :=
  extractObjectByNameAndType_fuel (S (length (strModel self))) self name
    objRegEx minLength.

(** *** addGroupToObjects *)

(** [list.remove(x)]: drop the first occurrence; [None] is ValueError. *)
Fixpoint list_remove (x : text) (l : list text) : option (list text) :=
  match l with
  | [] => None
  | y :: l' =>
      if text_eqb x y then Some l'
      else option_map (cons y) (list_remove x l')
  end.

(** What one turn of the loop saw: where the match started in the model
    of that moment, the object extracted there, and the text spliced in
    its place ([None] when the name filter skipped it). The log is not
    part of the code; it records the visits for the statements below. *)
Record visit : Type := Visit {
  v_start : nat;
  v_obj : text;
  v_new : option text
}.

Definition loop_out : Type := (result unit * modGLM * list visit)%type.

(** The [while m:] loop. [nameListC] is [copy.copy(nameList)], so it is
    [None] exactly when [nameList] is. [None] as a result means the fuel
    ran out. *)
Fixpoint addGroup_loop (fuel : nat) (objectRegex : regex) (groupName : text)
    (self : modGLM) (nameListC : option (list text)) (m : option span)
    (log : list visit) {struct fuel} : option loop_out :=
  match m with
  | None => Some (Ok tt, self, log)
  | Some sp =>
      match fuel with
      | 0 => None
      | S fuel' =>
          let obj := extractObject self (fst sp) in
          let modify (nameListC' : option (list text)) :=
            match modObjProps (o_obj obj) [(T "groupid", groupName)] with
            | Raise e => Some (Raise e, self, log)
            | Ok new =>
                let self' :=
                  replaceObject self (ObjDict (o_start obj) (o_end obj) new) in
                addGroup_loop fuel' objectRegex groupName self' nameListC'
                  (search objectRegex (strModel self') (fst sp + length new))
                  (log ++ [Visit (fst sp) (o_obj obj) (Some new)])
            end in
          match nameListC with
          | None => modify None
          | Some names =>
              match extractProperties (o_obj obj) [T "name"] with
              | Raise e => Some (Raise e, self, log)
              | Ok n =>
                  match dict_get n (T "name") with
                  | None => Some (Raise KeyError, self, log)
                  | Some pv =>
                      match list_remove (p_prop pv) names with
                      | None =>
                          addGroup_loop fuel' objectRegex groupName self
                            nameListC
                            (search objectRegex (strModel self)
                               (fst sp + length (o_obj obj)))
                            (log ++ [Visit (fst sp) (o_obj obj) None])
                      | Some names' => modify (Some names')
                      end
                  end
              end
          end
      end
  end.

Definition addGroupToObjects_log (self : modGLM) (objectRegex : regex)
    (groupName : text) (nameList : option (list text)) : option loop_out :=
  addGroup_loop (S (length (strModel self))) objectRegex groupName self
    nameList (search objectRegex (strModel self) 0) [].

(** The method itself: the outcome and the instance it leaves behind. *)
Definition addGroupToObjects (self : modGLM) (objectRegex : regex)
    (groupName : text) (nameList : option (list text))
  : option (result unit * modGLM) :=
  option_map fst (addGroupToObjects_log self objectRegex groupName nameList).

(** *** updateClock and updatePowerflow *)

(** Truth value of an optional string argument: [None] and the empty
    string are false. *)
Definition truthy (o : option text) : bool :=
  match o with
  | Some (_ :: _) => true
  | _ => false
  end.

Definition str_of (o : option text) : text :=
  match o with
  | Some s => s
  | None => T "None"
  end.

Definition quoted (s : text) : text := T "'" ++ s ++ T "'".

Definition updateClock (self : modGLM) (starttime stoptime timezone : option text)
  : result modGLM :=
  match search CLOCK_REGEX (strModel self) 0 with
  | Some clockMatch =>
      let clock := extractObject self (fst clockMatch) in
      let propDict :=
        (if truthy starttime
         then [(T "starttime", quoted (str_of starttime))] else [])
        ++ (if truthy stoptime
            then [(T "stoptime", quoted (str_of stoptime))] else [])
        ++ (if truthy timezone
            then [(T "timezone", str_of timezone)] else []) in
      obj' <- modObjProps (o_obj clock) propDict ;;
      Ok (replaceObject self (ObjDict (o_start clock) (o_end clock) obj'))
  | None =>
      let clockStr :=
        T "clock {" ++ [lf]
        ++ (if truthy timezone
            then T "  timezone " ++ str_of timezone ++ T ";" ++ [lf] else [])
        ++ (if truthy starttime
            then T "  starttime " ++ quoted (str_of starttime) ++ T ";" ++ [lf]
            else [])
        ++ (if truthy stoptime
            then T "  stoptime " ++ quoted (str_of stoptime) ++ T ";" ++ [lf]
            else [])
        ++ T "}" ++ [lf] in
      Ok (set_strModel self (clockStr ++ strModel self))
  end.

Definition updatePowerflow (self : modGLM)
    (solver_method line_capacitance : text) (lu_solver : option text)
  : result modGLM :=
  match search POWERFLOW_REGEX (strModel self) 0 with
  | Some pfMatch =>
      let pf := extractObject self (fst pfMatch) in
      let propDict :=
        [(T "solver_method", solver_method);
         (T "line_capacitance", line_capacitance)]
        ++ (if truthy lu_solver
            then [(T "lu_solver", str_of lu_solver)] else []) in
      obj' <- modObjProps (o_obj pf) propDict ;;
      Ok (replaceObject self (ObjDict (o_start pf) (o_end pf) obj'))
  | None =>
      let s :=
        T "module powerflow {" ++ [lf]
        ++ T "  solver_method " ++ solver_method ++ T ";" ++ [lf]
        ++ T "  line_capacitance " ++ line_capacitance ++ T ";" ++ [lf]
        ++ (if truthy lu_solver
            then T "  lu_solver " ++ str_of lu_solver ++ T ";" ++ [lf]
            else [])
        ++ T "};" ++ [lf] in
      Ok (set_strModel self (s ++ strModel self))
  end.

End GLM.

Import Re GLM.

(** ** Reference descriptions used by the statements *)

(** Text without characters that are special in a pattern. *)
Definition plain (p : text) : bool := forallb (fun c => negb (special c)) p.

Definition lit_item (c : ascii) : item := IAtom (CChar c).

(** The pattern matching the characters of [p] one after the other,
    followed by [r]. *)
Definition lits (p : text) (r : regex) : regex :=
  fold_right (fun c r' => Cat (One (CChar c)) r') r p.

(** The pattern of [extractProperties] for a plain property name. *)
Definition value_regex : regex :=
  Cat (Cat (Cat (One CSpace) (Star false CSpace)) Eps)
    (Cat (Cat (Star true CAny) Eps)
       (Cat (Ahead (Cat (One (CChar ";")) Eps)) Eps)).

Definition key_regex (p : text) : regex := Cat Bnd (lits p (Cat Bnd Eps)).

Definition prop_regex (p : text) : regex :=
  Cat (Behind (length p) (key_regex p)) value_regex.

(** [x] is a prefix of [l]. *)
Fixpoint starts_with (x l : text) : bool :=
  match x, l with
  | [], _ => true
  | c :: x', d :: l' => ascii_eqb c d && starts_with x' l'
  | _ :: _, [] => false
  end.

(** The look-behind of the property pattern at a position: the name ends
    here as a whole word. [l] holds the characters to the left, nearest
    first, and [a] those to the right. *)
Definition key_before (p l a : text) : bool :=
  starts_with (rev p) l
  && boundary (skipn (length p) l) (p ++ a)
  && boundary l a.

(** Offset of the first semicolon, provided no line feed comes before. *)
Fixpoint scan_semi (a : text) : option nat :=
  match a with
  | [] => None
  | x :: a' =>
      if ascii_eqb x ";" then Some 0
      else if ascii_eqb x lf then None
      else option_map S (scan_semi a')
  end.

(** Length of a run of white space followed by a value up to its
    semicolon, after the first white space character. *)
Fixpoint value_rest (a : text) : option nat :=
  match a with
  | x :: a' => if is_space x then option_map S (value_rest a') else scan_semi a
  | [] => None
  end.

(** Length of what the value part of the property pattern matches at the
    start of [a]: white space, at least one, then the value. *)
Definition value_len (a : text) : option nat :=
  match a with
  | x :: a' => if is_space x then option_map S (value_rest a') else None
  | [] => None
  end.

Definition prop_here (p l a : text) : option span :=
  if key_before p l a
  then option_map (fun n => (length l, length l + n)) (value_len a)
  else None.

(** The leftmost property statement for [p] at or after a position. *)
Definition find_prop (p l a : text) : option span :=
  leftmost (prop_here p) l a.

(** The position [n] characters to the right of [(l, a)]. *)
Definition moved (n : nat) (l a : text) : ctx :=
  (rev (firstn n a) ++ l, skipn n a).

Definition opt_moved (o : option nat) (l a : text) : option ctx :=
  match o with
  | Some n => Some (moved n l a)
  | None => None
  end.

(** *** Brace depth *)

Definition delta (c : ascii) : Z :=
  if is_open c then 1%Z else if is_close c then (-1)%Z else 0%Z.

(** Opening minus closing braces of a text. *)
Fixpoint depth (t : text) : Z :=
  match t with
  | [] => 0%Z
  | c :: t' => (delta c + depth t')%Z
  end.

(** Character [n] of [s] is a closing brace that brings the depth,
    counted from [d], to zero. *)
Definition closing_rel (d : Z) (s : text) (n : nat) : bool :=
  match nth_error s n with
  | Some c => is_close c && (d + depth (firstn (S n) s) =? 0)%Z
  | None => false
  end.

Definition closing_at (s : text) (n : nat) : bool := closing_rel 0 s n.

Definition closes (s : text) : bool :=
  existsb (closing_at s) (seq 0 (length s)).

Definition never_closes (s : text) : bool :=
  forallb (fun n => negb (closing_at s n)) (seq 0 (length s)).

(** The first brace of [s] is an opening one. *)
Fixpoint opens_first (s : text) : bool :=
  match s with
  | [] => false
  | c :: s' =>
      if is_open c then true
      else if is_close c then false
      else opens_first s'
  end.

(** The depth over [t], counted from 0, is never negative, is positive
    somewhere before the end, stays positive from then on up to the last
    character, and is zero at the end, which is a closing brace. *)
Definition balanced_span (t : text) : Prop :=
  (forall n, n <= length t -> (0 <= depth (firstn n t))%Z)
  /\ (exists n, n < length t /\ (0 < depth (firstn n t))%Z)
  /\ (forall n m, n <= m -> m < length t ->
        (0 < depth (firstn n t))%Z -> (0 < depth (firstn m t))%Z)
  /\ depth t = 0%Z
  /\ last_char t = Some "}"%char.

(** What [extractProperties] computes for one name. *)
Definition extractProperty (objString p : text) : result propVal :=
  match compile (prop_pattern p) with
  | None => Raise PatternError
  | Some exp =>
      match search exp objString 0 with
      | None => Raise (PropNotInObjError objString p)
      | Some (s, e) =>
          Ok (PropVal (strip is_dq (strip is_space (slice objString s e))) s e)
      end
  end.

(** Characters a value may hold without ending the statement or the
    line. *)
Definition value_char (c : ascii) : bool :=
  negb (ascii_eqb c ";") && negb (ascii_eqb c lf).

(** A property name made of word characters only, and not empty. *)
Definition word (p : text) : bool :=
  match p with
  | [] => false
  | _ => forallb is_word p
  end.

(** A value without semicolon and line feed. *)
Definition clean_value (v : text) : bool := forallb value_char v.

(** [p] does not end as a whole word at any position of [a] but possibly
    the last; [l] is what lies to the left of [a], nearest first. *)
Fixpoint key_free (p l a : text) {struct a} : bool :=
  match a with
  | [] => true
  | x :: a' => negb (key_before p l a) && key_free p (x :: l) a'
  end.

(** *** What a pattern matches

    [Matches r l a l' a'] says that [r] can match from the position
    [(l, a)] to the position [(l', a')], regardless of the order in which
    the matcher tries the alternatives. *)
Inductive Matches : regex -> text -> text -> text -> text -> Prop :=
| M_Eps l a : Matches Eps l a l a
| M_One cs x l a : cmatch cs x = true -> Matches (One cs) l (x :: a) (x :: l) a
| M_Bnd l a : boundary l a = true -> Matches Bnd l a l a
| M_Cat r1 r2 l a l1 a1 l2 a2 :
    Matches r1 l a l1 a1 -> Matches r2 l1 a1 l2 a2 ->
    Matches (Cat r1 r2) l a l2 a2
| M_AltL r1 r2 l a l' a' : Matches r1 l a l' a' -> Matches (Alt r1 r2) l a l' a'
| M_AltR r1 r2 l a l' a' : Matches r2 l a l' a' -> Matches (Alt r1 r2) l a l' a'
| M_Star0 lz cs l a : Matches (Star lz cs) l a l a
| M_StarS lz cs x l a l' a' :
    cmatch cs x = true -> Matches (Star lz cs) (x :: l) a l' a' ->
    Matches (Star lz cs) l (x :: a) l' a'
| M_Ahead r l a l' a' : Matches r l a l' a' -> Matches (Ahead r) l a l a
| M_Behind w r l a l0 a0 l' a' :
    unwind w l a = Some (l0, a0) -> Matches r l0 a0 l' a' ->
    Matches (Behind w r) l a l a.

(** The pattern of [extractObjectByNameAndType] for a plain name. *)
Definition ws_plus : regex := Cat (Cat (One CSpace) (Star false CSpace)) Eps.
Definition ws_star : regex := Cat (Star false CSpace) Eps.
Definition opt_dq : regex := Cat (Alt (One (CChar dq)) Eps) Eps.

Definition name_regex (name : text) : regex :=
  Cat Bnd
    (lits (T "name")
       (Cat Bnd
          (Cat ws_plus
             (Cat opt_dq
                (lits name
                   (Cat opt_dq
                      (Cat ws_star (Cat (One (CChar ";")) Eps)))))))).

(** *** Name statements *)

(** Nothing or one double quote. *)
Definition opt_quote (q : text) : Prop := q = [] \/ q = [dq].

(** A statement [name <value>;] whose value is [name], possibly between
    double quotes, starts at the position [(l, a)]: the keyword [name]
    begins a word here, white space follows, then the value, then
    optional white space and the semicolon. *)
Definition name_stmt (name l a : text) : Prop :=
  prev_word l = false
  /\ exists ws q1 q2 ws2 rest,
       a = T "name" ++ ws ++ q1 ++ name ++ q2 ++ ws2 ++ ";"%char :: rest
       /\ ws <> [] /\ forallb is_space ws = true
       /\ opt_quote q1 /\ opt_quote q2
       /\ forallb is_space ws2 = true.

(** The first name statement of [doc] for [name] starts at offset [e]. *)
Definition first_name_stmt (name doc : text) (e : nat) : Prop :=
  exists pre post,
    doc = pre ++ post /\ length pre = e
    /\ name_stmt name (rev pre) post
    /\ forall b1 b2, doc = b1 ++ b2 -> length b1 < e ->
         ~ name_stmt name (rev b1) b2.

(** No name statement for [name] anywhere in [doc]. *)
Definition no_name_stmt (name doc : text) : Prop :=
  forall pre post, doc = pre ++ post -> ~ name_stmt name (rev pre) post.

(** The type pattern matches at offset [s] of the model cut at offset
    [e], and [s] is at least [minLength] before [e]. *)
Definition typed_at (objRegEx : regex) (doc : text) (minLength e s : nat)
  : Prop :=
  s + minLength <= e
  /\ match_at objRegEx doc (Z.of_nat s) (Z.of_nat e) <> None.

(** *** Runs of the iterate-and-mutate loop *)

(** The text standing in the model after a visit. *)
Definition written (v : visit) : text :=
  match v_new v with
  | Some new => new
  | None => v_obj v
  end.

(** [Run r g D R visits final res]: with [D] already behind the search
    cursor and the text [R] of the original model still ahead, the loop
    makes the visits [visits] and leaves the model [final] with outcome
    [res]. Each visit is the leftmost match at or after the cursor; its
    object is cut out of [R], so out of the original model; the cursor
    then moves to the match start plus the length of what now stands
    there. *)
Inductive Run (r : regex) (g : text)
  : text -> text -> list visit -> text -> result unit -> Prop :=
| Run_stop D R res :
    (res = Ok tt -> search r (D ++ R) (length D) = None) ->
    Run r g D R [] (D ++ R) res
| Run_visit D gap obj R' v e visits final res :
    search r (D ++ gap ++ obj ++ R') (length D)
    = Some (length (D ++ gap), e) ->
    extractObject (of_text (D ++ gap ++ obj ++ R')) (length (D ++ gap))
    = ObjDict (length (D ++ gap)) (length (D ++ gap) + length obj) obj ->
    v_start v = length (D ++ gap) ->
    v_obj v = obj ->
    (forall new, v_new v = Some new ->
                 modObjProps obj [(T "groupid", g)] = Ok new) ->
    Run r g (D ++ gap ++ written v) R' visits final res ->
    Run r g D (gap ++ obj ++ R') (v :: visits) final res.

(** Alternating gaps and objects. *)
Fixpoint weave (gaps objs : list text) : text :=
  match gaps, objs with
  | gap :: gaps', obj :: objs' => gap ++ obj ++ weave gaps' objs'
  | _, _ => []
  end.

(** *** Objects whose properties stand as statements *)

(** No name of [K] ends as a whole word at any position of [x] but
    possibly the last. *)
Definition quiet (K : list text) (l x : text) : bool :=
  forallb (fun q => key_free q l x) K.

(** Some name of [K] ends as a whole word at the position [(l, a)]. *)
Definition key_here (K : list text) (l a : text) : bool :=
  existsb (fun q => key_before q l a) K.

(** A statement value starts at [(l, a)]: white space, a value and its
    semicolon, and no name of [K] ends inside. *)
Definition stmt_at (K : list text) (l a : text) : bool :=
  match a, value_len a with
  | c :: a', Some n => quiet K (c :: l) (firstn n a')
  | _, _ => false
  end.

(** Wherever a name of [K] ends as a whole word in [x], a statement
    value starts; [y] is the text after [x]. *)
Fixpoint tidy_in (K : list text) (l x y : text) {struct x} : bool :=
  match x with
  | [] => true
  | c :: x' =>
      implb (key_here K l (x ++ y)) (stmt_at K l (x ++ y))
      && tidy_in K (c :: l) x' y
  end.

(** The same for a whole text, its end included. *)
Definition tidy (K : list text) (l a : text) : bool :=
  tidy_in K l a [] && negb (key_here K (rev a ++ l) []).

(** A value that can be written for the names [K]: no semicolon, no line
    feed, no mention of a name of [K]. *)
Definition fit (K : list text) (v : text) : bool :=
  clean_value v && quiet K [" "%char] (v ++ [";"%char]).

Fixpoint distinct (K : list text) : bool :=
  match K with
  | [] => true
  | k :: K' => negb (existsb (text_eqb k) K') && distinct K'
  end.

(** The first statement for [k] in [t] already reads [k v;] with a
    single blank. *)
Definition settled (k v t : text) : Prop :=
  exists a1 rest,
    t = a1 ++ " "%char :: v ++ ";"%char :: rest
    /\ key_free k [] a1 = true
    /\ key_before k (rev a1) [" "%char] = true.

(** Two left contexts that agree up to their first non-word character. *)
Definition same_word_ctx (l l' : text) : Prop :=
  exists w t t',
    l = w ++ t /\ l' = w ++ t'
    /\ forallb is_word w = true
    /\ prev_word t = false /\ prev_word t' = false.

(** ** Further methods of [modGLM] *)

Definition TAPE_REGEX1 : regex :=
  Eval vm_compute in compiled (T "\bmodule\b(\s+)\btape\b(\s*);").
Definition TAPE_REGEX2 : regex :=
  Eval vm_compute in compiled (T "\bmodule\b(\s+)\btape\b(\s*)(?={)").

Definition addModule (self : modGLM) (module : text) : modGLM :=
  set_strModel self (T "module " ++ module ++ T ";" ++ [lf] ++ strModel self).

Definition addLine (self : modGLM) (line : text) : modGLM :=
  set_strModel self (line ++ [lf] ++ strModel self).

Definition removeTape (self : modGLM) : modGLM :=
  match search TAPE_REGEX1 (strModel self) 0 with
  | Some (s, e) =>
      set_strModel self
        (firstn s (strModel self) ++ skipn (e + 1) (strModel self))
  | None =>
      match search TAPE_REGEX2 (strModel self) 0 with
      | Some tapeMatch =>
          let tapeObj := extractObject self (fst tapeMatch) in
          set_strModel self
            (firstn (o_start tapeObj) (strModel self)
               ++ skipn (o_end tapeObj + 1) (strModel self))
      | None => self
      end
  end.

(** *** removeObjectsByType *)

(** The pattern built for one type:
    [r'\b' + objStr + r'\b(\s+)\b' + t + r'\b']. *)
Definition type_pattern (objStr t : text) : text :=
  T "\b" ++ objStr ++ T "\b(\s+)\b" ++ t ++ T "\b".

(** The [while m:] loop for one type; a match object is always true, so
    the loop runs until the search finds nothing. [None] means the fuel
    ran out. *)
Fixpoint removeObjects_loop (fuel : nat) (exp : regex) (self : modGLM)
    (m : option span) {struct fuel} : option (result unit * modGLM) :=
  match m with
  | None => Some (Ok tt, self)
  | Some sp =>
      match fuel with
      | 0 => None
      | S fuel' =>
          let obj := extractObject self (fst sp) in
          match nth_error (strModel self) (o_end obj) with
          | None => Some (Raise IndexError, self)
          | Some c =>
              let e := if ascii_eqb c ";" then o_end obj + 1 else o_end obj in
              let self' := replaceObject self (ObjDict (o_start obj) e []) in
              removeObjects_loop fuel' exp self'
                (search exp (strModel self') 0)
          end
      end
  end.

(** One type: compile its pattern and run the loop. *)
Definition removeObjectsOfType (self : modGLM) (objStr t : text)
  : option (result unit * modGLM) :=
  match compile (type_pattern objStr t) with
  | None => Some (Raise PatternError, self)
  | Some exp =>
      removeObjects_loop (S (length (strModel self))) exp self
        (search exp (strModel self) 0)
  end.

Fixpoint removeObjectsByType (self : modGLM) (typeList : list text)
    (objStr : text) : option (result unit * modGLM) :=
  match typeList with
  | [] => Some (Ok tt, self)
  | t :: typeList' =>
      match removeObjectsOfType self objStr t with
      | None => None
      | Some (Ok _, self') => removeObjectsByType self' typeList' objStr
      | Some (Raise e, self') => Some (Raise e, self')
      end
  end.

(** [x] is [y] with some characters left out. *)
Inductive Subseq : text -> text -> Prop :=
| Subseq_nil : Subseq [] []
| Subseq_keep c x y : Subseq x y -> Subseq (c :: x) (c :: y)
| Subseq_drop c x y : Subseq x y -> Subseq x (c :: y).

(** Text without braces. *)
Definition brace_free (t : text) : bool :=
  forallb (fun c => negb (is_open c) && negb (is_close c)) t.

(** Text without the letter [m], with which every match of the tape
    patterns starts. *)
Definition no_m (t : text) : bool :=
  forallb (fun c => negb (ascii_eqb c "m")) t.

(** *** Writers of new blocks *)

(** ['  {} {};\n'.format(prop, val)] *)
Definition prop_line (prop val : text) : text :=
  T "  " ++ prop ++ T " " ++ val ++ T ";" ++ [lf].

(** The outcome of a method that may stop at [assert False, msg]. *)
Inductive asserted (A : Type) : Type :=
| Passed (a : A)
| AssertionError (msg : text).
Arguments Passed {A} a.
Arguments AssertionError {A} msg.

(** [addObject] with [objStr=None], the call that changes the model;
    values are already [str]. Nesting into a given object string
    ([objStr] not [None]) is not modelled. *)
Definition addObject (self : modGLM) (objType : text)
    (properties : list (text * text)) (place : text) : asserted modGLM :=
  let s := T "object " ++ objType ++ T " {" ++ [lf] in
  let s := fold_left (fun s pv => s ++ prop_line (fst pv) (snd pv))
             properties s in
  let s := s ++ T "};" ++ [lf] in
  if text_eqb place (T "beginning")
  then Passed (set_strModel self (s ++ strModel self))
  else if text_eqb place (T "end")
  then Passed (set_strModel self (strModel self ++ [lf] ++ s))
  else AssertionError
         (T "'place' inputs must be 'beginning' or 'end.' '" ++ place
            ++ T "' was given.").

(** [properties] maps names to types; the line holds the type first. *)
Definition addClass (self : modGLM) (className : text)
    (properties : list (text * text)) : modGLM :=
  let s := T "class " ++ className ++ T " {" ++ [lf] in
  let s := fold_left (fun s nt => s ++ prop_line (snd nt) (fst nt))
             properties s in
  set_strModel self (s ++ T "}" ++ [lf] ++ strModel self).

(** The lines of a property dictionary one after the other. *)
Definition prop_lines (properties : list (text * text)) : text :=
  flat_map (fun pv => prop_line (fst pv) (snd pv)) properties.

(** The value [v] does not hold the name [k] as a whole word. *)
Definition unmentioned (k v : text) : bool :=
  key_free k [" "%char] (v ++ [";"%char]).

(** A dictionary whose text can be read back: names are words, values
    hold neither semicolon, line feed nor brace, and no value mentions a
    name of the dictionary. *)
Definition readable (properties : list (text * text)) : bool :=
  forallb (fun pv => word (fst pv) && clean_value (snd pv)
                     && brace_free (snd pv)
                     && forallb (fun k => unmentioned k (snd pv))
                          (map fst properties))
    properties.

(** The object text [addObject] writes, up to its closing brace. *)
Definition object_text (objType : text) (properties : list (text * text))
  : text :=
  T "object " ++ objType ++ T " {" ++ [lf] ++ prop_lines properties ++ T "}".


(** [loop] is already [str]; [parent] and [prop] count as given when
    they are neither [None] nor empty. *)
Definition addTapePlayer (self : modGLM) (name file : text)
    (parent prop : option text) (loop : text) : modGLM :=
  let s :=
    T "object tape.player {" ++ [lf]
    ++ T "  name " ++ name ++ T ";" ++ [lf]
    ++ T "  file " ++ [dq] ++ file ++ [dq] ++ T ";" ++ [lf]
    ++ T "  loop " ++ loop ++ T ";" ++ [lf] in
  let s :=
    if truthy parent
    then s ++ T "  parent " ++ str_of parent ++ T ";" ++ [lf] else s in
  let s :=
    if truthy prop
    then s ++ T "  property " ++ str_of prop ++ T ";" ++ [lf] else s in
  let s := s ++ T "}" ++ [lf] in
  let s :=
    if negb (truthy parent) && negb (truthy prop)
    then T "class player {" ++ [lf] ++ T "  double value;" ++ [lf]
         ++ T "}" ++ [lf] ++ s
    else s in
  set_strModel self (s ++ strModel self).

(** [interval] is already [str]; a non-empty suffix gets an underscore
    in front. The file name is returned with the instance left behind. *)
Definition addMetricsCollectorWriter (self : modGLM) (interval suffix : text)
  : asserted (text * modGLM) :=
  let suffix := match suffix with [] => suffix | _ => T "_" ++ suffix end in
  let fName := T "metrics" ++ suffix ++ T ".json" in
  match addObject self (T "metrics_collector_writer")
          [(T "interval", interval); (T "filename", fName)] (T "end") with
  | Passed self' => Passed (fName, self')
  | AssertionError msg => AssertionError msg
  end.

(** ** helper.py and gld.py: small pure helpers *)

Module Helper.

(** The loop of [bin2int] over [reversed(binList)], with the number [n]
    and the counter [k]; Python integers are unbounded. *)
Fixpoint bin2int_loop (bs : list Z) (n k : Z) : Z :=
  match bs with
  | [] => n
  | b :: bs' => bin2int_loop bs' (n + b * 2 ^ k)%Z (k + 1)%Z
  end.

Definition bin2int (binList : list Z) : Z := bin2int_loop (rev binList) 0 0.

End Helper.

Module Gld.

Definition translateTaps (lowerTaps pos : Z) : Z := (pos - lowerTaps)%Z.

Definition inverseTranslateTaps (lowerTaps pos : Z) : Z :=
  (pos + lowerTaps)%Z.

(** [s.replace(old, new)] for one-character [old] and [new]. *)
Definition replace_char (old new : ascii) (s : text) : text :=
  map (fun c => if ascii_eqb c old then new else c) s.

Definition propToCol (propList : list text) : list text :=
  map (replace_char "." "_") propList.

End Gld.

(** A list of binary digits. *)
Definition bits (bs : list Z) : Prop := Forall (fun b => b = 0%Z \/ b = 1%Z) bs.

(** *** switchControl *)

Definition CONTROL_REGEX : regex :=
  Eval vm_compute in
    compiled (T "(?<=(c|C)ontrol(\s))(\s*)(m|M)(a|A)(n|N)(u|U)(a|A)(l|L)(\s*);(\s*)//").
Definition COMMENT_REGEX : regex :=
  Eval vm_compute in compiled (T "(\S+);").

(** The [while m:] loop; the cursor of the next search is the end of the
    current match, also after the match has been cut out. [None] means
    the fuel ran out. *)
Fixpoint switchControl_loop (fuel : nat) (self : modGLM) (m : option span)
    {struct fuel} : option modGLM :=
  match m with
  | None => Some self
  | Some (sInd, eInd) =>
      match fuel with
      | 0 => None
      | S fuel' =>
          let m2 := search COMMENT_REGEX (strModel self) eInd in
          let self' :=
            if is_none m2 then self
            else set_strModel self
                   (firstn sInd (strModel self) ++ skipn eInd (strModel self)) in
          switchControl_loop fuel' self'
            (search CONTROL_REGEX (strModel self') eInd)
      end
  end.

Definition switchControl (self : modGLM) : option modGLM :=
  switchControl_loop (S (length (strModel self))) self
    (search CONTROL_REGEX (strModel self) 0).

(** A character that is not blank stands directly before a semicolon
    somewhere in [a]: what [COMMENT_REGEX] needs to match in [a]. *)
Fixpoint ends_statement (a : text) : bool :=
  match a with
  | x :: a' =>
      match a' with
      | y :: _ => (negb (is_space x) && ascii_eqb y ";") || ends_statement a'
      | [] => false
      end
  | [] => false
  end.

(** The least number of characters a match of [r] takes. *)
Fixpoint min_width (r : regex) : nat :=
  match r with
  | Eps | Bnd | Star _ _ | Ahead _ | Behind _ _ => 0
  | One _ => 1
  | Cat r1 r2 => min_width r1 + min_width r2
  | Alt r1 r2 => Nat.min (min_width r1) (min_width r2)
  end.

(** *** commandCapacitors and commandRegulators *)













(** *** repeatMessages and toggleProfile *)

(** The source writes the last item as the class [[01]]; it is given
    here as the group [(0|1)], which matches the same texts, and only
    [span()] of the whole match is read. *)
Definition PROFILER_REGEX : regex :=
  Eval vm_compute in
    compiled (T "#(\s*)\bset\b(\s+)\bprofiler\b(\s*)=(\s*)(0|1)").
Definition SUPPRESS_REGEX : regex :=
  Eval vm_compute in
    compiled (T "#(\s*)\bset\b(\s+)\bsuppress_repeat_messages\b(\s*)=(\s*)(0|1)").

(** [val] is already [str]. *)
Definition repeatMessages (self : modGLM) (val : text) : modGLM :=
  match search SUPPRESS_REGEX (strModel self) 0 with
  | Some m =>
      set_strModel self
        (firstn (snd m - 1) (strModel self) ++ val
           ++ skipn (snd m) (strModel self))
  | None =>
      set_strModel self
        ((T "#set suppress_repeat_messages=" ++ val ++ [lf]) ++ strModel self)
  end.

Definition toggleProfile (self : modGLM) (val : text) : modGLM :=
  match search PROFILER_REGEX (strModel self) 0 with
  | Some m =>
      set_strModel self
        (firstn (snd m - 1) (strModel self) ++ val
           ++ skipn (snd m) (strModel self))
  | None =>
      set_strModel self (T "#set profiler=" ++ val ++ [lf] ++ strModel self)
  end.

(** Text without the character [ch]. *)
Definition lacks (ch : ascii) (t : text) : bool :=
  forallb (fun c => negb (ascii_eqb c ch)) t.

(** The text of a binary digit. *)
Definition binary_digit (v : text) : Prop := v = T "0" \/ v = T "1".

(** What [repeatMessages] and [toggleProfile] have in common: the
    pattern [R] and the text [key] written before the value. *)
Definition set_digit (R : regex) (key : text) (self : modGLM) (val : text)
  : modGLM :=
  match search R (strModel self) 0 with
  | Some m =>
      set_strModel self
        (firstn (snd m - 1) (strModel self) ++ val
           ++ skipn (snd m) (strModel self))
  | None => set_strModel self (key ++ val ++ [lf] ++ strModel self)
  end.

(** * Properties *)

(** ** Pattern compilation *)
Section Compile.

Lemma step_plain c f fs :
  special c = false ->
  step c (MNorm, f :: fs)
  = Some (MNorm, Frame (fkind f) (falts f) (lit_item c :: fcur f) :: fs).
Proof.
  intros H. unfold special in H. cbn [existsb T list_ascii_of_string] in H.
  repeat (apply orb_false_iff in H; destruct H as [? H]).
  unfold step, step_norm.
  repeat match goal with
         | E : ascii_eqb c ?x = false |- context [ascii_eqb c ?x] => rewrite E
         end.
  reflexivity.
Qed.

Lemma steps_app p q st : steps (p ++ q) st = steps q (steps p st).
Proof. unfold steps. apply fold_left_app. Qed.

Lemma steps_plain p : forall f fs,
  plain p = true ->
  steps p (Some (MNorm, f :: fs))
  = Some (MNorm,
          Frame (fkind f) (falts f) (rev (map lit_item p) ++ fcur f) :: fs).
Proof.
  induction p as [|c p IH]; intros f fs H.
  - destruct f; reflexivity.
  - cbn [plain forallb] in H. apply andb_true_iff in H. destruct H as [Hc Hp].
    apply negb_true_iff in Hc.
    change (steps (c :: p) (Some (MNorm, f :: fs)))
      with (steps p (step c (MNorm, f :: fs))).
    rewrite (step_plain c f fs Hc), IH by exact Hp.
    cbn [fkind falts fcur map rev]. rewrite <- app_assoc. reflexivity.
Qed.

Lemma seq_of_lits p l :
  seq_of (map regex_of_item (map lit_item p) ++ l) = lits p (seq_of l).
Proof.
  induction p as [|c p IH]; [reflexivity|].
  cbn [map app seq_of fold_right lits regex_of_item lit_item].
  f_equal. exact IH.
Qed.

Lemma width_lits p r n :
  width r = Some n -> width (lits p r) = Some (length p + n).
Proof.
  intros H. induction p as [|c p IH]; [exact H|].
  cbn [lits fold_right width length]. fold (lits p r). rewrite IH. reflexivity.
Qed.

Lemma key_frame p k :
  frame_regex (Frame k [] (IDone Bnd :: rev (map lit_item p) ++ [IDone Bnd]))
  = key_regex p.
Proof.
  unfold frame_regex. cbn [fcur falts rev app alt_of].
  rewrite rev_app_distr, rev_involutive. cbn [rev app].
  cbn [map regex_of_item]. rewrite map_app. unfold key_regex.
  cbn [seq_of fold_right]. f_equal.
  exact (seq_of_lits p [Bnd]).
Qed.

Lemma width_key p : width (key_regex p) = Some (length p).
Proof.
  unfold key_regex. cbn [width].
  rewrite (width_lits p (Cat Bnd Eps) 0) by reflexivity.
  rewrite Nat.add_0_r. reflexivity.
Qed.

Lemma close_key p g fs :
  close_group
    (Frame GBehind [] (IDone Bnd :: rev (map lit_item p) ++ [IDone Bnd])
       :: g :: fs)
  = push_item (IDone (Behind (length p) (key_regex p))) (g :: fs).
Proof.
  unfold close_group. rewrite key_frame. cbn [fkind].
  rewrite width_key. reflexivity.
Qed.

Lemma compile_prop_pattern p :
  plain p = true -> compile (prop_pattern p) = Some (prop_regex p).
Proof.
  intros H. unfold compile, prop_pattern.
  rewrite !steps_app.
  change (steps (T "(?<=\b") (Some (MNorm, [Frame GTop [] []])))
    with (Some (MNorm, [Frame GBehind [] [IDone Bnd]; Frame GTop [] []])).
  rewrite steps_plain by exact H.
  cbn [fkind falts fcur].
  change (T "\b)(\s+)(.*?)(?=;)") with (T "\b" ++ T ")" ++ T "(\s+)(.*?)(?=;)").
  rewrite !steps_app.
  match goal with
  | |- context [steps (T "\b") (Some (MNorm, ?f :: ?fs))] =>
      change (steps (T "\b") (Some (MNorm, f :: fs)))
        with (push_item (IDone Bnd) (f :: fs))
  end.
  cbn [push_item fkind falts fcur].
  match goal with
  | |- context [steps (T ")") (Some (MNorm, ?st))] =>
      change (steps (T ")") (Some (MNorm, st))) with (close_group st)
  end.
  rewrite close_key.
  reflexivity.
Qed.

End Compile.

(** ** The matcher on the property pattern *)
Section PropPattern.

Lemma ascii_eqb_eq a b : ascii_eqb a b = true <-> a = b.
Proof. exact (Ascii.eqb_eq a b). Qed.

Lemma ascii_eqb_refl a : ascii_eqb a a = true.
Proof. apply ascii_eqb_eq. reflexivity. Qed.

Lemma ascii_eqb_neq a b : ascii_eqb a b = false <-> a <> b.
Proof. exact (Ascii.eqb_neq a b). Qed.

Lemma ascii_eqb_sym a b : ascii_eqb a b = ascii_eqb b a.
Proof. exact (Ascii.eqb_sym a b). Qed.

Lemma starts_with_app x l : starts_with x (x ++ l) = true.
Proof.
  induction x as [|c x IH]; [reflexivity|].
  cbn. rewrite ascii_eqb_refl. exact IH.
Qed.

Lemma starts_with_inv x : forall l,
  starts_with x l = true -> exists l', l = x ++ l'.
Proof.
  induction x as [|c x IH]; intros l H.
  - exists l. reflexivity.
  - destruct l as [|d l]; [discriminate|].
    cbn in H. apply andb_true_iff in H. destruct H as [Hc Hx].
    apply ascii_eqb_eq in Hc. subst d.
    destruct (IH _ Hx) as [l' ->]. exists l'. reflexivity.
Qed.

Lemma run_lits p r k : forall l a,
  run (lits p r) l a k
  = if starts_with p a then run r (rev p ++ l) (skipn (length p) a) k
    else None.
Proof.
  induction p as [|c p IH]; intros l a.
  - reflexivity.
  - cbn [lits fold_right run]. fold (lits p r).
    destruct a as [|x a]; [reflexivity|].
    cbn [cmatch starts_with]. rewrite (ascii_eqb_sym x c).
    destruct (ascii_eqb c x) eqn:E; [|reflexivity].
    apply ascii_eqb_eq in E. subst x. cbn [andb]. rewrite IH.
    cbn [rev length skipn]. rewrite <- app_assoc. reflexivity.
Qed.

Lemma unwind_spec w : forall l a,
  unwind w l a
  = if w <=? length l
    then Some (skipn w l, rev (firstn w l) ++ a) else None.
Proof.
  induction w as [|w IH]; intros l a.
  - reflexivity.
  - destruct l as [|x l]; [reflexivity|].
    cbn [unwind length skipn firstn rev]. rewrite IH.
    change (S w <=? S (length l)) with (w <=? length l).
    destruct (w <=? length l); [|reflexivity].
    rewrite <- app_assoc. reflexivity.
Qed.

Lemma skipn_len_app (x l : text) : skipn (length x) (x ++ l) = l.
Proof. induction x as [|c x IH]; [reflexivity|exact IH]. Qed.

Lemma firstn_len_app (x l : text) : firstn (length x) (x ++ l) = x.
Proof. induction x as [|c x IH]; [reflexivity|cbn; f_equal; exact IH]. Qed.

Lemma app_inj_len (x x' : text) : forall y y',
  length x = length x' -> x ++ y = x' ++ y' -> x = x' /\ y = y'.
Proof.
  revert x'. induction x as [|c x IH]; intros [|c' x'] y y' Hl H;
    try discriminate.
  - split; [reflexivity|exact H].
  - injection H as -> H. injection Hl as Hl.
    destruct (IH _ _ _ Hl H) as [-> ->]. split; reflexivity.
Qed.

Lemma starts_with_length x l : starts_with x l = true -> length x <= length l.
Proof.
  intros H. destruct (starts_with_inv _ _ H) as [l' ->].
  rewrite length_app. lia.
Qed.

Lemma run_key p l a k :
  run (Behind (length p) (key_regex p)) l a k
  = if key_before p l a then k l a else None.
Proof.
  cbn [run]. rewrite unwind_spec. unfold key_before.
  destruct (starts_with (rev p) l) eqn:Hs.
  - pose proof (starts_with_length _ _ Hs) as Hlen.
    rewrite length_rev in Hlen.
    apply Nat.leb_le in Hlen. rewrite Hlen.
    destruct (starts_with_inv _ _ Hs) as [l0 ->].
    rewrite <- (length_rev p).
    rewrite skipn_len_app, firstn_len_app, rev_involutive.
    unfold key_regex. cbn [run].
    destruct (boundary l0 (p ++ a)); [|reflexivity].
    rewrite run_lits, starts_with_app.
    rewrite skipn_app, Nat.sub_diag, skipn_all. cbn [skipn app run].
    destruct (boundary (rev p ++ l0) a); reflexivity.
  - cbn [andb].
    destruct (length p <=? length l) eqn:Hlen; [|reflexivity].
    unfold key_regex. cbn [run].
    destruct (boundary (skipn (length p) l) (rev (firstn (length p) l) ++ a));
      [|reflexivity].
    rewrite run_lits.
    destruct (starts_with p (rev (firstn (length p) l) ++ a)) eqn:Hp;
      [|reflexivity].
    exfalso.
    destruct (starts_with_inv _ _ Hp) as [t Ht].
    apply Nat.leb_le in Hlen.
    assert (Hl : length (rev (firstn (length p) l)) = length p).
    { rewrite length_rev, length_firstn. lia. }
    apply app_inj_len in Ht; [|exact Hl].
    destruct Ht as [Ht _].
    assert (Hr : rev p = firstn (length p) l).
    { apply (f_equal (@rev ascii)) in Ht. rewrite rev_involutive in Ht.
      symmetry. exact Ht. }
    rewrite <- (firstn_skipn (length p) l), <- Hr, starts_with_app in Hs.
    discriminate.
Qed.

Lemma opt_moved_S o x l a :
  opt_moved o (x :: l) a = opt_moved (option_map S o) l (x :: a).
Proof.
  destruct o as [n|]; [|reflexivity].
  cbn [opt_moved option_map]. unfold moved.
  cbn [firstn skipn rev]. rewrite <- app_assoc. reflexivity.
Qed.

Lemma space_not_semi x : is_space x = true -> ascii_eqb x ";" = false.
Proof.
  intros H. destruct (ascii_eqb x ";") eqn:E; [|reflexivity].
  apply ascii_eqb_eq in E. subst x. discriminate H.
Qed.

Lemma run_semi l a :
  run (Cat (Ahead (Cat (One (CChar ";")) Eps)) Eps) l a ret
  = match a with
    | x :: _ => if ascii_eqb x ";" then Some (l, a) else None
    | [] => None
    end.
Proof.
  cbn [run]. destruct a as [|x a]; [reflexivity|].
  cbn [cmatch]. destruct (ascii_eqb x ";"); reflexivity.
Qed.

Lemma lazy_scan (k : cont) :
  (forall l a, k l a = run (Cat (Ahead (Cat (One (CChar ";")) Eps)) Eps) l a ret) ->
  forall a l, star_lazy CAny k l a = opt_moved (scan_semi a) l a.
Proof.
  intros Hk. induction a as [|x a IH]; intros l.
  - cbn [star_lazy]. rewrite Hk, run_semi. reflexivity.
  - cbn [star_lazy scan_semi]. rewrite Hk, run_semi.
    destruct (ascii_eqb x ";"); [reflexivity|].
    cbn [cmatch]. destruct (ascii_eqb x lf); [reflexivity|].
    cbn [negb]. rewrite IH. apply opt_moved_S.
Qed.

Lemma value_rest_none : forall a, value_rest a = None -> scan_semi a = None.
Proof.
  induction a as [|x a IH]; intros H; [reflexivity|].
  cbn [value_rest] in H. destruct (is_space x) eqn:Hx; [|exact H].
  cbn [scan_semi]. rewrite (space_not_semi x Hx).
  destruct (ascii_eqb x lf); [reflexivity|].
  destruct (value_rest a); [discriminate|]. rewrite IH; reflexivity.
Qed.

Lemma greedy_ws (k : cont) :
  (forall l a, k l a = opt_moved (scan_semi a) l a) ->
  forall a l, star_greedy CSpace k l a = opt_moved (value_rest a) l a.
Proof.
  intros Hk. induction a as [|x a IH]; intros l.
  - cbn [star_greedy value_rest]. rewrite Hk. reflexivity.
  - cbn [star_greedy value_rest cmatch].
    destruct (is_space x) eqn:Hx; [|apply Hk].
    rewrite IH, opt_moved_S.
    destruct (value_rest a) as [n|] eqn:Hv; [reflexivity|].
    cbn [option_map opt_moved]. rewrite Hk.
    cbn [scan_semi]. rewrite (space_not_semi x Hx).
    destruct (ascii_eqb x lf); [reflexivity|].
    rewrite (value_rest_none a Hv). reflexivity.
Qed.

Lemma run_value l a : run value_regex l a ret = opt_moved (value_len a) l a.
Proof.
  unfold value_regex. cbn [run]. destruct a as [|x a]; [reflexivity|].
  cbn [cmatch value_len]. destruct (is_space x); [|reflexivity].
  rewrite greedy_ws.
  - apply opt_moved_S.
  - intros l' a'. apply lazy_scan. intros l2 a2. reflexivity.
Qed.

Lemma scan_semi_bound : forall a n, scan_semi a = Some n -> n < length a.
Proof.
  induction a as [|x a IH]; intros n H; [discriminate|].
  cbn [scan_semi] in H. cbn [length].
  destruct (ascii_eqb x ";"); [injection H as <-; lia|].
  destruct (ascii_eqb x lf); [discriminate|].
  destruct (scan_semi a) as [m|]; [|discriminate].
  injection H as <-. specialize (IH m eq_refl). lia.
Qed.

Lemma value_rest_bound : forall a n, value_rest a = Some n -> n < length a.
Proof.
  induction a as [|x a IH]; intros n H; [discriminate|].
  cbn [value_rest] in H. destruct (is_space x).
  - destruct (value_rest a) as [m|]; [|discriminate].
    injection H as <-. specialize (IH m eq_refl). cbn [length]. lia.
  - apply scan_semi_bound. exact H.
Qed.

Lemma value_len_bound a n : value_len a = Some n -> 0 < n < length a.
Proof.
  destruct a as [|x a]; [discriminate|]. cbn [value_len length].
  destruct (is_space x); [|discriminate].
  destruct (value_rest a) as [m|] eqn:E; [|discriminate].
  intros H. injection H as <-. apply value_rest_bound in E. lia.
Qed.

Lemma run_cat r1 r2 l a k :
  run (Cat r1 r2) l a k = run r1 l a (fun l' a' => run r2 l' a' k).
Proof. reflexivity. Qed.

Lemma match_here_prop p l a :
  match_here (prop_regex p) l a = prop_here p l a.
Proof.
  unfold match_here, prop_regex, prop_here.
  rewrite run_cat, run_key.
  destruct (key_before p l a); [|reflexivity].
  rewrite run_value. destruct (value_len a) as [n|] eqn:E; [|reflexivity].
  cbn [opt_moved option_map]. unfold moved.
  apply value_len_bound in E.
  rewrite length_app, length_rev, length_firstn.
  f_equal. f_equal. lia.
Qed.

Lemma leftmost_ext h1 h2 :
  (forall l a, h1 l a = h2 l a) ->
  forall a l, leftmost h1 l a = leftmost h2 l a.
Proof.
  intros H. induction a as [|x a IH]; intros l; cbn [leftmost]; rewrite H.
  - reflexivity.
  - destruct (h2 l (x :: a)); [reflexivity|apply IH].
Qed.

Lemma search_prop p l a : search_from (prop_regex p) l a = find_prop p l a.
Proof. apply leftmost_ext. intros. apply match_here_prop. Qed.

(** Skipping a stretch where nothing matches. *)
Lemma leftmost_skip h : forall a1 l a2,
  (forall b1 b2, a1 = b1 ++ b2 -> b2 <> [] ->
                 h (rev b1 ++ l) (b2 ++ a2) = None) ->
  leftmost h l (a1 ++ a2) = leftmost h (rev a1 ++ l) a2.
Proof.
  induction a1 as [|x a1 IH]; intros l a2 H.
  - reflexivity.
  - cbn [app leftmost].
    pose proof (H [] (x :: a1) eq_refl) as H0. cbn [rev app] in H0.
    rewrite H0 by discriminate.
    rewrite IH.
    + cbn [rev]. rewrite <- app_assoc. reflexivity.
    + intros b1 b2 E Hb. specialize (H (x :: b1) b2).
      cbn [rev app] in H. rewrite <- app_assoc in H. apply H; [|exact Hb].
      rewrite E. reflexivity.
Qed.

Lemma leftmost_here h l a sp : h l a = Some sp -> leftmost h l a = Some sp.
Proof. intros H. destruct a; cbn [leftmost]; rewrite H; reflexivity. Qed.

Lemma leftmost_some h : forall a l sp,
  leftmost h l a = Some sp ->
  exists a1 a2,
    a = a1 ++ a2 /\ h (rev a1 ++ l) a2 = Some sp
    /\ (forall b1 b2, a1 = b1 ++ b2 -> b2 <> [] ->
                      h (rev b1 ++ l) (b2 ++ a2) = None).
Proof.
  induction a as [|x a IH]; intros l sp H; cbn [leftmost] in H.
  - destruct (h l []) eqn:E; [|discriminate].
    exists [], []. repeat split; [exact (eq_trans E H)|].
    intros b1 b2 E1 Hb. destruct b1; destruct b2; try discriminate.
    congruence.
  - destruct (h l (x :: a)) eqn:E.
    + exists [], (x :: a). repeat split; [exact (eq_trans E H)|].
      intros b1 b2 E1 Hb. destruct b1; destruct b2; try discriminate.
      congruence.
    + destruct (IH _ _ H) as (a1 & a2 & -> & Hh & Hn).
      exists (x :: a1), a2. cbn [rev app]. rewrite <- app_assoc.
      repeat split; [exact Hh|].
      intros [|y b1] b2 E1 Hb.
      * cbn [app] in E1. subst b2. exact E.
      * injection E1 as <- E1. cbn [rev]. rewrite <- app_assoc.
        apply Hn; assumption.
Qed.

Lemma leftmost_none h : forall a l,
  leftmost h l a = None ->
  forall a1 a2, a = a1 ++ a2 -> h (rev a1 ++ l) a2 = None.
Proof.
  induction a as [|x a IH]; intros l H a1 a2 E; cbn [leftmost] in H.
  - destruct a1; [|discriminate]. destruct a2; [|discriminate].
    cbn [rev app]. destruct (h l []); [discriminate|reflexivity].
  - destruct (h l (x :: a)) eqn:Eh; [discriminate|].
    destruct a1 as [|y a1].
    + cbn [app] in E. subst a2. exact Eh.
    + injection E as <- E. cbn [rev]. rewrite <- app_assoc.
      apply (IH _ H). exact E.
Qed.

Lemma leftmost_none_intro h : forall a l,
  (forall a1 a2, a = a1 ++ a2 -> h (rev a1 ++ l) a2 = None) ->
  leftmost h l a = None.
Proof.
  induction a as [|x a IH]; intros l H; cbn [leftmost].
  - pose proof (H [] [] eq_refl) as H0. cbn [rev app] in H0.
    rewrite H0. reflexivity.
  - pose proof (H [] (x :: a) eq_refl) as H0. cbn [rev app] in H0.
    rewrite H0. apply IH.
    intros a1 a2 E. specialize (H (x :: a1) a2).
    cbn [rev app] in H. rewrite <- app_assoc in H. apply H.
    rewrite E. reflexivity.
Qed.

End PropPattern.

(** ** extractObject *)
Section ExtractObject.

Lemma closing_rel_S d c s n :
  closing_rel d (c :: s) (S n) = closing_rel (d + delta c) s n.
Proof.
  unfold closing_rel. cbn [nth_error].
  destruct (nth_error s n); [|reflexivity].
  change (depth (firstn (S (S n)) (c :: s)))
    with (delta c + depth (firstn (S n) s))%Z.
  rewrite Z.add_assoc. reflexivity.
Qed.

Lemma closing_rel_0 d c s :
  closing_rel d (c :: s) 0 = is_close c && (d + delta c =? 0)%Z.
Proof.
  unfold closing_rel. cbn [nth_error firstn depth].
  rewrite Z.add_0_r. reflexivity.
Qed.

Lemma brace_step c d :
  (if is_open c then (d + 1)%Z
   else if is_close c then (d - 1)%Z else d) = (d + delta c)%Z.
Proof.
  unfold delta. destruct (is_open c); [reflexivity|].
  destruct (is_close c); lia.
Qed.

(** The loop stops right after the first closing position. *)
Lemma brace_loop_first : forall cs e d n,
  closing_rel d cs n = true ->
  (forall m, m < n -> closing_rel d cs m = false) ->
  brace_loop cs e d = e + S n.
Proof.
  induction cs as [|c cs IH]; intros e d n Hn Hm.
  - unfold closing_rel in Hn. destruct n; discriminate.
  - cbn [brace_loop]. rewrite brace_step. destruct n as [|n].
    + rewrite closing_rel_0 in Hn. rewrite Hn. lia.
    + pose proof (Hm 0 (Nat.lt_0_succ n)) as H0.
      rewrite closing_rel_0 in H0. rewrite H0.
      rewrite closing_rel_S in Hn.
      rewrite (IH (e + 1) (d + delta c)%Z n Hn); [lia|].
      intros m Hlt. rewrite <- closing_rel_S. apply Hm. lia.
Qed.

(** Without a closing position the loop runs to the end of the text. *)
Lemma brace_loop_never : forall cs e d,
  (forall n, closing_rel d cs n = false) ->
  brace_loop cs e d = e + length cs.
Proof.
  induction cs as [|c cs IH]; intros e d H.
  - cbn. lia.
  - cbn [brace_loop length]. rewrite brace_step.
    pose proof (H 0) as H0. rewrite closing_rel_0 in H0. rewrite H0.
    rewrite IH; [lia|].
    intros n. rewrite <- closing_rel_S. apply H.
Qed.

Lemma closing_rel_lt d s n : closing_rel d s n = true -> n < length s.
Proof.
  unfold closing_rel. destruct (nth_error s n) eqn:E; [|discriminate].
  intros _. apply nth_error_Some. congruence.
Qed.

Lemma least_true (f : nat -> bool) : forall n,
  f n = true -> exists k, f k = true /\ forall m, m < k -> f m = false.
Proof.
  induction n as [n IH] using lt_wf_ind. intros Hn.
  destruct (existsb f (seq 0 n)) eqn:E.
  - apply existsb_exists in E. destruct E as (m & Hin & Hm).
    apply in_seq in Hin. apply (IH m); [lia|exact Hm].
  - exists n. split; [exact Hn|].
    intros m Hlt. destruct (f m) eqn:Hf; [|reflexivity].
    assert (existsb f (seq 0 n) = true); [|congruence].
    apply existsb_exists. exists m. split; [apply in_seq; lia|exact Hf].
Qed.

Lemma closes_least s :
  closes s = true ->
  exists n, closing_at s n = true /\ forall m, m < n -> closing_at s m = false.
Proof.
  unfold closes. intros H. apply existsb_exists in H.
  destruct H as (n & _ & Hn). exact (least_true (closing_at s) n Hn).
Qed.

Lemma never_closes_all s :
  never_closes s = true -> forall n, closing_at s n = false.
Proof.
  unfold never_closes. intros H n. rewrite forallb_forall in H.
  destruct (closing_at s n) eqn:E; [|reflexivity].
  pose proof (closing_rel_lt _ _ _ E) as Hlt.
  specialize (H n). rewrite E in H. cbn in H. symmetry. apply H.
  apply in_seq. lia.
Qed.

(** Once the depth is positive it stays so up to the closing position. *)
Lemma depth_positive_until : forall cs d n,
  (1 <= d)%Z ->
  closing_rel d cs n = true ->
  (forall m, m < n -> closing_rel d cs m = false) ->
  forall j, j <= n -> (1 <= d + depth (firstn j cs))%Z.
Proof.
  induction cs as [|c cs IH]; intros d n Hd Hn Hm j Hj.
  - destruct j; cbn; lia.
  - destruct j as [|j]; [cbn; lia|].
    destruct n as [|n]; [lia|].
    pose proof (Hm 0 (Nat.lt_0_succ n)) as H0. rewrite closing_rel_0 in H0.
    assert (Hd' : (1 <= d + delta c)%Z).
    { unfold delta in *. destruct (is_open c); [lia|].
      destruct (is_close c); [|lia].
      cbn [andb] in H0. apply Z.eqb_neq in H0. lia. }
    cbn [firstn depth]. rewrite Z.add_assoc.
    apply (IH (d + delta c)%Z n Hd').
    + rewrite <- closing_rel_S. exact Hn.
    + intros m Hlt. rewrite <- closing_rel_S. apply Hm. lia.
    + lia.
Qed.

Lemma open_not_close c : is_open c = true -> is_close c = false.
Proof.
  unfold is_open, is_close. intros H. apply ascii_eqb_eq in H. subst c.
  reflexivity.
Qed.

(** Up to the first brace the depth is zero, then positive. *)
Lemma depth_phases : forall cs n,
  opens_first cs = true ->
  closing_at cs n = true ->
  (forall m, m < n -> closing_at cs m = false) ->
  exists p, p < n
    /\ (forall j, j <= p -> depth (firstn j cs) = 0%Z)
    /\ (forall j, p < j -> j <= n -> (1 <= depth (firstn j cs))%Z).
Proof.
  unfold closing_at.
  induction cs as [|c cs IH]; intros n Ho Hn Hm; [discriminate|].
  cbn [opens_first] in Ho.
  destruct (is_open c) eqn:Hopen.
  - pose proof (open_not_close c Hopen) as Hc.
    destruct n as [|n].
    { rewrite closing_rel_0, Hc in Hn. discriminate. }
    exists 0. split; [lia|]. split.
    + intros j Hj. replace j with 0 by lia. reflexivity.
    + intros [|j] H1 H2; [lia|].
      cbn [firstn depth]. unfold delta at 1. rewrite Hopen.
      apply (depth_positive_until cs 1 n); try lia.
      * rewrite closing_rel_S in Hn. unfold delta in Hn.
        rewrite Hopen in Hn. exact Hn.
      * intros m Hlt. specialize (Hm (S m)). rewrite closing_rel_S in Hm.
        unfold delta in Hm. rewrite Hopen in Hm. apply Hm. lia.
  - destruct (is_close c) eqn:Hclose; [discriminate|].
    assert (Hd : delta c = 0%Z).
    { unfold delta. rewrite Hopen, Hclose. reflexivity. }
    destruct n as [|n].
    { rewrite closing_rel_0, Hclose in Hn. discriminate. }
    rewrite closing_rel_S, Hd in Hn.
    destruct (IH n Ho Hn) as (p & Hp & Hz & Hpos).
    { intros m Hlt. specialize (Hm (S m)). rewrite closing_rel_S, Hd in Hm.
      apply Hm. lia. }
    exists (S p). split; [lia|]. split.
    + intros [|j] Hj; [reflexivity|].
      cbn [firstn depth]. rewrite Hd, Hz; lia.
    + intros [|j] H1 H2; [lia|].
      cbn [firstn depth]. rewrite Hd. specialize (Hpos j). lia.
Qed.

Lemma last_char_nth (s : text) n c :
  nth_error s n = Some c -> last_char (firstn (S n) s) = Some c.
Proof.
  revert n. induction s as [|x s IH]; intros n H; [destruct n; discriminate|].
  destruct n as [|n].
  - cbn in H. injection H as ->. reflexivity.
  - cbn [nth_error] in H. specialize (IH n H).
    change (firstn (S (S n)) (x :: s)) with (x :: firstn (S n) s).
    destruct s as [|y s]; [destruct n; discriminate|].
    exact IH.
Qed.

Lemma balanced_from_phases cs n :
  opens_first cs = true ->
  closing_at cs n = true ->
  (forall m, m < n -> closing_at cs m = false) ->
  balanced_span (firstn (S n) cs).
Proof.
  intros Ho Hn Hm.
  destruct (depth_phases cs n Ho Hn Hm) as (p & Hp & Hz & Hpos).
  pose proof (closing_rel_lt _ _ _ Hn) as Hlt.
  assert (Hlen : length (firstn (S n) cs) = S n).
  { rewrite length_firstn. lia. }
  assert (Hpre : forall j, j <= S n ->
            firstn j (firstn (S n) cs) = firstn j cs).
  { intros j Hj. rewrite firstn_firstn. f_equal. lia. }
  unfold closing_at, closing_rel in Hn.
  destruct (nth_error cs n) as [c|] eqn:Hc; [|discriminate].
  apply andb_true_iff in Hn. destruct Hn as [Hcl Hd].
  apply Z.eqb_eq in Hd. rewrite Z.add_0_l in Hd.
  unfold balanced_span. rewrite Hlen. repeat split.
  - intros j Hj. rewrite Hpre by exact Hj.
    destruct (Nat.eq_dec j (S n)) as [->|]; [lia|].
    destruct (Nat.le_gt_cases j p) as [H1|H1].
    + rewrite Hz by exact H1. lia.
    + specialize (Hpos j). lia.
  - exists (S p). split; [lia|]. rewrite Hpre by lia.
    specialize (Hpos (S p)). lia.
  - intros j m Hjm Hmn Hj. rewrite Hpre in * by lia.
    destruct (Nat.le_gt_cases j p) as [H1|H1].
    + rewrite Hz in Hj by exact H1. lia.
    + specialize (Hpos m). lia.
  - exact Hd.
  - rewrite (last_char_nth cs n c Hc). f_equal.
    apply ascii_eqb_eq. exact Hcl.
Qed.

Lemma slice_from (s : text) a k : slice s a (a + k) = firstn k (skipn a s).
Proof. unfold slice. symmetry. apply firstn_skipn_comm. Qed.

Lemma extractObject_closed self startInd n :
  closing_at (skipn startInd (strModel self)) n = true ->
  (forall m, m < n -> closing_at (skipn startInd (strModel self)) m = false) ->
  extractObject self startInd
  = ObjDict startInd (startInd + S n)
      (firstn (S n) (skipn startInd (strModel self))).
Proof.
  intros Hn Hm. unfold extractObject.
  rewrite (brace_loop_first _ startInd 0 n Hn Hm), slice_from. reflexivity.
Qed.

(** C1, as amended. When the first brace at or after the start offset is
    an opening one and some closing brace brings the depth back to zero,
    the text returned by [extractObject] has a depth that is never
    negative, becomes positive, stays positive up to its last character
    and is zero there, the closing brace being included; the span starts
    at the given offset and [end - start] is the length of the text.
    Extraction at the [object] keyword of the house example, and at
    [house] itself, returns everything through the outer closing brace,
    nested ZIPload block included. *)
Theorem extractObject_balanced :
  (forall self startInd,
      opens_first (skipn startInd (strModel self)) = true ->
      closes (skipn startInd (strModel self)) = true ->
      let d := extractObject self startInd in
      balanced_span (o_obj d)
      /\ o_start d = startInd
      /\ o_end d = startInd + length (o_obj d)
      /\ o_obj d = slice (strModel self) (o_start d) (o_end d))
  /\ (let house :=
        T "object house { name h1; object ZIPload { name z1; } }" in
      search HOUSE_REGEX house 0 = Some (0, 12)
      /\ extractObject (of_text house) 0 = ObjDict 0 53 house
      /\ extractObject (of_text house) 7 = ObjDict 7 53 (skipn 7 house)).
Proof.
  split.
  - intros self startInd Ho Hc.
    destruct (closes_least _ Hc) as (n & Hn & Hm).
    rewrite (extractObject_closed self startInd n Hn Hm).
    cbn [o_obj o_start o_end].
    pose proof (closing_rel_lt _ _ _ Hn) as Hlt.
    split; [apply balanced_from_phases; assumption|].
    split; [reflexivity|].
    split; [rewrite length_firstn; lia|].
    rewrite slice_from. reflexivity.
  - vm_compute. repeat split.
Qed.

Lemma extractObject_balanced_witness :
  let self := of_text (T "clock { timezone PST; } object node { }") in
  opens_first (skipn 0 (strModel self)) = true
  /\ closes (skipn 0 (strModel self)) = true
  /\ balanced_span (o_obj (extractObject self 0))
  /\ o_obj (extractObject self 0) = T "clock { timezone PST; }".
Proof.
  intros self.
  split; [reflexivity|]. split; [reflexivity|].
  split; [|reflexivity].
  apply (proj1 extractObject_balanced self 0); reflexivity.
Defined.

(** C1 as stated fails: nothing is refused by [extractObject], and on
    the text [}{{}] it returns all four characters, whose depth is
    negative after the first one and is back at zero after the second,
    before the end. *)
Lemma extractObject_unbalanced :
  let d := extractObject (of_text (T "}{{}")) 0 in
  d = ObjDict 0 4 (T "}{{}")
  /\ depth (firstn 1 (o_obj d)) = (-1)%Z
  /\ depth (firstn 2 (o_obj d)) = 0%Z
  /\ ~ balanced_span (o_obj d).
Proof.
  cbv zeta. split; [reflexivity|]. split; [reflexivity|].
  split; [reflexivity|].
  intros (Hneg & _). specialize (Hneg 1). cbn in Hneg. lia.
Qed.

(** C2, as amended. When no closing brace brings the depth back to zero
    before the end of the model, [extractObject] raises nothing: it
    returns the span from the start offset to the end of the model. *)
Theorem extractObject_unclosed self startInd :
  never_closes (skipn startInd (strModel self)) = true ->
  extractObject self startInd
  = ObjDict startInd
      (startInd + length (skipn startInd (strModel self)))
      (skipn startInd (strModel self)).
Proof.
  intros H. unfold extractObject.
  rewrite brace_loop_never by (apply never_closes_all; exact H).
  rewrite slice_from, firstn_all. reflexivity.
Qed.

Lemma extractObject_unclosed_witness :
  let self := of_text (T "module tape; object house { name h1;") in
  never_closes (skipn 13 (strModel self)) = true
  /\ extractObject self 13 = ObjDict 13 36 (T "object house { name h1;").
Proof.
  intros self. split; [reflexivity|].
  exact (extractObject_unclosed self 13 eq_refl).
Defined.

(** C2 as stated fails: on [clock {] the depth never comes back to zero
    and [extractObject] still returns a span, the rest of the model. *)
Lemma extractObject_no_error :
  never_closes (T "clock {") = true
  /\ extractObject (of_text (T "clock {")) 0 = ObjDict 0 7 (T "clock {").
Proof. split; reflexivity. Qed.

End ExtractObject.

(** ** extractProperties *)
Section ExtractProperties.

Lemma text_eqb_refl k : text_eqb k k = true.
Proof. unfold text_eqb. destruct (list_eq_dec ascii_dec k k); congruence. Qed.

Lemma text_eqb_eq a b : text_eqb a b = true <-> a = b.
Proof.
  unfold text_eqb. destruct (list_eq_dec ascii_dec a b); split; congruence.
Qed.

Lemma dict_get_set {V} (d : dict V) p v q :
  dict_get (dict_set d p v) q
  = if text_eqb q p then Some v else dict_get d q.
Proof.
  induction d as [|[k w] d IH]; cbn [dict_set dict_get].
  - reflexivity.
  - destruct (text_eqb p k) eqn:E.
    + apply text_eqb_eq in E. subst k. cbn [dict_get].
      destruct (text_eqb q p); reflexivity.
    + cbn [dict_get]. destruct (text_eqb q k) eqn:E2.
      * destruct (text_eqb q p) eqn:E3; [|reflexivity].
        apply text_eqb_eq in E2, E3. subst. rewrite text_eqb_refl in E.
        discriminate.
      * exact IH.
Qed.

Lemma extractProperties_loop_cons obj p ps d :
  extractProperties_loop obj (p :: ps) d
  = (pv <- extractProperty obj p ;;
     extractProperties_loop obj ps (dict_set d p pv)).
Proof.
  cbn [extractProperties_loop]. unfold extractProperty.
  destruct (compile (prop_pattern p)); [|reflexivity].
  destruct (search r obj 0) as [[s e]|]; reflexivity.
Qed.

Lemma extractProperties_single obj p :
  extractProperties obj [p] = (pv <- extractProperty obj p ;; Ok [(p, pv)]).
Proof.
  unfold extractProperties. rewrite extractProperties_loop_cons.
  destruct (extractProperty obj p); reflexivity.
Qed.

Lemma extractProperties_single_ok obj p d :
  extractProperties obj [p] = Ok d ->
  exists pv, extractProperty obj p = Ok pv /\ d = [(p, pv)].
Proof.
  rewrite extractProperties_single.
  destruct (extractProperty obj p) as [pv|]; [|discriminate].
  intros H. injection H as <-. exists pv. split; reflexivity.
Qed.

Lemma extractProperties_single_raise obj p e :
  extractProperties obj [p] = Raise e <-> extractProperty obj p = Raise e.
Proof.
  rewrite extractProperties_single.
  destruct (extractProperty obj p); cbn [bind]; split; intros H;
    try discriminate; injection H as ->; reflexivity.
Qed.

Lemma extractProperties_loop_raise obj e : forall ps1 p ps2 d,
  (forall q, In q ps1 -> exists pv, extractProperty obj q = Ok pv) ->
  extractProperty obj p = Raise e ->
  extractProperties_loop obj (ps1 ++ p :: ps2) d = Raise e.
Proof.
  induction ps1 as [|q ps1 IH]; intros p ps2 d Hall Hp.
  - cbn [app]. rewrite extractProperties_loop_cons, Hp. reflexivity.
  - cbn [app]. rewrite extractProperties_loop_cons.
    destruct (Hall q (or_introl eq_refl)) as [pv ->]. cbn [bind].
    apply IH; [|exact Hp]. intros q' Hq. apply Hall. right. exact Hq.
Qed.

Lemma extractProperties_loop_ok obj : forall ps d0,
  (forall q, In q ps -> exists pv, extractProperty obj q = Ok pv) ->
  exists d, extractProperties_loop obj ps d0 = Ok d
    /\ forall q, dict_get d q
         = if existsb (text_eqb q) ps
           then match extractProperty obj q with
                | Ok pv => Some pv
                | Raise _ => None
                end
           else dict_get d0 q.
Proof.
  induction ps as [|p ps IH]; intros d0 Hall.
  - exists d0. split; reflexivity.
  - rewrite extractProperties_loop_cons.
    destruct (Hall p (or_introl eq_refl)) as [pv Hp]. rewrite Hp. cbn [bind].
    destruct (IH (dict_set d0 p pv)) as (d & Hd & Hget).
    { intros q Hq. apply Hall. right. exact Hq. }
    exists d. split; [exact Hd|].
    intros q. rewrite Hget. cbn [existsb].
    destruct (existsb (text_eqb q) ps); [rewrite orb_true_r; reflexivity|].
    rewrite orb_false_r, dict_get_set.
    destruct (text_eqb q p) eqn:E; [|reflexivity].
    apply text_eqb_eq in E. subst q. rewrite Hp. reflexivity.
Qed.

Lemma extractProperty_plain_cases obj p :
  plain p = true ->
  (exists pv, extractProperty obj p = Ok pv)
  \/ extractProperty obj p = Raise (PropNotInObjError obj p).
Proof.
  intros H. unfold extractProperty. rewrite (compile_prop_pattern p H).
  destruct (search (prop_regex p) obj 0) as [[s e]|]; [left; eauto|right].
  reflexivity.
Qed.

Lemma extractProperties_loop_ok_inv obj : forall ps d0 d,
  extractProperties_loop obj ps d0 = Ok d ->
  forall q, In q ps -> exists pv, extractProperty obj q = Ok pv.
Proof.
  induction ps as [|p ps IH]; intros d0 d H q Hq; [destruct Hq|].
  rewrite extractProperties_loop_cons in H.
  destruct (extractProperty obj p) as [pv|e] eqn:E; [|discriminate].
  cbn [bind] in H. destruct Hq as [<-|Hq]; [eauto|].
  exact (IH _ _ H q Hq).
Qed.

(** C4, as amended. Over names free of regex metacharacters
    [extractProperties] is all-or-nothing: the look-up of one such name
    either resolves or raises PropNotInObjError for that name; when every
    name before [p] in the list is present and [p] is absent, the whole
    call raises PropNotInObjError for [p] and no map is returned,
    whatever the names after [p]; a map is returned exactly when every
    requested name is present, and it then holds for each name what the
    look-up of that name alone returns. *)
Theorem extractProperties_all_or_nothing obj :
  (forall p,
      plain p = true ->
      (exists d, extractProperties obj [p] = Ok d)
      \/ extractProperties obj [p] = Raise (PropNotInObjError obj p))
  /\ (forall ps1 p ps2,
      plain p = true ->
      (forall q, In q ps1 -> exists d, extractProperties obj [q] = Ok d) ->
      (forall d, extractProperties obj [p] <> Ok d) ->
      extractProperties obj (ps1 ++ p :: ps2)
      = Raise (PropNotInObjError obj p))
  /\ (forall ps,
      (forall q, In q ps -> exists d, extractProperties obj [q] = Ok d) ->
      exists d, extractProperties obj ps = Ok d
        /\ forall q d1, In q ps -> extractProperties obj [q] = Ok d1 ->
             dict_get d q = dict_get d1 q)
  /\ (forall ps d,
      extractProperties obj ps = Ok d ->
      forall q, In q ps -> exists d1, extractProperties obj [q] = Ok d1).
Proof.
  assert (Hone : forall p,
            plain p = true ->
            (exists d, extractProperties obj [p] = Ok d)
            \/ extractProperties obj [p] = Raise (PropNotInObjError obj p)).
  { intros p Hp. rewrite extractProperties_single.
    destruct (extractProperty_plain_cases obj p Hp) as [[pv ->]| ->];
      [left; eexists; reflexivity|right; reflexivity]. }
  split; [exact Hone|]. split; [|split].
  - intros ps1 p ps2 Hp Hall Habs. unfold extractProperties.
    apply extractProperties_loop_raise.
    + intros q Hq. destruct (Hall q Hq) as [d Hd].
      destruct (extractProperties_single_ok _ _ _ Hd) as (pv & Hpv & _).
      exists pv. exact Hpv.
    + apply extractProperties_single_raise.
      destruct (Hone p Hp) as [[d Hd]|Hr]; [destruct (Habs d Hd)|exact Hr].
  - intros ps Hall. unfold extractProperties.
    destruct (extractProperties_loop_ok obj ps []) as (d & Hd & Hget).
    { intros q Hq. destruct (Hall q Hq) as [d Hd].
      destruct (extractProperties_single_ok _ _ _ Hd) as (pv & Hpv & _).
      exists pv. exact Hpv. }
    exists d. split; [exact Hd|].
    intros q d1 Hq H1. rewrite Hget.
    destruct (extractProperties_single_ok _ _ _ H1) as (pv & Hpv & ->).
    rewrite Hpv. cbn [dict_get]. rewrite text_eqb_refl.
    replace (existsb (text_eqb q) ps) with true; [reflexivity|].
    symmetry. apply existsb_exists. exists q. split; [exact Hq|].
    apply text_eqb_refl.
  - intros ps d H q Hq. unfold extractProperties in H.
    destruct (extractProperties_loop_ok_inv obj ps [] d H q Hq) as [pv Hpv].
    rewrite extractProperties_single, Hpv. eexists. reflexivity.
Qed.

Lemma extractProperties_all_or_nothing_witness :
  let obj := T "object capacitor { name cap1; switchA OPEN; }" in
  plain (T "phases") = true
  /\ (forall q, In q [T "name"] -> exists d, extractProperties obj [q] = Ok d)
  /\ (forall d, extractProperties obj [T "phases"] <> Ok d)
  /\ extractProperties obj ([T "name"] ++ T "phases" :: [T "switchA"])
     = Raise (PropNotInObjError obj (T "phases")).
Proof.
  intros obj.
  assert (H1 : forall q, In q [T "name"] ->
                 exists d, extractProperties obj [q] = Ok d).
  { intros q [<-|[]]. eexists. vm_compute. reflexivity. }
  assert (H2 : forall d, extractProperties obj [T "phases"] <> Ok d).
  { intros d H. vm_compute in H. discriminate H. }
  split; [reflexivity|]. split; [exact H1|]. split; [exact H2|].
  exact (proj1 (proj2 (extractProperties_all_or_nothing obj))
           [T "name"] (T "phases") [T "switchA"] eq_refl H1 H2).
Defined.

(** C4 as stated fails: asked for [name] and [switchA] on a capacitor
    that only has [name], the call raises for [switchA] and returns
    nothing for [name], although [name] alone resolves. *)
Lemma extractProperties_batch_fails :
  let obj := T "object capacitor { name cap1; }" in
  extractProperties obj [T "name"]
  = Ok [(T "name", PropVal (T "cap1") 23 28)]
  /\ extractProperties obj [T "name"; T "switchA"]
     = Raise (PropNotInObjError obj (T "switchA")).
Proof. split; vm_compute; reflexivity. Qed.

End ExtractProperties.

(** ** Where a property statement is found *)
Section FindProp.

Lemma extractProperty_plain p obj :
  plain p = true ->
  extractProperty obj p
  = match find_prop p [] obj with
    | Some (s, e) =>
        Ok (PropVal (strip is_dq (strip is_space (slice obj s e))) s e)
    | None => Raise (PropNotInObjError obj p)
    end.
Proof.
  intros H. unfold extractProperty. rewrite (compile_prop_pattern p H).
  unfold search. cbn [firstn skipn rev]. rewrite search_prop. reflexivity.
Qed.

Lemma key_before_inv p l a :
  key_before p l a = true ->
  exists l0, l = rev p ++ l0
    /\ boundary l0 (p ++ a) = true /\ boundary l a = true.
Proof.
  unfold key_before. intros H.
  apply andb_true_iff in H. destruct H as [H Hb2].
  apply andb_true_iff in H. destruct H as [Hs Hb1].
  destruct (starts_with_inv _ _ Hs) as [l0 ->].
  exists l0. rewrite <- (length_rev p), skipn_len_app in Hb1.
  repeat split; assumption.
Qed.

Lemma key_before_intro p l0 a :
  boundary l0 (p ++ a) = true -> boundary (rev p ++ l0) a = true ->
  key_before p (rev p ++ l0) a = true.
Proof.
  intros H1 H2. unfold key_before.
  rewrite starts_with_app, <- (length_rev p), skipn_len_app, H1, H2.
  reflexivity.
Qed.

Lemma rev_eq_app (x y z : text) : rev x = rev y ++ z -> x = rev z ++ y.
Proof.
  intros H. apply (f_equal (@rev ascii)) in H.
  rewrite rev_involutive, rev_app_distr, rev_involutive in H. exact H.
Qed.

(** A found statement: the name as a whole word right before the span,
    white space and value inside, nothing matching further left. *)
Lemma find_prop_shape p obj s e :
  find_prop p [] obj = Some (s, e) ->
  exists pre a2 n,
    obj = pre ++ p ++ a2
    /\ s = length pre + length p /\ e = s + n
    /\ value_len a2 = Some n
    /\ boundary (rev pre) (p ++ a2) = true
    /\ boundary (rev (pre ++ p)) a2 = true
    /\ (forall b1 b2, pre ++ p = b1 ++ b2 -> b2 <> [] ->
          prop_here p (rev b1) (b2 ++ a2) = None).
Proof.
  intros H. apply leftmost_some in H.
  destruct H as (a1 & a2 & -> & Hh & Hn).
  rewrite app_nil_r in Hh. unfold prop_here in Hh.
  destruct (key_before p (rev a1) a2) eqn:Hk; [|discriminate].
  destruct (value_len a2) as [n|] eqn:Hv; [|discriminate].
  cbn [option_map] in Hh. injection Hh as <- <-.
  destruct (key_before_inv _ _ _ Hk) as (l0 & El & Hb1 & Hb2).
  apply rev_eq_app in El. subst a1.
  exists (rev l0), a2, n. rewrite rev_involutive.
  rewrite length_rev, length_app, length_rev, <- app_assoc.
  repeat split; try assumption; try reflexivity.
  intros b1 b2 E Hb. specialize (Hn b1 b2 E Hb).
  rewrite app_nil_r in Hn. exact Hn.
Qed.

Lemma scan_semi_shape : forall a n,
  scan_semi a = Some n ->
  exists body rest,
    a = body ++ ";"%char :: rest /\ n = length body
    /\ forallb value_char body = true.
Proof.
  induction a as [|x a IH]; intros n H; [discriminate|].
  cbn [scan_semi] in H.
  destruct (ascii_eqb x ";") eqn:E1.
  - injection H as <-. apply ascii_eqb_eq in E1. subst x.
    exists [], a. repeat split.
  - destruct (ascii_eqb x lf) eqn:E2; [discriminate|].
    destruct (scan_semi a) as [m|] eqn:E3; [|discriminate].
    injection H as <-.
    destruct (IH m eq_refl) as (body & rest & -> & -> & Hb).
    exists (x :: body), rest. repeat split.
    cbn [forallb]. unfold value_char at 1. rewrite E1, E2. exact Hb.
Qed.

Lemma value_rest_shape : forall a n,
  value_rest a = Some n ->
  exists ws body rest,
    a = ws ++ body ++ ";"%char :: rest /\ n = length ws + length body
    /\ forallb is_space ws = true /\ forallb value_char body = true.
Proof.
  induction a as [|x a IH]; intros n H; [discriminate|].
  cbn [value_rest] in H. destruct (is_space x) eqn:Hx.
  - destruct (value_rest a) as [m|] eqn:E; [|discriminate].
    injection H as <-.
    destruct (IH m eq_refl) as (ws & body & rest & -> & -> & Hw & Hb).
    exists (x :: ws), body, rest. repeat split; [|exact Hb].
    cbn [forallb]. rewrite Hx. exact Hw.
  - destruct (scan_semi_shape _ _ H) as (body & rest & E & -> & Hb).
    exists [], body, rest. repeat split; assumption.
Qed.

(** What the value part matches: white space, at least one character,
    then characters other than line feed and semicolon, and the
    semicolon follows. *)
Lemma value_len_shape a n :
  value_len a = Some n ->
  exists ws body rest,
    a = ws ++ body ++ ";"%char :: rest /\ n = length ws + length body
    /\ ws <> [] /\ forallb is_space ws = true
    /\ forallb value_char body = true.
Proof.
  destruct a as [|x a]; [discriminate|]. cbn [value_len].
  destruct (is_space x) eqn:Hx; [|discriminate].
  destruct (value_rest a) as [m|] eqn:E; [|discriminate].
  intros H. injection H as <-.
  destruct (value_rest_shape _ _ E) as (ws & body & rest & -> & -> & Hw & Hb).
  exists (x :: ws), body, rest. repeat split; try assumption; try discriminate.
  cbn [forallb]. rewrite Hx. exact Hw.
Qed.

Lemma scan_semi_intro : forall body rest,
  forallb value_char body = true ->
  scan_semi (body ++ ";"%char :: rest) = Some (length body).
Proof.
  induction body as [|x body IH]; intros rest H; [reflexivity|].
  cbn [forallb] in H. apply andb_true_iff in H. destruct H as [Hx Hb].
  unfold value_char in Hx. apply andb_true_iff in Hx.
  destruct Hx as [H1 H2]. apply negb_true_iff in H1, H2.
  cbn [app scan_semi length]. rewrite H1, H2, IH by exact Hb. reflexivity.
Qed.

Lemma value_rest_intro : forall w rest,
  forallb value_char w = true ->
  value_rest (w ++ ";"%char :: rest) = Some (length w).
Proof.
  induction w as [|x w IH]; intros rest H; [reflexivity|].
  pose proof H as H'.
  cbn [forallb] in H. apply andb_true_iff in H. destruct H as [Hx Hb].
  cbn [app value_rest length]. destruct (is_space x).
  - rewrite IH by exact Hb. reflexivity.
  - apply (scan_semi_intro (x :: w) rest H').
Qed.

(** A white space character, then text free of line feeds and
    semicolons, then a semicolon: the value part matches all of it. *)
Lemma value_len_intro x w rest :
  is_space x = true -> forallb value_char w = true ->
  value_len (x :: w ++ ";"%char :: rest) = Some (S (length w)).
Proof.
  intros Hx Hw. cbn [value_len]. rewrite Hx, value_rest_intro by exact Hw.
  reflexivity.
Qed.

End FindProp.

(** ** The span returned by extractProperties *)
Section PropertySpan.

Lemma firstn_two (x y z : text) :
  firstn (length x + length y) (x ++ y ++ z) = x ++ y.
Proof. rewrite app_assoc, <- length_app. apply firstn_len_app. Qed.

Lemma skipn_two (x y z : text) :
  skipn (length x + length y) (x ++ y ++ z) = z.
Proof. rewrite app_assoc, <- length_app. apply skipn_len_app. Qed.

Lemma nth_error_len_app (x : text) c z : nth_error (x ++ c :: z) (length x) = Some c.
Proof. induction x as [|y x IH]; [reflexivity|exact IH]. Qed.

(** C5, as amended. For a property name free of pattern characters, the
    offsets returned by [extractProperties] delimit the white space after
    the name and the raw value: the name ends exactly where the span
    starts and the semicolon is the character at the end offset, both
    outside the span. The span holds white space, at least one character,
    followed by text without line feed or semicolon. Replacing the span by
    a blank and a new value yields [name newValue;] in place. The value
    handed to the caller is the span's text with white space stripped at
    both ends and then every double quote stripped at both ends. *)
Theorem extractProperties_span p obj d :
  plain p = true ->
  extractProperties obj [p] = Ok d ->
  exists pv,
    d = [(p, pv)]
    /\ length p <= p_start pv /\ p_start pv < p_end pv
    /\ p_end pv < length obj
    /\ slice obj (p_start pv - length p) (p_start pv) = p
    /\ nth_error obj (p_end pv) = Some ";"%char
    /\ (exists ws body,
          slice obj (p_start pv) (p_end pv) = ws ++ body
          /\ ws <> [] /\ forallb is_space ws = true
          /\ forallb value_char body = true)
    /\ p_prop pv
       = strip is_dq (strip is_space (slice obj (p_start pv) (p_end pv)))
    /\ (forall v,
          firstn (p_start pv) obj ++ T " " ++ v ++ skipn (p_end pv) obj
          = firstn (p_start pv - length p) obj ++ p ++ T " " ++ v
              ++ T ";" ++ skipn (S (p_end pv)) obj).
Proof.
  intros Hp H.
  destruct (extractProperties_single_ok _ _ _ H) as (pv & Hpv & ->).
  exists pv. split; [reflexivity|].
  rewrite (extractProperty_plain p obj Hp) in Hpv.
  destruct (find_prop p [] obj) as [[s e]|] eqn:Hf; [|discriminate].
  injection Hpv as <-. cbn [p_start p_end p_prop].
  destruct (find_prop_shape _ _ _ _ Hf)
    as (pre & a2 & n & -> & -> & -> & Hv & _ & _ & _).
  destruct (value_len_shape _ _ Hv)
    as (ws & body & rest & -> & -> & Hne & Hws & Hbody).
  assert (Hws_len : 0 < length ws) by (destruct ws; [congruence|cbn; lia]).
  replace (length pre + length p - length p) with (length pre) by lia.
  assert (Hfirst : firstn (length pre + length p)
             (pre ++ p ++ ws ++ body ++ ";"%char :: rest) = pre ++ p)
    by apply firstn_two.
  assert (Hobj : pre ++ p ++ ws ++ body ++ ";"%char :: rest
                 = (pre ++ p) ++ (ws ++ body) ++ ";"%char :: rest).
  { rewrite <- !app_assoc. reflexivity. }
  assert (Hlen : length pre + length p + (length ws + length body)
                 = length (pre ++ p) + length (ws ++ body)).
  { rewrite !length_app. lia. }
  assert (Hslice : slice (pre ++ p ++ ws ++ body ++ ";"%char :: rest)
             (length pre + length p)
             (length pre + length p + (length ws + length body))
           = ws ++ body).
  { rewrite slice_from, skipn_two. apply firstn_two. }
  split; [lia|]. split; [lia|]. split.
  { rewrite !length_app. cbn [length]. lia. }
  split.
  { unfold slice. rewrite Hfirst. apply skipn_len_app. }
  split.
  { rewrite Hlen, Hobj, app_assoc, <- length_app. apply nth_error_len_app. }
  split.
  { exists ws, body. repeat split; assumption. }
  split; [reflexivity|].
  intros v. rewrite Hfirst.
  replace (firstn (length pre) (pre ++ p ++ ws ++ body ++ ";"%char :: rest))
    with pre by (symmetry; apply firstn_len_app).
  rewrite Hlen, Hobj.
  replace (S (length (pre ++ p) + length (ws ++ body)))
    with (length (pre ++ p) + length ((ws ++ body) ++ [";"%char])).
  2:{ rewrite (length_app (ws ++ body)). cbn [length]. lia. }
  rewrite skipn_two.
  replace ((pre ++ p) ++ (ws ++ body) ++ ";"%char :: rest)
    with ((pre ++ p) ++ ((ws ++ body) ++ [";"%char]) ++ rest)
    by (rewrite <- !app_assoc; reflexivity).
  rewrite skipn_two. rewrite <- !app_assoc. reflexivity.
Qed.

Lemma extractProperties_span_witness :
  let obj := T "object regulator { name reg1; tap_A 5; }" in
  plain (T "tap_A") = true
  /\ extractProperties obj [T "tap_A"]
     = Ok [(T "tap_A", PropVal (T "5") 35 37)]
  /\ exists pv,
       [(T "tap_A", PropVal (T "5") 35 37)] = [(T "tap_A", pv)]
       /\ slice obj (p_start pv - 5) (p_start pv) = T "tap_A"
       /\ nth_error obj (p_end pv) = Some ";"%char.
Proof.
  intros obj.
  assert (H1 : plain (T "tap_A") = true) by reflexivity.
  assert (H2 : extractProperties obj [T "tap_A"]
               = Ok [(T "tap_A", PropVal (T "5") 35 37)])
    by (vm_compute; reflexivity).
  split; [exact H1|]. split; [exact H2|].
  destruct (extractProperties_span (T "tap_A") obj _ H1 H2)
    as (pv & Hd & _ & _ & _ & Hname & Hsep & _).
  exists pv. split; [exact Hd|]. split; [exact Hname|exact Hsep].
Defined.

(** C5 as stated fails. For [tap_A 5;] the offsets are 5 and 7: the span
    is the blank and the value, without the name before it and without
    the semicolon after it. And a value wrapped in two layers of double
    quotes loses both. *)
Lemma extractProperties_span_excludes_name :
  extractProperties (T "tap_A 5;") [T "tap_A"]
  = Ok [(T "tap_A", PropVal (T "5") 5 7)]
  /\ slice (T "tap_A 5;") 5 7 = T " 5"
  /\ extractProperties (T "lu_solver " ++ [dq; dq] ++ T "KLU" ++ [dq; dq]
                          ++ T ";") [T "lu_solver"]
     = Ok [(T "lu_solver", PropVal (T "KLU") 9 17)].
Proof. repeat split; vm_compute; reflexivity. Qed.

End PropertySpan.

(** ** modObjProps *)
Section ModObjProps.

(** One property write, for a name free of pattern characters. *)
Lemma modObjProp_plain p obj v :
  plain p = true ->
  modObjProp obj p v
  = match find_prop p [] obj with
    | Some (s, e) => Ok (firstn s obj ++ T " " ++ v ++ skipn e obj)
    | None =>
        match last_char obj with
        | None => Raise IndexError
        | Some c =>
            Ok (removelast obj ++ T "  " ++ p ++ T " " ++ v
                  ++ [";"%char; lf] ++ [c])
        end
    end.
Proof.
  intros H. unfold modObjProp.
  rewrite extractProperties_single, (extractProperty_plain p obj H).
  destruct (find_prop p [] obj) as [[s e]|]; cbn [bind].
  - cbn [dict_get]. rewrite text_eqb_refl. reflexivity.
  - reflexivity.
Qed.

Lemma last_char_app (x y : text) :
  y <> [] -> last_char (x ++ y) = last_char y.
Proof.
  intros Hy. induction x as [|c x IH]; [reflexivity|].
  cbn [app]. destruct (x ++ y) eqn:E.
  - destruct x; [cbn in E; congruence|discriminate].
  - exact IH.
Qed.

Lemma last_char_skipn (s : text) n :
  n < length s -> last_char (skipn n s) = last_char s.
Proof.
  intros H. rewrite <- (firstn_skipn n s) at 2.
  symmetry. apply last_char_app.
  intros E. apply (f_equal (@length ascii)) in E.
  rewrite length_skipn in E. cbn in E. lia.
Qed.

Lemma last_char_removelast (s : text) c :
  last_char s = Some c -> s = removelast s ++ [c].
Proof.
  induction s as [|x s IH]; [discriminate|].
  destruct s as [|y s].
  - cbn. intros H. injection H as ->. reflexivity.
  - intros H. change (removelast (x :: y :: s)) with (x :: removelast (y :: s)).
    cbn [app]. f_equal. apply IH. exact H.
Qed.

(** A single write keeps the last character and raises nothing on a
    non-empty object. *)
Lemma modObjProp_last p obj v c :
  plain p = true ->
  last_char obj = Some c ->
  exists obj', modObjProp obj p v = Ok obj' /\ last_char obj' = Some c.
Proof.
  intros Hp Hc. rewrite (modObjProp_plain p obj v Hp).
  destruct (find_prop p [] obj) as [[s e]|] eqn:Hf.
  - eexists. split; [reflexivity|].
    destruct (find_prop_shape _ _ _ _ Hf)
      as (pre & a2 & n & Eo & -> & -> & Hv & _).
    apply value_len_bound in Hv.
    assert (He : length pre + length p + n < length obj).
    { rewrite Eo, !length_app. lia. }
    rewrite !app_assoc, last_char_app.
    + rewrite last_char_skipn by exact He. exact Hc.
    + intros E. apply (f_equal (@length ascii)) in E.
      rewrite length_skipn in E. cbn in E. lia.
  - rewrite Hc. eexists. split; [reflexivity|].
    rewrite !app_assoc. apply last_char_app. discriminate.
Qed.

(** C10, as amended. For property names free of pattern characters and
    an object text ending in a closing brace, [modObjProps] raises
    nothing and returns a text that still ends in a closing brace. *)
Theorem modObjProps_keeps_brace propDict : forall obj,
  forallb plain (map fst propDict) = true ->
  last_char obj = Some "}"%char ->
  exists obj',
    modObjProps obj propDict = Ok obj' /\ last_char obj' = Some "}"%char.
Proof.
  induction propDict as [|[p v] rest IH]; intros obj Hp Hc.
  - exists obj. split; [reflexivity|exact Hc].
  - cbn [map fst forallb] in Hp. apply andb_true_iff in Hp.
    destruct Hp as [Hp Hrest].
    destruct (modObjProp_last p obj v "}"%char Hp Hc) as (obj1 & H1 & Hc1).
    cbn [modObjProps]. rewrite H1. cbn [bind].
    apply IH; assumption.
Qed.

Lemma modObjProps_keeps_brace_witness :
  let obj := T "object regulator { name reg1; tap_A 5; }" in
  let propDict := [(T "tap_A", T "10"); (T "tap_B", T "2")] in
  forallb plain (map fst propDict) = true
  /\ last_char obj = Some "}"%char
  /\ exists obj',
       modObjProps obj propDict = Ok obj' /\ last_char obj' = Some "}"%char.
Proof.
  intros obj propDict.
  split; [reflexivity|]. split; [reflexivity|].
  apply (modObjProps_keeps_brace propDict obj); reflexivity.
Defined.

(** C10 as stated fails: the property name is pasted into the pattern as
    it is, so a name holding pattern characters can make the match end at
    the end of the object; the new value then lands after the closing
    brace. *)
Lemma modObjProps_brace_lost :
  last_char (T "{a}") = Some "}"%char
  /\ modObjProps (T "{a}") [(T "})|(y", T "v")] = Ok (T "{a} v")
  /\ last_char (T "{a} v") = Some "v"%char.
Proof. repeat split; vm_compute; reflexivity. Qed.

End ModObjProps.

(** ** Whole-word occurrences of a property name *)
Section KeyFree.

Lemma special_not_word c : is_word c = true -> special c = false.
Proof.
  intros H. destruct (special c) eqn:E; [|reflexivity].
  unfold special in E. apply existsb_exists in E.
  destruct E as (x & Hin & Hx). apply ascii_eqb_eq in Hx. subst x.
  cbn in Hin.
  repeat (destruct Hin as [<-|Hin]; [discriminate H|]).
  destruct Hin.
Qed.

Lemma word_plain p : word p = true -> plain p = true.
Proof.
  intros H. assert (Hw : forallb is_word p = true).
  { destruct p; [discriminate|exact H]. }
  clear H. induction p as [|c p IH]; [reflexivity|].
  cbn [forallb] in Hw. apply andb_true_iff in Hw. destruct Hw as [Hc Hp].
  cbn [plain forallb]. rewrite (special_not_word c Hc). exact (IH Hp).
Qed.

Lemma word_all p : word p = true -> forallb is_word p = true.
Proof. destruct p; [discriminate|exact (fun H => H)]. Qed.

Lemma next_word_app p a a' :
  next_word a = next_word a' -> next_word (p ++ a) = next_word (p ++ a').
Proof. destruct p; [exact (fun H => H)|reflexivity]. Qed.

(** Only the first character to the right matters. *)
Lemma key_before_next p l a a' :
  next_word a = next_word a' -> key_before p l a = key_before p l a'.
Proof.
  intros H. unfold key_before, boundary.
  rewrite (next_word_app p a a' H), H. reflexivity.
Qed.

Lemma key_before_cons p l x a a' :
  key_before p l (x :: a) = key_before p l (x :: a').
Proof. apply key_before_next. reflexivity. Qed.

Lemma key_free_app p : forall x l y,
  key_free p l (x ++ y) = key_free p l x && key_free p (rev x ++ l) y.
Proof.
  induction x as [|c x IH]; intros l y.
  - reflexivity.
  - cbn [app key_free rev]. rewrite IH, <- app_assoc.
    rewrite (key_before_cons p l c (x ++ y) x).
    rewrite andb_assoc. reflexivity.
Qed.

Lemma key_free_split p l a1 b1 b2 :
  key_free p l a1 = true -> a1 = b1 ++ b2 -> b2 <> [] ->
  forall a2, key_before p (rev b1 ++ l) (b2 ++ a2) = false.
Proof.
  intros H -> Hb a2. rewrite key_free_app in H.
  apply andb_true_iff in H. destruct H as [_ H].
  destruct b2 as [|c b2]; [congruence|].
  cbn [key_free] in H. apply andb_true_iff in H. destruct H as [H _].
  apply negb_true_iff in H. cbn [app].
  rewrite (key_before_cons p _ c (b2 ++ a2) b2). exact H.
Qed.

(** Search passes over a stretch without the name. *)
Lemma key_free_skip p l a1 a2 :
  key_free p l a1 = true ->
  find_prop p l (a1 ++ a2) = find_prop p (rev a1 ++ l) a2.
Proof.
  intros H. unfold find_prop. apply leftmost_skip.
  intros b1 b2 E Hb. unfold prop_here.
  rewrite (key_free_split p l a1 b1 b2 H E Hb). reflexivity.
Qed.

Lemma last_word p : word p = true -> prev_word (rev p) = true.
Proof.
  intros H. pose proof (word_all p H) as Hw.
  destruct p as [|c p]; [discriminate|]. clear H.
  revert c Hw. induction p as [|d p IH]; intros c Hw.
  - cbn in *. rewrite andb_true_r in Hw. exact Hw.
  - cbn [forallb] in Hw. apply andb_true_iff in Hw. destruct Hw as [_ Hw].
    specialize (IH d Hw). cbn [rev] in *.
    destruct (rev p ++ [d]) eqn:E; [destruct (rev p); discriminate|].
    exact IH.
Qed.

Lemma prev_word_app (x l : text) : x <> [] -> prev_word (x ++ l) = prev_word x.
Proof. destruct x; [congruence|reflexivity]. Qed.

Lemma first_word p a : word p = true -> next_word (p ++ a) = true.
Proof.
  intros H. pose proof (word_all p H) as Hw.
  destruct p as [|c p]; [discriminate|].
  cbn in *. apply andb_true_iff in Hw. apply Hw.
Qed.

Lemma rev_nonempty (p : text) : p <> [] -> rev p <> [].
Proof.
  intros H E. apply H. apply (f_equal (@rev ascii)) in E.
  rewrite rev_involutive in E. exact E.
Qed.

Lemma word_nonempty p : word p = true -> p <> [].
Proof. destruct p; [discriminate|discriminate]. Qed.

(** For a word, the look-behind asks for the name with a non-word
    character, or nothing, on either side. *)
Lemma key_before_word p l0 a :
  word p = true ->
  key_before p (rev p ++ l0) a = negb (prev_word l0) && negb (next_word a).
Proof.
  intros H. unfold key_before.
  rewrite starts_with_app, <- (length_rev p), skipn_len_app.
  unfold boundary. rewrite (first_word p a H).
  rewrite prev_word_app by (apply rev_nonempty, word_nonempty; exact H).
  rewrite (last_word p H). cbn [andb].
  destruct (prev_word l0), (next_word a); reflexivity.
Qed.

Lemma key_before_nonword_left p l a :
  word p = true -> prev_word l = false -> key_before p l a = false.
Proof.
  intros H Hl. destruct (key_before p l a) eqn:E; [|reflexivity].
  destruct (key_before_inv _ _ _ E) as (l0 & -> & _).
  rewrite prev_word_app in Hl
    by (apply rev_nonempty, word_nonempty; exact H).
  rewrite (last_word p H) in Hl. discriminate.
Qed.

Lemma key_before_inside_word p l a :
  prev_word l = true -> next_word a = true -> key_before p l a = false.
Proof.
  intros Hl Ha. unfold key_before, boundary at 2. rewrite Hl, Ha.
  cbn [xorb]. apply andb_false_r.
Qed.

Lemma key_free_in_word p : forall q l,
  forallb is_word q = true -> prev_word l = true -> key_free p l q = true.
Proof.
  induction q as [|c q IH]; intros l Hq Hl; [reflexivity|].
  cbn [forallb] in Hq. apply andb_true_iff in Hq. destruct Hq as [Hc Hq].
  cbn [key_free]. rewrite key_before_inside_word by assumption.
  cbn [negb andb]. apply IH; [exact Hq|exact Hc].
Qed.

(** The name itself, written after a non-word character, holds no
    earlier end of the name. *)
Lemma key_free_self p l :
  word p = true -> prev_word l = false -> key_free p l p = true.
Proof.
  intros H Hl. pose proof (word_all p H) as Hw.
  destruct p as [|c p]; [discriminate|].
  cbn [key_free]. rewrite (key_before_nonword_left _ l _ H Hl).
  cbn [negb andb forallb] in *. apply andb_true_iff in Hw.
  apply key_free_in_word; [apply Hw|apply Hw].
Qed.

End KeyFree.

(** ** Writing one property *)
Section WriteProperty.

Lemma find_prop_key_free p l a :
  key_free p l a = true -> find_prop p l a = None.
Proof.
  intros H. rewrite <- (app_nil_r a), (key_free_skip p l a [] H).
  unfold find_prop. cbn [leftmost]. unfold prop_here. cbn [value_len].
  destruct (key_before p (rev a ++ l) []); reflexivity.
Qed.

Lemma rev_two_blanks (body : text) :
  rev (body ++ T "  ") = " "%char :: " "%char :: rev body.
Proof. rewrite rev_app_distr. reflexivity. Qed.

(** The name is still absent after two blanks and the name are appended
    to a text it was absent from. *)
Lemma key_free_appended p body c :
  word p = true -> is_word c = false ->
  key_free p [] (body ++ [c]) = true ->
  key_free p [] ((body ++ T "  ") ++ p) = true.
Proof.
  intros Hp Hc H. rewrite key_free_app in H. apply andb_true_iff in H.
  destruct H as [Hbody Hend]. rewrite app_nil_r in Hend.
  cbn [key_free] in Hend. rewrite andb_true_r in Hend.
  apply negb_true_iff in Hend.
  rewrite !key_free_app, Hbody, !app_nil_r, rev_two_blanks.
  cbn [T list_ascii_of_string key_free andb].
  rewrite (key_before_next p (rev body) _ [c]) by (cbn; rewrite Hc; reflexivity).
  rewrite Hend.
  rewrite (key_before_nonword_left p (" "%char :: rev body)) by (exact Hp || reflexivity).
  cbn [negb andb]. apply key_free_self; [exact Hp|reflexivity].
Qed.

Lemma find_prop_appended p v body c rest :
  word p = true -> clean_value v = true -> is_word c = false ->
  key_free p [] (body ++ [c]) = true ->
  find_prop p [] (body ++ T "  " ++ p ++ T " " ++ v ++ ";"%char :: rest)
  = Some (length body + 2 + length p,
          length body + 2 + length p + S (length v)).
Proof.
  intros Hp Hv Hc H.
  replace (body ++ T "  " ++ p ++ T " " ++ v ++ ";"%char :: rest)
    with (((body ++ T "  ") ++ p) ++ " "%char :: v ++ ";"%char :: rest)
    by (rewrite <- !app_assoc; reflexivity).
  rewrite (key_free_skip p [] _ _ (key_free_appended p body c Hp Hc H)).
  rewrite app_nil_r. unfold find_prop. apply leftmost_here.
  unfold prop_here.
  rewrite (rev_app_distr (body ++ T "  ") p), (key_before_word p _ _ Hp).
  rewrite rev_two_blanks. cbn [prev_word next_word negb andb].
  rewrite (value_len_intro " "%char v rest eq_refl Hv).
  cbn [option_map]. rewrite length_app. cbn [length].
  rewrite !length_rev.
  change (negb (is_word " ") && negb (is_word " ")) with true.
  cbv iota.
  replace (length p + S (S (length body))) with (length body + 2 + length p)
    by lia.
  reflexivity.
Qed.

Lemma extractProperties_raise_plain p obj e :
  plain p = true -> extractProperties obj [p] = Raise e ->
  find_prop p [] obj = None.
Proof.
  intros Hp H. apply extractProperties_single_raise in H.
  rewrite (extractProperty_plain p obj Hp) in H.
  destruct (find_prop p [] obj) as [[s e']|]; [discriminate|reflexivity].
Qed.

Lemma last_char_snoc (body : text) c : last_char (body ++ [c]) = Some c.
Proof. rewrite last_char_app by discriminate. reflexivity. Qed.

(** C6, as amended. [modObjProps] performs the writes one after the
    other in the order of the dictionary. For a name free of pattern
    characters: a write to a property that [extractProperties] finds
    replaces the white space and old value between the name and the
    semicolon by one blank and the new value, leaving everything else,
    name and semicolon included, as it was; a write to a property that is
    not found inserts two blanks, the name, a blank, the value, a
    semicolon and a line feed right before the last character of the
    object text. When the object text ends with its closing brace, the
    name is a word absent from it and the value holds no semicolon or
    line feed, reading the property back finds the inserted statement,
    with the value stripped of surrounding white space and double quotes.
    Setting [tap_A] to 10 in the regulator example changes the [tap_A]
    statement only. *)
Theorem modObjProps_write :
  (forall obj p v rest,
      modObjProps obj ((p, v) :: rest)
      = (obj' <- modObjProp obj p v ;; modObjProps obj' rest))
  /\ (forall obj p v d,
      plain p = true -> extractProperties obj [p] = Ok d ->
      exists pre old post,
        obj = pre ++ p ++ old ++ ";"%char :: post
        /\ dict_get d p
           = Some (PropVal (strip is_dq (strip is_space old))
                     (length pre + length p)
                     (length pre + length p + length old))
        /\ modObjProp obj p v
           = Ok (pre ++ p ++ T " " ++ v ++ ";"%char :: post))
  /\ (forall body c p v e,
      plain p = true -> extractProperties (body ++ [c]) [p] = Raise e ->
      modObjProp (body ++ [c]) p v
      = Ok (body ++ T "  " ++ p ++ T " " ++ v ++ [";"%char; lf] ++ [c]))
  /\ (forall body p v,
      word p = true -> clean_value v = true ->
      key_free p [] (body ++ T "}") = true ->
      let obj' := body ++ T "  " ++ p ++ T " " ++ v ++ [";"%char; lf] ++ T "}" in
      modObjProp (body ++ T "}") p v = Ok obj'
      /\ exists pv,
           extractProperties obj' [p] = Ok [(p, pv)]
           /\ slice obj' (p_start pv) (p_end pv) = T " " ++ v
           /\ p_prop pv = strip is_dq (strip is_space v))
  /\ modObjProps
       (T "object regulator {" ++ [lf] ++ T " name reg1;" ++ [lf]
          ++ T " tap_A 5;" ++ [lf] ++ T "}" ++ [lf])
       [(T "tap_A", T "10")]
     = Ok (T "object regulator {" ++ [lf] ++ T " name reg1;" ++ [lf]
             ++ T " tap_A 10;" ++ [lf] ++ T "}" ++ [lf]).
Proof.
  split; [reflexivity|]. split; [|split; [|split]].
  - intros obj p v d Hp H.
    destruct (extractProperties_single_ok _ _ _ H) as (pv & Hpv & ->).
    rewrite (modObjProp_plain p obj v Hp).
    rewrite (extractProperty_plain p obj Hp) in Hpv.
    destruct (find_prop p [] obj) as [[s e]|] eqn:Hf; [|discriminate].
    injection Hpv as <-.
    destruct (find_prop_shape _ _ _ _ Hf)
      as (pre & a2 & n & -> & -> & -> & Hv & _).
    destruct (value_len_shape _ _ Hv)
      as (ws & body & rest & -> & -> & _).
    exists pre, (ws ++ body), rest.
    assert (Hslice : slice (pre ++ p ++ ws ++ body ++ ";"%char :: rest)
               (length pre + length p)
               (length pre + length p + (length ws + length body))
             = ws ++ body).
    { rewrite slice_from, skipn_two. apply firstn_two. }
    split; [rewrite <- !app_assoc; reflexivity|]. split.
    + cbn [dict_get]. rewrite text_eqb_refl, Hslice, length_app. reflexivity.
    + rewrite firstn_two.
      replace (pre ++ p ++ ws ++ body ++ ";"%char :: rest)
        with ((pre ++ p) ++ (ws ++ body) ++ ";"%char :: rest)
        by (rewrite <- !app_assoc; reflexivity).
      rewrite <- (length_app pre p), <- (length_app ws body), skipn_two.
      rewrite <- !app_assoc. reflexivity.
  - intros body c p v e Hp H.
    rewrite (modObjProp_plain p _ v Hp).
    rewrite (extractProperties_raise_plain p _ e Hp H).
    rewrite last_char_snoc, removelast_last. reflexivity.
  - intros body p v Hp Hv Hfree obj'.
    pose proof (word_plain p Hp) as Hpl.
    split.
    + rewrite (modObjProp_plain p _ v Hpl).
      rewrite (find_prop_key_free p [] _ Hfree).
      change (T "}") with ["}"%char].
      rewrite last_char_snoc, removelast_last. reflexivity.
    + assert (Hf : find_prop p [] obj'
                   = Some (length body + 2 + length p,
                           length body + 2 + length p + S (length v))).
      { apply (find_prop_appended p v body "}"%char); try assumption.
        reflexivity. }
      eexists. rewrite extractProperties_single.
      rewrite (extractProperty_plain p obj' Hpl), Hf. cbn [bind].
      split; [reflexivity|]. cbn [p_start p_end p_prop].
      assert (Hs : slice obj' (length body + 2 + length p)
                     (length body + 2 + length p + S (length v))
                   = T " " ++ v).
      { rewrite slice_from. unfold obj'.
        replace (body ++ T "  " ++ p ++ T " " ++ v ++ [";"%char; lf] ++ T "}")
          with ((body ++ T "  ") ++ p
                  ++ (T " " ++ v) ++ [";"%char; lf] ++ T "}")
          by (rewrite <- !app_assoc; reflexivity).
        replace (length body + 2) with (length (body ++ T "  "))
          by (rewrite length_app; reflexivity).
        rewrite skipn_two.
        change (S (length v)) with (length (T " " ++ v)).
        apply firstn_len_app. }
      rewrite Hs. split; reflexivity.
  - vm_compute. reflexivity.
Qed.

Lemma modObjProps_write_witness :
  let body := T "object capacitor { name cap1; " in
  let obj' := T "object capacitor { name cap1;   switchA CLOSED;"
                ++ [lf] ++ T "}" in
  word (T "switchA") = true /\ clean_value (T "CLOSED") = true
  /\ key_free (T "switchA") [] (body ++ T "}") = true
  /\ modObjProp (body ++ T "}") (T "switchA") (T "CLOSED") = Ok obj'
  /\ exists pv,
       extractProperties obj' [T "switchA"] = Ok [(T "switchA", pv)]
       /\ p_prop pv = T "CLOSED".
Proof.
  intros body obj'.
  split; [reflexivity|]. split; [reflexivity|]. split; [reflexivity|].
  destruct (proj1 (proj2 (proj2 (proj2 modObjProps_write)))
              body (T "switchA") (T "CLOSED") eq_refl eq_refl eq_refl)
    as (Hw & pv & Hr & _ & Hv).
  split; [exact Hw|]. exists pv. split; [exact Hr|exact Hv].
Defined.

(** C6 as stated fails. On the capacitor text of the specification,
    which ends with a line feed after the closing brace, the new
    statement is inserted before that line feed and so lands after the
    closing brace. And when the name already stands in the object as a
    bare word, the inserted statement is not the one read back. *)
Lemma modObjProps_append_misplaced :
  modObjProps
    (T "object capacitor {" ++ [lf] ++ T " name cap1;" ++ [lf] ++ T "}" ++ [lf])
    [(T "switchA", T "CLOSED")]
  = Ok (T "object capacitor {" ++ [lf] ++ T " name cap1;" ++ [lf]
          ++ T "}  switchA CLOSED;" ++ [lf] ++ [lf])
  /\ modObjProps (T "{k}") [(T "k", T "v")] = Ok (T "{k  k v;" ++ [lf] ++ T "}")
  /\ extractProperties (T "{k  k v;" ++ [lf] ++ T "}") [T "k"]
     = Ok [(T "k", PropVal (T "k v") 2 7)].
Proof. repeat split; vm_compute; reflexivity. Qed.

End WriteProperty.

(** ** The matcher finds a match exactly when there is one *)
Section MatcherCorrect.

Lemma star_greedy_sound cs k : forall a l c,
  star_greedy cs k l a = Some c ->
  exists l' a', Matches (Star false cs) l a l' a' /\ k l' a' = Some c.
Proof.
  induction a as [|x a IH]; intros l c H; cbn [star_greedy] in H.
  - exists l, []. split; [constructor|exact H].
  - destruct (cmatch cs x) eqn:Hx.
    + destruct (star_greedy cs k (x :: l) a) as [c'|] eqn:E.
      * injection H as <-. destruct (IH _ _ E) as (l' & a' & Hm & Hk).
        exists l', a'. split; [|exact Hk]. apply M_StarS; assumption.
      * exists l, (x :: a). split; [constructor|exact H].
    + exists l, (x :: a). split; [constructor|exact H].
Qed.

Lemma star_lazy_sound cs k : forall a l c,
  star_lazy cs k l a = Some c ->
  exists l' a', Matches (Star true cs) l a l' a' /\ k l' a' = Some c.
Proof.
  induction a as [|x a IH]; intros l c H; cbn [star_lazy] in H.
  - destruct (k l []) as [c'|] eqn:E; [|discriminate].
    exists l, []. split; [constructor|congruence].
  - destruct (k l (x :: a)) as [c'|] eqn:E.
    + exists l, (x :: a). split; [constructor|congruence].
    + destruct (cmatch cs x) eqn:Hx; [|discriminate].
      destruct (IH _ _ H) as (l' & a' & Hm & Hk).
      exists l', a'. split; [|exact Hk]. apply M_StarS; assumption.
Qed.

Lemma run_sound : forall r l a k c,
  run r l a k = Some c ->
  exists l' a', Matches r l a l' a' /\ k l' a' = Some c.
Proof.
  induction r as [|cs| |r1 IH1 r2 IH2|r1 IH1 r2 IH2|lz cs|r IH|w r IH];
    intros l a k c H; cbn [run] in H.
  - exists l, a. split; [constructor|exact H].
  - destruct a as [|x a]; [discriminate|].
    destruct (cmatch cs x) eqn:Hx; [|discriminate].
    exists (x :: l), a. split; [constructor; exact Hx|exact H].
  - destruct (boundary l a) eqn:Hb; [|discriminate].
    exists l, a. split; [constructor; exact Hb|exact H].
  - destruct (IH1 _ _ _ _ H) as (l1 & a1 & H1 & Hk).
    destruct (IH2 _ _ _ _ Hk) as (l2 & a2 & H2 & Hk2).
    exists l2, a2. split; [econstructor; eassumption|exact Hk2].
  - destruct (run r1 l a k) as [c1|] eqn:E.
    + injection H as <-. destruct (IH1 _ _ _ _ E) as (l' & a' & Hm & Hk).
      exists l', a'. split; [apply M_AltL; exact Hm|exact Hk].
    + destruct (IH2 _ _ _ _ H) as (l' & a' & Hm & Hk).
      exists l', a'. split; [apply M_AltR; exact Hm|exact Hk].
  - destruct lz.
    + apply star_lazy_sound. exact H.
    + apply star_greedy_sound. exact H.
  - destruct (run r l a ret) as [c1|] eqn:E; [|discriminate].
    destruct (IH _ _ _ _ E) as (l' & a' & Hm & _).
    exists l, a. split; [econstructor; exact Hm|exact H].
  - destruct (unwind w l a) as [[l0 a0]|] eqn:Hu; [|discriminate].
    destruct (run r l0 a0 ret) as [c1|] eqn:E; [|discriminate].
    destruct (IH _ _ _ _ E) as (l' & a' & Hm & _).
    exists l, a. split; [econstructor; eassumption|exact H].
Qed.

Lemma star_greedy_complete cs k l a l' a' c :
  Matches (Star false cs) l a l' a' -> k l' a' = Some c ->
  exists c', star_greedy cs k l a = Some c'.
Proof.
  intros Hm. remember (Star false cs) as r eqn:Er.
  induction Hm; try discriminate; injection Er as -> ->; intros Hk.
  - destruct a as [|x a]; cbn [star_greedy]; [eauto|].
    destruct (cmatch cs x); [|eauto].
    destruct (star_greedy cs k (x :: l) a); eauto.
  - cbn [star_greedy]. rewrite H.
    destruct (IHHm eq_refl Hk) as [c' ->]. eauto.
Qed.

Lemma star_lazy_complete cs k l a l' a' c :
  Matches (Star true cs) l a l' a' -> k l' a' = Some c ->
  exists c', star_lazy cs k l a = Some c'.
Proof.
  intros Hm. remember (Star true cs) as r eqn:Er.
  induction Hm; try discriminate; injection Er as -> ->; intros Hk.
  - destruct a as [|x a]; cbn [star_lazy]; rewrite Hk; eauto.
  - cbn [star_lazy]. destruct (k l (x :: a)); [eauto|].
    rewrite H. exact (IHHm eq_refl Hk).
Qed.

Lemma run_complete r l a l' a' :
  Matches r l a l' a' ->
  forall k c, k l' a' = Some c -> exists c', run r l a k = Some c'.
Proof.
  induction 1; intros k c Hk; cbn [run].
  - eauto.
  - rewrite H. eauto.
  - rewrite H. eauto.
  - destruct (IHMatches2 k c Hk) as [c2 H2].
    exact (IHMatches1 (fun l' a' => run r2 l' a' k) c2 H2).
  - destruct (IHMatches k c Hk) as [c1 ->]. eauto.
  - destruct (run r1 l a k); [eauto|]. exact (IHMatches k c Hk).
  - destruct lz.
    + apply (star_lazy_complete cs k l a l a c); [constructor|exact Hk].
    + apply (star_greedy_complete cs k l a l a c); [constructor|exact Hk].
  - destruct lz.
    + apply (star_lazy_complete cs k l (x :: a) l' a' c);
        [apply M_StarS; assumption|exact Hk].
    + apply (star_greedy_complete cs k l (x :: a) l' a' c);
        [apply M_StarS; assumption|exact Hk].
  - destruct (IHMatches ret (l', a') eq_refl) as [c1 ->]. eauto.
  - rewrite H. destruct (IHMatches ret (l', a') eq_refl) as [c1 ->]. eauto.
Qed.

(** [match_here] succeeds exactly when the pattern has a match here. *)
Lemma match_here_iff r l a :
  (exists sp, match_here r l a = Some sp)
  <-> exists l' a', Matches r l a l' a'.
Proof.
  unfold match_here. split.
  - intros [sp H]. destruct (run r l a ret) as [c|] eqn:E; [|discriminate].
    destruct (run_sound _ _ _ _ _ E) as (l' & a' & Hm & _). eauto.
  - intros (l' & a' & Hm).
    destruct (run_complete _ _ _ _ _ Hm ret (l', a') eq_refl) as [[l1 a1] ->].
    eauto.
Qed.

Lemma match_here_none r l a :
  match_here r l a = None <-> forall l' a', ~ Matches r l a l' a'.
Proof.
  split.
  - intros H l' a' Hm.
    destruct (proj2 (match_here_iff r l a)) as [sp Hsp]; [eauto|congruence].
  - intros H. destruct (match_here r l a) as [sp|] eqn:E; [|reflexivity].
    destruct (proj1 (match_here_iff r l a)) as (l' & a' & Hm); [eauto|].
    destruct (H _ _ Hm).
Qed.

Lemma match_here_start r l a s e :
  match_here r l a = Some (s, e) -> s = length l.
Proof.
  unfold match_here. destruct (run r l a ret) as [[l' a']|]; [|discriminate].
  intros H. injection H as <- _. reflexivity.
Qed.

End MatcherCorrect.

(** ** The name pattern *)
Section NamePattern.

Lemma steps_opt_dq f fs :
  steps (T "?)") (steps [dq] (steps (T "(") (Some (MNorm, f :: fs))))
  = push_item (IDone opt_dq) (f :: fs).
Proof. reflexivity. Qed.

Lemma steps_ws_star f fs :
  steps (T "(\s*)") (Some (MNorm, f :: fs))
  = push_item (IDone ws_star) (f :: fs).
Proof. reflexivity. Qed.

Lemma steps_semi f fs :
  steps (T ";") (Some (MNorm, f :: fs)) = push_item (lit_item ";") (f :: fs).
Proof. reflexivity. Qed.

Lemma finish_top cur :
  finish (Some (MNorm, [Frame GTop [] cur]))
  = Some (seq_of (map regex_of_item (rev cur))).
Proof. reflexivity. Qed.

Lemma compile_name_pattern name :
  plain name = true -> compile (OBJY_BY_NAME name) = Some (name_regex name).
Proof.
  intros H. unfold compile, OBJY_BY_NAME.
  change (T "?)(\s*);") with (T "?)" ++ T "(\s*)" ++ T ";").
  rewrite !steps_app.
  set (st := steps (T "?)") (steps [dq] (steps (T "\bname\b(\s+)(") _))).
  vm_compute in st. subst st.
  rewrite steps_plain by exact H.
  rewrite steps_opt_dq. cbn [push_item fkind falts fcur].
  rewrite steps_ws_star. cbn [push_item fkind falts fcur].
  rewrite steps_semi. cbn [push_item fkind falts fcur].
  rewrite finish_top. cbn [rev]. rewrite rev_app_distr, rev_involutive.
  rewrite <- !app_assoc. cbn [rev app map regex_of_item lit_item].
  rewrite map_app. cbn [seq_of fold_right].
  change (fold_right Cat Eps
            (map regex_of_item (map lit_item name) ++ ?x))
    with (seq_of (map regex_of_item (map lit_item name) ++ x)).
  rewrite seq_of_lits. reflexivity.
Qed.

End NamePattern.

Section NameStatement.

Lemma space_not_word c : is_space c = true -> is_word c = false.
Proof.
  destruct c as [[] [] [] [] [] [] [] []]; intros H;
    first [discriminate H | reflexivity].
Qed.

Lemma Matches_cat_inv r1 r2 l a l2 a2 :
  Matches (Cat r1 r2) l a l2 a2 ->
  exists l1 a1, Matches r1 l a l1 a1 /\ Matches r2 l1 a1 l2 a2.
Proof. intros H. inversion H; subst. eauto. Qed.

Lemma Matches_eps_inv l a l' a' : Matches Eps l a l' a' -> l' = l /\ a' = a.
Proof. intros H. inversion H; subst. split; reflexivity. Qed.

Lemma Matches_one_inv cs l a l' a' :
  Matches (One cs) l a l' a' ->
  exists x, a = x :: a' /\ l' = x :: l /\ cmatch cs x = true.
Proof. intros H. inversion H; subst. eauto. Qed.

Lemma Matches_bnd_inv l a l' a' :
  Matches Bnd l a l' a' -> l' = l /\ a' = a /\ boundary l a = true.
Proof. intros H. inversion H; subst. repeat split. assumption. Qed.

Lemma Matches_lits_inv p r : forall l a l' a',
  Matches (lits p r) l a l' a' ->
  exists a0, a = p ++ a0 /\ Matches r (rev p ++ l) a0 l' a'.
Proof.
  induction p as [|c p IH]; intros l a l' a' H.
  - exists a. split; [reflexivity|exact H].
  - cbn [lits fold_right] in H. fold (lits p r) in H.
    apply Matches_cat_inv in H. destruct H as (l1 & a1 & H1 & H2).
    apply Matches_one_inv in H1. destruct H1 as (x & -> & -> & Hx).
    cbn [cmatch] in Hx. apply ascii_eqb_eq in Hx. subst x.
    destruct (IH _ _ _ _ H2) as (a0 & -> & H3).
    exists a0. split; [reflexivity|].
    cbn [rev]. rewrite <- app_assoc. exact H3.
Qed.

Lemma Matches_lits_intro p r : forall l a0 l' a',
  Matches r (rev p ++ l) a0 l' a' -> Matches (lits p r) l (p ++ a0) l' a'.
Proof.
  induction p as [|c p IH]; intros l a0 l' a' H.
  - exact H.
  - cbn [lits fold_right app]. fold (lits p r).
    apply M_Cat with (l1 := c :: l) (a1 := p ++ a0).
    + constructor. apply ascii_eqb_refl.
    + apply IH. cbn [rev] in H. rewrite <- app_assoc in H. exact H.
Qed.

Lemma Matches_star_inv lz cs l a l' a' :
  Matches (Star lz cs) l a l' a' ->
  exists ws, a = ws ++ a' /\ l' = rev ws ++ l /\ forallb (cmatch cs) ws = true.
Proof.
  intros H. remember (Star lz cs) as r eqn:Er.
  induction H; try discriminate; injection Er as -> ->.
  - exists []. repeat split.
  - destruct (IHMatches eq_refl) as (ws & -> & -> & Hws).
    exists (x :: ws). cbn [rev forallb app]. rewrite <- app_assoc, H, Hws.
    repeat split.
Qed.

Lemma Matches_star_intro lz cs : forall ws l a,
  forallb (cmatch cs) ws = true ->
  Matches (Star lz cs) l (ws ++ a) (rev ws ++ l) a.
Proof.
  induction ws as [|x ws IH]; intros l a H.
  - constructor.
  - cbn [forallb] in H. apply andb_true_iff in H. destruct H as [Hx Hws].
    cbn [app rev]. rewrite <- app_assoc. apply M_StarS; [exact Hx|].
    apply IH. exact Hws.
Qed.

Lemma Matches_ws_plus_inv l a l' a' :
  Matches ws_plus l a l' a' ->
  exists ws, ws <> [] /\ a = ws ++ a' /\ l' = rev ws ++ l
             /\ forallb is_space ws = true.
Proof.
  unfold ws_plus. intros H.
  apply Matches_cat_inv in H. destruct H as (l1 & a1 & H & He).
  apply Matches_eps_inv in He. destruct He as [-> ->].
  apply Matches_cat_inv in H. destruct H as (l2 & a2 & H1 & H2).
  apply Matches_one_inv in H1. destruct H1 as (x & -> & -> & Hx).
  apply Matches_star_inv in H2. destruct H2 as (ws & -> & -> & Hws).
  exists (x :: ws). cbn [rev forallb app]. rewrite <- app_assoc.
  cbn [cmatch] in Hx. rewrite Hx.
  repeat split; [discriminate|exact Hws].
Qed.

Lemma Matches_ws_plus_intro ws l a :
  ws <> [] -> forallb is_space ws = true ->
  Matches ws_plus l (ws ++ a) (rev ws ++ l) a.
Proof.
  intros Hne H. destruct ws as [|x ws]; [congruence|].
  cbn [forallb] in H. apply andb_true_iff in H. destruct H as [Hx Hws].
  unfold ws_plus. cbn [app rev]. rewrite <- app_assoc.
  eapply M_Cat; [|constructor].
  eapply M_Cat; [constructor; exact Hx|].
  apply (Matches_star_intro false CSpace ws). exact Hws.
Qed.

Lemma Matches_ws_star_inv l a l' a' :
  Matches ws_star l a l' a' ->
  exists ws, a = ws ++ a' /\ l' = rev ws ++ l /\ forallb is_space ws = true.
Proof.
  unfold ws_star. intros H.
  apply Matches_cat_inv in H. destruct H as (l1 & a1 & H & He).
  apply Matches_eps_inv in He. destruct He as [-> ->].
  apply Matches_star_inv in H. exact H.
Qed.

Lemma Matches_ws_star_intro ws l a :
  forallb is_space ws = true -> Matches ws_star l (ws ++ a) (rev ws ++ l) a.
Proof.
  intros H. unfold ws_star. eapply M_Cat; [|constructor].
  apply (Matches_star_intro false CSpace ws). exact H.
Qed.

Lemma Matches_opt_dq_inv l a l' a' :
  Matches opt_dq l a l' a' ->
  exists q, opt_quote q /\ a = q ++ a' /\ l' = rev q ++ l.
Proof.
  unfold opt_dq. intros H.
  apply Matches_cat_inv in H. destruct H as (l1 & a1 & H & He).
  apply Matches_eps_inv in He. destruct He as [-> ->].
  inversion H; subst.
  - match goal with Hm : Matches (One _) _ _ _ _ |- _ =>
      apply Matches_one_inv in Hm; destruct Hm as (x & -> & -> & Hx) end.
    cbn [cmatch] in Hx. apply ascii_eqb_eq in Hx. subst x.
    exists [dq]. repeat split. right. reflexivity.
  - match goal with Hm : Matches Eps _ _ _ _ |- _ =>
      apply Matches_eps_inv in Hm; destruct Hm as [-> ->] end.
    exists []. repeat split. left. reflexivity.
Qed.

Lemma Matches_opt_dq_intro q l a :
  opt_quote q -> Matches opt_dq l (q ++ a) (rev q ++ l) a.
Proof.
  intros [->| ->]; unfold opt_dq; (eapply M_Cat; [|constructor]).
  - apply M_AltR. constructor.
  - apply M_AltL. constructor. apply ascii_eqb_refl.
Qed.

(** The name pattern matches at a position exactly when a name statement
    starts there. *)
Lemma Matches_name_iff name l a :
  (exists l' a', Matches (name_regex name) l a l' a') <-> name_stmt name l a.
Proof.
  unfold name_regex, name_stmt. split.
  - intros (l' & a' & H).
    apply Matches_cat_inv in H. destruct H as (k1 & c1 & Hb & H).
    apply Matches_bnd_inv in Hb. destruct Hb as (-> & -> & Hb).
    apply Matches_lits_inv in H. destruct H as (a0 & -> & H).
    apply Matches_cat_inv in H. destruct H as (k2 & c2 & Hb2 & H).
    apply Matches_bnd_inv in Hb2. destruct Hb2 as (-> & -> & Hb2).
    apply Matches_cat_inv in H. destruct H as (k3 & c3 & Hw & H).
    apply Matches_ws_plus_inv in Hw.
    destruct Hw as (ws & Hne & -> & -> & Hws).
    apply Matches_cat_inv in H. destruct H as (k4 & c4 & Hq1 & H).
    apply Matches_opt_dq_inv in Hq1. destruct Hq1 as (q1 & Hq1 & -> & ->).
    apply Matches_lits_inv in H. destruct H as (c5 & -> & H).
    apply Matches_cat_inv in H. destruct H as (k6 & c6 & Hq2 & H).
    apply Matches_opt_dq_inv in Hq2. destruct Hq2 as (q2 & Hq2 & -> & ->).
    apply Matches_cat_inv in H. destruct H as (k7 & c7 & Hw2 & H).
    apply Matches_ws_star_inv in Hw2. destruct Hw2 as (ws2 & -> & -> & Hws2).
    apply Matches_cat_inv in H. destruct H as (k8 & c8 & Hs & He).
    apply Matches_eps_inv in He. destruct He as [-> ->].
    apply Matches_one_inv in Hs. destruct Hs as (x & -> & -> & Hx).
    cbn [cmatch] in Hx. apply ascii_eqb_eq in Hx. subst x.
    split.
    + unfold boundary in Hb. cbn in Hb. destruct (prev_word l); [discriminate|].
      reflexivity.
    + exists ws, q1, q2, ws2. eexists. split; [reflexivity|].
      repeat split; assumption.
  - intros (Hl & ws & q1 & q2 & ws2 & rest & -> & Hne & Hws & Hq1 & Hq2 & Hws2).
    eexists. eexists.
    eapply M_Cat.
    { constructor. unfold boundary. rewrite Hl. reflexivity. }
    apply Matches_lits_intro.
    eapply M_Cat.
    { constructor. unfold boundary. destruct ws as [|x ws]; [congruence|].
      cbn [forallb] in Hws. apply andb_true_iff in Hws.
      cbn. rewrite (space_not_word x (proj1 Hws)). reflexivity. }
    eapply M_Cat; [apply Matches_ws_plus_intro; assumption|].
    eapply M_Cat; [apply Matches_opt_dq_intro; assumption|].
    apply Matches_lits_intro.
    eapply M_Cat; [apply Matches_opt_dq_intro; assumption|].
    eapply M_Cat; [apply Matches_ws_star_intro; assumption|].
    eapply M_Cat; [constructor; apply ascii_eqb_refl|constructor].
Qed.

End NameStatement.

(** ** extractObjectByNameAndType *)
Section ByNameAndType.

Lemma split_lt (a1 a2 b1 b2 : text) :
  a1 ++ a2 = b1 ++ b2 -> length b1 < length a1 ->
  exists m, m <> [] /\ a1 = b1 ++ m /\ b2 = m ++ a2.
Proof.
  revert b1. induction a1 as [|x a1 IH]; intros b1 E Hlt; [cbn in Hlt; lia|].
  destruct b1 as [|y b1].
  - exists (x :: a1). cbn [app] in *. repeat split; [discriminate|congruence].
  - cbn [app length] in *. injection E as <- E.
    destruct (IH b1 E) as (m & Hm & -> & ->); [lia|].
    exists m. repeat split. exact Hm.
Qed.

Lemma search_name_none name doc :
  search (name_regex name) doc 0 = None <-> no_name_stmt name doc.
Proof.
  unfold search, search_from, no_name_stmt. cbn [firstn skipn rev]. split.
  - intros H pre post E Hs.
    pose proof (leftmost_none _ _ _ H pre post E) as Hn.
    rewrite app_nil_r in Hn.
    apply Matches_name_iff in Hs. destruct Hs as (l' & a' & Hm).
    exact (proj1 (match_here_none _ _ _) Hn l' a' Hm).
  - intros H. apply leftmost_none_intro. intros a1 a2 E.
    rewrite app_nil_r. apply match_here_none. intros l' a' Hm.
    apply (H a1 a2 E). apply Matches_name_iff. eauto.
Qed.

Lemma search_name_some name doc sp :
  search (name_regex name) doc 0 = Some sp -> first_name_stmt name doc (fst sp).
Proof.
  unfold search, search_from. cbn [firstn skipn rev]. intros H.
  apply leftmost_some in H. destruct H as (a1 & a2 & -> & Hh & Hn).
  rewrite app_nil_r in Hh. destruct sp as [s e].
  pose proof (match_here_start _ _ _ _ _ Hh) as Hs. rewrite length_rev in Hs.
  exists a1, a2. cbn [fst].
  split; [reflexivity|]. split; [congruence|]. split.
  - apply Matches_name_iff. apply match_here_iff. eauto.
  - intros b1 b2 E Hlt Hstmt. subst s.
    destruct (split_lt a1 a2 b1 b2 E Hlt) as (m & Hm & -> & ->).
    specialize (Hn b1 m eq_refl Hm). rewrite app_nil_r in Hn.
    apply Matches_name_iff in Hstmt. destruct Hstmt as (l' & a' & Hmt).
    exact (proj1 (match_here_none _ _ _) Hn l' a' Hmt).
Qed.

Lemma first_name_stmt_unique name doc e1 e2 :
  first_name_stmt name doc e1 -> first_name_stmt name doc e2 -> e1 = e2.
Proof.
  intros (p1 & q1 & E1 & L1 & S1 & N1) (p2 & q2 & E2 & L2 & S2 & N2).
  destruct (Nat.lt_trichotomy e1 e2) as [H|[H|H]]; [|exact H|].
  - exfalso. apply (N2 p1 q1 E1); [lia|exact S1].
  - exfalso. apply (N1 p2 q2 E2); [lia|exact S2].
Qed.

(** The backward loop always ends with this much fuel, either below zero
    with no match at any offset tried, or at the greatest offset that
    matches. *)
Lemma back_loop_result r doc e : forall fuel sInd,
  (sInd + 1 <= Z.of_nat fuel)%Z ->
  exists z,
    back_loop r doc e fuel sInd (match_at r doc sInd e) = Some z
    /\ ((z < 0 /\ forall s, 0 <= s <= sInd -> match_at r doc s e = None)
        \/ (0 <= z <= sInd /\ match_at r doc z e <> None
            /\ forall s, z < s <= sInd -> match_at r doc s e = None))%Z.
Proof.
  induction fuel as [|fuel IH]; intros sInd Hf.
  - cbn [back_loop]. assert (Hneg : (0 <=? sInd)%Z = false)
      by (apply Z.leb_gt; lia).
    rewrite Hneg, andb_false_r. exists sInd. split; [reflexivity|].
    left. split; [lia|]. intros s Hs. lia.
  - cbn [back_loop].
    destruct (0 <=? sInd)%Z eqn:Hs.
    + apply Z.leb_le in Hs.
      destruct (match_at r doc sInd e) as [m|] eqn:Hm.
      * cbn [is_none andb]. exists sInd. split; [reflexivity|].
        right. rewrite Hm. split; [lia|]. split; [discriminate|].
        intros s Hlt. lia.
      * cbn [is_none andb].
        destruct (IH (sInd - 1)%Z) as (z & Hz & Hcase); [lia|].
        exists z. split; [exact Hz|].
        destruct Hcase as [[Hneg Hall]|(Hr & Hmz & Hall)].
        -- left. split; [exact Hneg|]. intros s Hrange.
           destruct (Z.eq_dec s sInd) as [->|]; [exact Hm|].
           apply Hall. lia.
        -- right. split; [lia|]. split; [exact Hmz|]. intros s Hrange.
           destruct (Z.eq_dec s sInd) as [->|]; [exact Hm|].
           apply Hall. lia.
    + rewrite andb_false_r. exists sInd. split; [reflexivity|].
      apply Z.leb_gt in Hs. left. split; [lia|]. intros s Hrange. lia.
Qed.

End ByNameAndType.

Section ByNameAndTypeClaim.

Lemma first_name_stmt_bound name doc e :
  first_name_stmt name doc e -> e <= length doc.
Proof.
  intros (pre & post & -> & <- & _). rewrite length_app. lia.
Qed.

Lemma first_not_none name doc e :
  first_name_stmt name doc e -> ~ no_name_stmt name doc.
Proof.
  intros (pre & post & E & _ & Hs & _) Hn. exact (Hn pre post E Hs).
Qed.

(** C3, as amended. For a name free of pattern characters,
    [extractObjectByNameAndType] always returns or raises; it resolves
    against the first name statement for that name in the model; it
    raises ObjNotFoundError exactly when there is no such statement or no
    offset from that statement's offset minus [minLength] down to 0 at
    which the type pattern matches; otherwise it returns what
    [extractObject] returns at the greatest such offset, the first one
    met when walking backward. *)
Theorem extractObjectByNameAndType_first_match self name objRegEx minLength :
  plain name = true ->
  (exists out,
      extractObjectByNameAndType self name objRegEx minLength = Some out)
  /\ (extractObjectByNameAndType self name objRegEx minLength
      = Some (Raise (ObjNotFoundError name (pathModelIn self)))
      <-> no_name_stmt name (strModel self)
          \/ exists e, first_name_stmt name (strModel self) e
               /\ forall s, ~ typed_at objRegEx (strModel self) minLength e s)
  /\ (forall e s,
      first_name_stmt name (strModel self) e ->
      typed_at objRegEx (strModel self) minLength e s ->
      (forall s', s < s' ->
         ~ typed_at objRegEx (strModel self) minLength e s') ->
      extractObjectByNameAndType self name objRegEx minLength
      = Some (Ok (extractObject self s))).
Proof.
  intros Hp. unfold extractObjectByNameAndType, extractObjectByNameAndType_fuel.
  rewrite (compile_name_pattern name Hp).
  destruct (search (name_regex name) (strModel self) 0) as [m|] eqn:Hs.
  - pose proof (search_name_some _ _ _ Hs) as Hfirst.
    pose proof (first_name_stmt_bound _ _ _ Hfirst) as Hbound.
    set (e := fst m) in *.
    destruct (back_loop_result objRegEx (strModel self) (Z.of_nat e)
                (S (length (strModel self)))
                (Z.of_nat e - Z.of_nat minLength)%Z)
      as (z & Hz & Hcase); [lia|].
    rewrite Hz.
    destruct Hcase as [[Hneg Hall]|(Hr & Hmz & Hall)].
    + assert (Hlt : (z <? 0)%Z = true) by (apply Z.ltb_lt; exact Hneg).
      rewrite Hlt.
      assert (Hnone : forall s,
                 ~ typed_at objRegEx (strModel self) minLength e s).
      { intros s [Hle Hm]. apply Hm. apply Hall. lia. }
      split; [eauto|]. split.
      * split; [|reflexivity]. intros _. right. exists e.
        split; [exact Hfirst|exact Hnone].
      * intros e' s Hf' Ht _.
        rewrite (first_name_stmt_unique _ _ _ _ Hf' Hfirst) in Ht.
        destruct (Hnone s Ht).
    + assert (Hlt : (z <? 0)%Z = false) by (apply Z.ltb_ge; lia).
      rewrite Hlt.
      assert (Htz : typed_at objRegEx (strModel self) minLength e (Z.to_nat z)).
      { split; [lia|]. rewrite Z2Nat.id by lia. exact Hmz. }
      split; [eauto|]. split.
      * split; [discriminate|].
        intros [Hn|(e' & Hf' & Hn)].
        -- destruct (first_not_none _ _ _ Hfirst Hn).
        -- rewrite (first_name_stmt_unique _ _ _ _ Hf' Hfirst) in Hn.
           destruct (Hn _ Htz).
      * intros e' s Hf' Ht Hmax.
        rewrite (first_name_stmt_unique _ _ _ _ Hf' Hfirst) in Ht, Hmax.
        assert (Es : s = Z.to_nat z).
        { destruct (Nat.lt_trichotomy s (Z.to_nat z)) as [H|[H|H]].
          - destruct (Hmax _ H Htz).
          - exact H.
          - destruct Ht as [Hle Hm]. exfalso. apply Hm. apply Hall. lia. }
        rewrite Es. reflexivity.
  - pose proof (proj1 (search_name_none _ _) Hs) as Hnone.
    split; [eauto|]. split.
    + split; [|reflexivity]. intros _. left. exact Hnone.
    + intros e s Hf _ _. destruct (first_not_none _ _ _ Hf Hnone).
Qed.

(** Two regulators with the same name: the first one is returned. *)
Lemma extractObjectByNameAndType_first_match_witness :
  let self :=
    of_text (T "object regulator { name reg1; tap_A 5; } object regulator { name reg1; tap_A 7; }") in
  plain (T "reg1") = true
  /\ (exists out,
        extractObjectByNameAndType self (T "reg1") REGOBJ_REGEX 16 = Some out)
  /\ extractObjectByNameAndType self (T "reg1") REGOBJ_REGEX 16
     = Some (Ok (ObjDict 0 40 (T "object regulator { name reg1; tap_A 5; }"))).
Proof.
  intros self.
  split; [reflexivity|].
  split; [|vm_compute; reflexivity].
  exact (proj1 (extractObjectByNameAndType_first_match
                  self (T "reg1") REGOBJ_REGEX 16 eq_refl)).
Defined.

(** C3 as stated fails: the name is pasted into the pattern as it is, so
    with the name [r.1] the statement [name rX1;] counts as a match and
    its object is returned although no statement has the value [r.1]. *)
Lemma extractObjectByNameAndType_pattern_name :
  let doc := T "object regulator { name rX1; }" in
  extractObjectByNameAndType (of_text doc) (T "r.1") REGOBJ_REGEX 16
  = Some (Ok (ObjDict 0 30 doc))
  /\ no_name_stmt (T "r.1") doc.
Proof.
  cbv zeta. split; [vm_compute; reflexivity|].
  apply search_name_none. vm_compute. reflexivity.
Qed.

End ByNameAndTypeClaim.

(** ** addGroupToObjects *)
Section AddGroup.

Lemma brace_loop_len : forall cs e d,
  exists k, brace_loop cs e d = e + k /\ k <= length cs
            /\ (cs <> [] -> 1 <= k).
Proof.
  induction cs as [|c cs IH]; intros e d.
  - exists 0. cbn. split; [lia|]. split; [lia|]. intros H. destruct (H eq_refl).
  - cbn [brace_loop]. rewrite brace_step.
    destruct (is_close c && (d + delta c =? 0)%Z).
    + exists 1. cbn [length]. repeat split; lia.
    + destruct (IH (e + 1) (d + delta c)%Z) as (k & -> & Hk & _).
      exists (S k). cbn [length]. repeat split; lia.
Qed.

(** What [extractObject] returns is a prefix of the model from the start
    offset on, not empty unless the model ends there. *)
Lemma extractObject_prefix self pre R1 :
  strModel self = pre ++ R1 ->
  exists obj R',
    R1 = obj ++ R'
    /\ extractObject self (length pre)
       = ObjDict (length pre) (length pre + length obj) obj
    /\ (R1 <> [] -> obj <> []).
Proof.
  intros E. unfold extractObject. rewrite E, skipn_len_app.
  destruct (brace_loop_len R1 (length pre) 0) as (k & -> & Hk & Hpos).
  exists (firstn k R1), (skipn k R1).
  split; [symmetry; apply firstn_skipn|].
  rewrite slice_from, skipn_len_app, length_firstn.
  replace (Nat.min k (length R1)) with k by lia.
  split; [reflexivity|].
  intros Hne Hnil. specialize (Hpos Hne).
  apply (f_equal (@length ascii)) in Hnil.
  rewrite length_firstn in Hnil. cbn in Hnil. lia.
Qed.

Lemma extractObject_text self n :
  extractObject self n = extractObject (of_text (strModel self)) n.
Proof. reflexivity. Qed.

(** A match found from a cursor starts at or after it. *)
Lemma search_split r D R st e :
  search r (D ++ R) (length D) = Some (st, e) ->
  exists gap R1, R = gap ++ R1 /\ st = length (D ++ gap).
Proof.
  unfold search, search_from. rewrite firstn_len_app, skipn_len_app.
  intros H. apply leftmost_some in H.
  destruct H as (a1 & a2 & -> & Hh & _).
  apply match_here_start in Hh. exists a1, a2. split; [reflexivity|].
  rewrite Hh, !length_app, !length_rev. lia.
Qed.

Lemma modObjProps_groupid_empty g :
  modObjProps [] [(T "groupid", g)] = Raise IndexError.
Proof. reflexivity. Qed.

Lemma extractProperties_name_empty :
  extractProperties [] [T "name"] = Raise (PropNotInObjError [] (T "name")).
Proof. reflexivity. Qed.

Lemma replaceObject_splice self pre obj R' new :
  strModel self = pre ++ obj ++ R' ->
  strModel (replaceObject self
              (ObjDict (length pre) (length pre + length obj) new))
  = pre ++ new ++ R'.
Proof.
  intros E. unfold replaceObject, set_strModel. cbn [strModel o_start o_end o_obj].
  rewrite E, firstn_len_app, skipn_two. reflexivity.
Qed.

Lemma Run_stop_raise r g D R e self :
  strModel self = D ++ R -> Run r g D R [] (strModel self) (Raise e).
Proof. intros ->. apply Run_stop. discriminate. Qed.

(** One more visit in front of a run. *)
Lemma Run_step r g D gap obj R' e v visits final res self :
  strModel self = (D ++ gap) ++ obj ++ R' ->
  search r (D ++ gap ++ obj ++ R') (length D) = Some (length (D ++ gap), e) ->
  extractObject self (length (D ++ gap))
  = ObjDict (length (D ++ gap)) (length (D ++ gap) + length obj) obj ->
  v_start v = length (D ++ gap) -> v_obj v = obj ->
  (forall new, v_new v = Some new ->
               modObjProps obj [(T "groupid", g)] = Ok new) ->
  Run r g ((D ++ gap) ++ written v) R' visits final res ->
  Run r g D (gap ++ obj ++ R') (v :: visits) final res.
Proof.
  intros E Hs Hex Hv1 Hv2 Hv3 Hrun.
  apply Run_visit with (e := e); try assumption.
  - rewrite extractObject_text, E, <- app_assoc in Hex. exact Hex.
  - rewrite <- app_assoc in Hrun. exact Hrun.
Qed.

Lemma addGroup_loop_run r g : forall fuel self nlc log D R,
  strModel self = D ++ R -> length R < fuel ->
  exists res self' visits,
    addGroup_loop fuel r g self nlc (search r (D ++ R) (length D)) log
    = Some (res, self', log ++ visits)
    /\ Run r g D R visits (strModel self') res
    /\ (nlc = None -> Forall (fun v => v_new v <> None) visits).
Proof.
  induction fuel as [|fuel IH]; intros self nlc log D R E Hfuel; [lia|].
  destruct (search r (D ++ R) (length D)) as [[st e]|] eqn:Hs.
  2:{ exists (Ok tt), self, []. rewrite app_nil_r, E.
      split; [reflexivity|]. split; [|constructor].
      apply Run_stop. intros _. exact Hs. }
  destruct (search_split _ _ _ _ _ Hs) as (gap & R1 & -> & ->).
  rewrite app_assoc in E.
  destruct (extractObject_prefix self (D ++ gap) R1 E)
    as (obj & R' & -> & Hex & Hne).
  cbn [addGroup_loop fst]. rewrite Hex. cbn [o_obj o_start o_end].
  (* the turn that modifies the object *)
  assert (Hmodify : forall nlc',
    exists res self' visits,
      match modObjProps obj [(T "groupid", g)] with
      | Ok new =>
          addGroup_loop fuel r g
            (replaceObject self
               (ObjDict (length (D ++ gap))
                  (length (D ++ gap) + length obj) new)) nlc'
            (search r
               (strModel
                  (replaceObject self
                     (ObjDict (length (D ++ gap))
                        (length (D ++ gap) + length obj) new)))
               (length (D ++ gap) + length new))
            (log ++ [Visit (length (D ++ gap)) obj (Some new)])
      | Raise e0 => Some (Raise e0, self, log)
      end = Some (res, self', log ++ visits)
      /\ Run r g D (gap ++ obj ++ R') visits (strModel self') res
      /\ (nlc' = None -> Forall (fun v => v_new v <> None) visits)).
  { intros nlc'.
    destruct (modObjProps obj [(T "groupid", g)]) as [new|e0] eqn:Hm.
    - assert (Hobj : obj <> []).
      { intros ->. rewrite modObjProps_groupid_empty in Hm. discriminate. }
      rewrite (replaceObject_splice self (D ++ gap) obj R' new E).
      rewrite (app_assoc (D ++ gap) new R'), <- (length_app (D ++ gap) new).
      destruct (IH (replaceObject self
                      (ObjDict (length (D ++ gap))
                         (length (D ++ gap) + length obj) new))
                  nlc' (log ++ [Visit (length (D ++ gap)) obj (Some new)])
                  ((D ++ gap) ++ new) R')
        as (res & self' & visits & Hloop & Hrun & Hall).
      { rewrite (replaceObject_splice self (D ++ gap) obj R' new E).
        apply app_assoc. }
      { rewrite !length_app in Hfuel. destruct obj; [congruence|].
        cbn [length] in Hfuel. lia. }
      exists res, self', (Visit (length (D ++ gap)) obj (Some new) :: visits).
      rewrite Hloop, <- app_assoc. split; [reflexivity|]. split.
      + apply (Run_step r g D gap obj R' e _ visits _ res self E);
          try reflexivity; try assumption.
        intros new' Hn. cbn [v_new] in Hn. congruence.
      + intros Hnone. constructor; [discriminate|]. exact (Hall Hnone).
    - exists (Raise e0), self, []. rewrite app_nil_r.
      split; [reflexivity|]. split; [|constructor].
      apply Run_stop_raise. rewrite E, <- app_assoc. reflexivity. }
  destruct nlc as [names|].
  2:{ destruct (Hmodify None) as (res & self' & visits & H1 & H2 & H3).
      exists res, self', visits. split; [exact H1|]. split; [exact H2|].
      intros _. exact (H3 eq_refl). }
  destruct (extractProperties obj [T "name"]) as [n|e0] eqn:Hn.
  2:{ exists (Raise e0), self, []. rewrite app_nil_r.
      split; [reflexivity|]. split; [|discriminate].
      apply Run_stop_raise. rewrite E, <- app_assoc. reflexivity. }
  destruct (dict_get n (T "name")) as [pv|].
  2:{ exists (Raise KeyError), self, []. rewrite app_nil_r.
      split; [reflexivity|]. split; [|discriminate].
      apply Run_stop_raise. rewrite E, <- app_assoc. reflexivity. }
  destruct (list_remove (p_prop pv) names) as [names'|].
  { destruct (Hmodify (Some names')) as (res & self' & visits & H1 & H2 & _).
    exists res, self', visits. split; [exact H1|]. split; [exact H2|].
    discriminate. }
  (* the turn that skips the object *)
  assert (Hobj : obj <> []).
  { intros ->. rewrite extractProperties_name_empty in Hn. discriminate. }
  rewrite E, (app_assoc (D ++ gap) obj R'), <- (length_app (D ++ gap) obj).
  destruct (IH self (Some names)
              (log ++ [Visit (length (D ++ gap)) obj None])
              ((D ++ gap) ++ obj) R')
    as (res & self' & visits & Hloop & Hrun & _).
  { rewrite E. apply app_assoc. }
  { rewrite !length_app in Hfuel. destruct obj; [congruence|].
    cbn [length] in Hfuel. lia. }
  exists res, self', (Visit (length (D ++ gap)) obj None :: visits).
  rewrite Hloop, <- app_assoc. split; [reflexivity|]. split; [|discriminate].
  apply (Run_step r g D gap obj R' e _ visits _ res self E);
    try reflexivity; try assumption.
  intros new' Hn'. discriminate.
Qed.

End AddGroup.

Section AddGroupClaim.

Lemma Run_weave r g D R visits final res :
  Run r g D R visits final res ->
  exists gaps tail,
    length gaps = length visits
    /\ R = weave gaps (map v_obj visits) ++ tail
    /\ final = D ++ weave gaps (map written visits) ++ tail.
Proof.
  induction 1 as [D R res _|D gap obj R' v e visits final res _ _ _ Hobj _ _ IH].
  - exists [], R. repeat split.
  - destruct IH as (gaps & tail & Hlen & -> & ->).
    exists (gap :: gaps), tail. cbn [length map weave]. rewrite Hlen, Hobj.
    split; [reflexivity|]. rewrite <- !app_assoc. split; reflexivity.
Qed.

(** C8, as amended. [addGroupToObjects] always ends. Its visits form a run from the
    start of the model: each visit is the leftmost match at or after the
    cursor, the object it extracts is a piece of the text that was in the
    model when the method was called, the cursor then moves to the match
    start plus the length of the new object text (or of the untouched
    text when the name filter skips the object), and when the method ends
    normally no match is left after the cursor. So the original model is
    gaps and visited objects in alternation followed by a tail, the final
    model is the same with every visited object replaced by what was
    written for it, and nothing written is ever visited. Without a name
    filter every visited object is rewritten by [modObjProps] with the
    group id. On a model with three houses the three are visited once
    each and each receives the group id; a group id that itself reads
    [object house] does not add a visit. *)
Theorem addGroupToObjects_visits_once :
  (forall self objectRegex groupName nameList,
      exists res self' log,
        addGroupToObjects_log self objectRegex groupName nameList
        = Some (res, self', log)
        /\ addGroupToObjects self objectRegex groupName nameList
           = Some (res, self')
        /\ Run objectRegex groupName [] (strModel self) log (strModel self') res
        /\ (exists gaps tail,
              length gaps = length log
              /\ strModel self = weave gaps (map v_obj log) ++ tail
              /\ strModel self' = weave gaps (map written log) ++ tail)
        /\ (nameList = None -> Forall (fun v => v_new v <> None) log))
  /\ (let h1 := T "object house { name h1; }" in
      let h2 := T "object house { name h2; }" in
      let h3 := T "object house { name h3; }" in
      let tag := T "  groupid grp;" ++ [lf] ++ T "}" in
      let h1' := T "object house { name h1; " ++ tag in
      let h2' := T "object house { name h2; " ++ tag in
      let h3' := T "object house { name h3; " ++ tag in
      addGroupToObjects_log (of_text (h1 ++ [lf] ++ h2 ++ [lf] ++ h3 ++ [lf]))
        HOUSE_REGEX (T "grp") None
      = Some (Ok tt,
              of_text (h1' ++ [lf] ++ h2' ++ [lf] ++ h3' ++ [lf]),
              [Visit 0 h1 (Some h1'); Visit 41 h2 (Some h2');
               Visit 82 h3 (Some h3')]))
  /\ (let h := T "object house { name h1; }" in
      let h' := T "object house { name h1;   groupid object house;"
                  ++ [lf] ++ T "}" in
      addGroupToObjects_log (of_text h) HOUSE_REGEX (T "object house") None
      = Some (Ok tt, of_text h', [Visit 0 h (Some h')])
      /\ search HOUSE_REGEX h' 1 = Some (34, 46)).
Proof.
  split; [|split; [|split]]; [|vm_compute; reflexivity..].
  intros self r g nl. unfold addGroupToObjects, addGroupToObjects_log.
  destruct (addGroup_loop_run r g (S (length (strModel self))) self nl []
              [] (strModel self) eq_refl (Nat.lt_succ_diag_r _))
    as (res & self' & log & Hloop & Hrun & Hall).
  cbn [app length] in Hloop.
  exists res, self', log. rewrite Hloop.
  split; [reflexivity|]. split; [reflexivity|]. split; [exact Hrun|].
  split; [|exact Hall].
  destruct (Run_weave _ _ _ _ _ _ _ Hrun) as (gaps & tail & H1 & H2 & H3).
  exists gaps, tail. repeat split; assumption.
Qed.

(** C8 as stated fails: a model can hold three matching objects and end
    with only two of them rewritten. A house nested in a house is passed
    over together with the outer one, because the cursor moves past the
    whole outer object. *)
Lemma addGroupToObjects_nested_passed_over :
  let doc :=
    T "object house { name a; object house { name b; } } object house { name c; }" in
  let a' := T "object house { name a; object house { name b; }   groupid grp;"
              ++ [lf] ++ T "}" in
  let c' := T "object house { name c;   groupid grp;" ++ [lf] ++ T "}" in
  search HOUSE_REGEX doc 0 = Some (0, 12)
  /\ search HOUSE_REGEX doc 1 = Some (23, 35)
  /\ search HOUSE_REGEX doc 24 = Some (50, 62)
  /\ search HOUSE_REGEX doc 51 = None
  /\ addGroupToObjects_log (of_text doc) HOUSE_REGEX (T "grp") None
     = Some (Ok tt, of_text (a' ++ T " " ++ c'),
             [Visit 0 (T "object house { name a; object house { name b; } }")
                (Some a');
              Visit 65 (T "object house { name c; }") (Some c')]).
Proof. repeat split; vm_compute; reflexivity. Qed.

End AddGroupClaim.

(** ** Left contexts *)
Section Contexts.

Lemma same_word_ctx_nonword l l' :
  prev_word l = false -> prev_word l' = false -> same_word_ctx l l'.
Proof. intros H H'. exists [], l, l'. repeat split; assumption. Qed.

Lemma same_word_ctx_cons c l l' :
  same_word_ctx l l' -> same_word_ctx (c :: l) (c :: l').
Proof.
  intros (w & t & t' & -> & -> & Hw & Ht & Ht').
  destruct (is_word c) eqn:Hc.
  - exists (c :: w), t, t'. cbn [forallb app]. rewrite Hc, Hw.
    repeat split; assumption.
  - apply same_word_ctx_nonword; cbn; exact Hc.
Qed.

Lemma same_word_ctx_app x : forall l l',
  same_word_ctx l l' -> same_word_ctx (rev x ++ l) (rev x ++ l').
Proof.
  induction x as [|c x IH]; intros l l' H; [exact H|].
  cbn [rev]. rewrite <- !app_assoc. apply IH.
  apply same_word_ctx_cons. exact H.
Qed.

Lemma same_word_ctx_sym l l' : same_word_ctx l l' -> same_word_ctx l' l.
Proof.
  intros (w & t & t' & -> & -> & Hw & Ht & Ht').
  exists w, t', t. repeat split; assumption.
Qed.

Lemma prev_word_ctx l l' : same_word_ctx l l' -> prev_word l = prev_word l'.
Proof.
  intros (w & t & t' & -> & -> & Hw & Ht & Ht').
  destruct w as [|c w]; [cbn; congruence|reflexivity].
Qed.

Lemma starts_with_word_run x : forall w t,
  forallb is_word x = true -> forallb is_word w = true ->
  prev_word t = false ->
  starts_with x (w ++ t) = true ->
  exists w2, w = x ++ w2.
Proof.
  induction x as [|c x IH]; intros w t Hx Hw Ht H.
  - exists w. reflexivity.
  - cbn [forallb] in Hx. apply andb_true_iff in Hx. destruct Hx as [Hc Hx].
    destruct w as [|d w].
    + cbn [app] in H. destruct t as [|d t]; [discriminate|].
      cbn in H. apply andb_true_iff in H. destruct H as [Hcd _].
      apply ascii_eqb_eq in Hcd. subst d. cbn in Ht. congruence.
    + cbn in H. apply andb_true_iff in H. destruct H as [Hcd H].
      apply ascii_eqb_eq in Hcd. subst d.
      cbn [forallb] in Hw. apply andb_true_iff in Hw.
      destruct (IH w t Hx (proj2 Hw) Ht H) as [w2 ->].
      exists w2. reflexivity.
Qed.

(** Reversal does not change whether every element passes a test. *)
Lemma forallb_rev {A} (f : A -> bool) (l : list A) :
  forallb f (rev l) = forallb f l.
Proof.
  induction l as [|x l IH]; [reflexivity|].
  cbn [rev forallb]. rewrite forallb_app, IH. cbn [forallb].
  rewrite andb_true_r. apply andb_comm.
Qed.

(** The look-behind for a word sees no further left than the first
    non-word character. *)
Lemma key_before_ctx k l l' a :
  word k = true -> same_word_ctx l l' ->
  key_before k l a = key_before k l' a.
Proof.
  intros Hk Hctx.
  assert (Himp : forall l l', same_word_ctx l l' ->
            key_before k l a = true -> key_before k l' a = true).
  { clear l l' Hctx. intros l l' (w & t & t' & -> & -> & Hw & Ht & Ht') H.
    destruct (key_before_inv _ _ _ H) as (l0 & E & _ & _).
    assert (Hs : starts_with (rev k) (w ++ t) = true).
    { rewrite E. apply starts_with_app. }
    assert (Hrk : forallb is_word (rev k) = true).
    { rewrite forallb_rev. apply word_all. exact Hk. }
    destruct (starts_with_word_run _ _ _ Hrk Hw Ht Hs) as [w2 ->].
    rewrite <- app_assoc in E. apply app_inv_head in E. subst l0.
    rewrite <- !app_assoc in *.
    rewrite (key_before_word k _ a Hk) in H.
    rewrite (key_before_word k _ a Hk).
    destruct w2 as [|c w2]; [|exact H].
    cbn [app] in *. rewrite Ht'. rewrite Ht in H. exact H. }
  destruct (key_before k l a) eqn:E1.
  - symmetry. apply (Himp l l'); assumption.
  - destruct (key_before k l' a) eqn:E2; [|reflexivity].
    rewrite (Himp l' l (same_word_ctx_sym _ _ Hctx) E2) in E1. discriminate.
Qed.

Lemma key_free_ctx k : forall x l l',
  word k = true -> same_word_ctx l l' -> key_free k l x = key_free k l' x.
Proof.
  induction x as [|c x IH]; intros l l' Hk Hctx; [reflexivity|].
  cbn [key_free]. rewrite (key_before_ctx k l l' _ Hk Hctx).
  f_equal. apply IH; [exact Hk|]. apply same_word_ctx_cons. exact Hctx.
Qed.

End Contexts.

(** ** Tidy texts *)
Section Tidy.

Variable K : list text.
Hypothesis K_words : forallb word K = true.

Lemma forallb_ext_in {A} (f g : A -> bool) l :
  (forall x, In x l -> f x = g x) -> forallb f l = forallb g l.
Proof.
  induction l as [|a l IH]; intros H; [reflexivity|].
  cbn [forallb]. rewrite (H a (or_introl eq_refl)), IH; [reflexivity|].
  intros x Hx. apply H. right. exact Hx.
Qed.

Lemma existsb_ext_in {A} (f g : A -> bool) l :
  (forall x, In x l -> f x = g x) -> existsb f l = existsb g l.
Proof.
  induction l as [|a l IH]; intros H; [reflexivity|].
  cbn [existsb]. rewrite (H a (or_introl eq_refl)), IH; [reflexivity|].
  intros x Hx. apply H. right. exact Hx.
Qed.

Lemma forallb_andb {A} (f g : A -> bool) l :
  forallb (fun x => f x && g x) l = forallb f l && forallb g l.
Proof.
  induction l as [|a l IH]; [reflexivity|].
  cbn [forallb]. rewrite IH.
  destruct (f a), (g a), (forallb f l), (forallb g l); reflexivity.
Qed.

Lemma K_word q : In q K -> word q = true.
Proof. intros H. rewrite forallb_forall in K_words. exact (K_words q H). Qed.

Lemma quiet_ctx x l l' : same_word_ctx l l' -> quiet K l x = quiet K l' x.
Proof.
  intros H. unfold quiet. apply forallb_ext_in. intros q Hq.
  apply key_free_ctx; [apply K_word; exact Hq|exact H].
Qed.

Lemma key_here_ctx l l' a :
  same_word_ctx l l' -> key_here K l a = key_here K l' a.
Proof.
  intros H. unfold key_here. apply existsb_ext_in. intros q Hq.
  apply key_before_ctx; [apply K_word; exact Hq|exact H].
Qed.

Lemma key_here_next l a a' :
  next_word a = next_word a' -> key_here K l a = key_here K l a'.
Proof.
  intros H. unfold key_here. apply existsb_ext_in. intros q _.
  apply key_before_next. exact H.
Qed.

Lemma key_here_cons l c a a' :
  key_here K l (c :: a) = key_here K l (c :: a').
Proof. apply key_here_next. reflexivity. Qed.

Lemma stmt_at_ctx l l' a :
  same_word_ctx l l' -> stmt_at K l a = stmt_at K l' a.
Proof.
  intros H. unfold stmt_at. destruct a as [|c a]; [reflexivity|].
  destruct (value_len (c :: a)); [|reflexivity].
  apply quiet_ctx. apply same_word_ctx_cons. exact H.
Qed.

Lemma tidy_in_ctx y : forall x l l',
  same_word_ctx l l' -> tidy_in K l x y = tidy_in K l' x y.
Proof.
  induction x as [|c x IH]; intros l l' H; [reflexivity|].
  cbn [tidy_in]. rewrite (key_here_ctx l l' _ H), (stmt_at_ctx l l' _ H).
  f_equal. apply IH. apply same_word_ctx_cons. exact H.
Qed.

Lemma tidy_ctx a l l' : same_word_ctx l l' -> tidy K l a = tidy K l' a.
Proof.
  intros H. unfold tidy. rewrite (tidy_in_ctx [] a l l' H).
  rewrite (key_here_ctx (rev a ++ l) (rev a ++ l') []);
    [reflexivity|apply same_word_ctx_app; exact H].
Qed.

Lemma quiet_app x y l :
  quiet K l (x ++ y) = quiet K l x && quiet K (rev x ++ l) y.
Proof.
  unfold quiet. rewrite <- forallb_andb. apply forallb_ext_in.
  intros q _. apply key_free_app.
Qed.

Lemma quiet_cons c x l :
  quiet K l (c :: x) = negb (key_here K l (c :: x)) && quiet K (c :: l) x.
Proof.
  unfold quiet, key_here. cbn [key_free]. rewrite forallb_andb. f_equal.
  generalize K as L. induction L as [|q L IH]; [reflexivity|].
  cbn [forallb existsb]. rewrite IH.
  destruct (key_before q l (c :: x)); reflexivity.
Qed.

Lemma tidy_in_app z : forall x y l,
  tidy_in K l (x ++ y) z
  = tidy_in K l x (y ++ z) && tidy_in K (rev x ++ l) y z.
Proof.
  induction x as [|c x IH]; intros y l; [reflexivity|].
  cbn [app tidy_in rev]. rewrite IH, <- !app_assoc. cbn [app].
  rewrite andb_assoc. reflexivity.
Qed.

Lemma tidy_app x y l :
  tidy K l (x ++ y) = tidy_in K l x y && tidy K (rev x ++ l) y.
Proof.
  unfold tidy. rewrite tidy_in_app, app_nil_r, rev_app_distr, <- app_assoc.
  rewrite andb_assoc. reflexivity.
Qed.

(** A stretch without any of the names is tidy whatever follows. *)
Lemma quiet_tidy_in y : forall x l, quiet K l x = true -> tidy_in K l x y = true.
Proof.
  induction x as [|c x IH]; intros l H; [reflexivity|].
  rewrite quiet_cons in H. apply andb_true_iff in H. destruct H as [Hk Hq].
  apply negb_true_iff in Hk. cbn [tidy_in app].
  rewrite (key_here_cons l c (x ++ y) x), Hk. cbn [implb andb].
  apply IH. exact Hq.
Qed.

End Tidy.

(** ** Statements and what follows them *)
Section StatementLocality.

Lemma scan_semi_app x y n : scan_semi x = Some n -> scan_semi (x ++ y) = Some n.
Proof.
  revert n. induction x as [|c x IH]; intros n H; [discriminate|].
  cbn [scan_semi app] in *. destruct (ascii_eqb c ";"); [exact H|].
  destruct (ascii_eqb c lf); [discriminate|].
  destruct (scan_semi x) as [m|]; [|discriminate].
  rewrite (IH m eq_refl). exact H.
Qed.

Lemma value_rest_app x y n :
  value_rest x = Some n -> value_rest (x ++ y) = Some n.
Proof.
  revert n. induction x as [|c x IH]; intros n H; [discriminate|].
  cbn [value_rest app] in *. destruct (is_space c).
  - destruct (value_rest x) as [m|]; [|discriminate].
    rewrite (IH m eq_refl). exact H.
  - apply (scan_semi_app (c :: x) y n H).
Qed.

Lemma value_len_app x y n : value_len x = Some n -> value_len (x ++ y) = Some n.
Proof.
  destruct x as [|c x]; [discriminate|]. cbn [value_len app].
  destruct (is_space c); [|discriminate].
  destruct (value_rest x) as [m|] eqn:E; [|discriminate].
  rewrite (value_rest_app x y m E). exact (fun H => H).
Qed.

Lemma value_len_semi a n : value_len a = Some n -> nth_error a n = Some ";"%char.
Proof.
  intros H. destruct (value_len_shape _ _ H) as (ws & body & rest & -> & -> & _).
  rewrite app_assoc, <- length_app. apply nth_error_len_app.
Qed.

Lemma value_len_firstn a n :
  value_len a = Some n -> value_len (firstn (S n) a) = Some n.
Proof.
  intros H. destruct (value_len_shape _ _ H)
    as (ws & body & rest & -> & -> & Hne & Hws & Hb).
  replace (ws ++ body ++ ";"%char :: rest)
    with ((ws ++ body ++ [";"%char]) ++ rest)
    by (rewrite <- !app_assoc; reflexivity).
  replace (S (length ws + length body))
    with (length (ws ++ body ++ [";"%char]))
    by (rewrite !length_app; cbn [length]; lia).
  rewrite firstn_len_app.
  replace (ws ++ body ++ ";"%char :: rest)
    with ((ws ++ body ++ [";"%char]) ++ rest) in H
    by (rewrite <- !app_assoc; reflexivity).
  destruct (value_len (ws ++ body ++ [";"%char])) as [m|] eqn:E.
  - rewrite (value_len_app _ rest m E) in H. exact H.
  - exfalso. destruct ws as [|x ws]; [congruence|].
    cbn [forallb] in Hws. apply andb_true_iff in Hws. destruct Hws as [Hx Hws].
    cbn [app value_len] in E. rewrite Hx in E.
    assert (Hr : exists m, value_rest (ws ++ body ++ [";"%char]) = Some m).
    { clear -Hws Hb. induction ws as [|y ws IH].
      - exists (length body). exact (value_rest_intro body [] Hb).
      - cbn [forallb] in Hws. apply andb_true_iff in Hws.
        destruct (IH (proj2 Hws)) as [m Hm].
        cbn [app value_rest]. rewrite (proj1 Hws), Hm.
        exists (S m). reflexivity. }
    destruct Hr as [m Hm]. rewrite Hm in E. discriminate.
Qed.

(** The value part reads no further than its semicolon. *)
Lemma value_len_agree a a' n :
  value_len a = Some n -> firstn (S n) a = firstn (S n) a' ->
  value_len a' = Some n.
Proof.
  intros H E. apply value_len_firstn in H. rewrite E in H.
  rewrite <- (firstn_skipn (S n) a'). apply value_len_app. exact H.
Qed.

Lemma stmt_at_agree K l a a' n :
  value_len a = Some n -> firstn (S n) a = firstn (S n) a' ->
  stmt_at K l a = stmt_at K l a'.
Proof.
  intros H E. pose proof (value_len_agree a a' n H E) as H'.
  unfold stmt_at.
  destruct a as [|c a]; [discriminate|].
  destruct a' as [|c' a']; [discriminate|].
  rewrite H, H'.
  cbn [firstn] in E. injection E as <- E. rewrite E. reflexivity.
Qed.

Lemma stmt_at_value K l a :
  stmt_at K l a = true -> exists n, value_len a = Some n.
Proof.
  unfold stmt_at. destruct a; [discriminate|].
  destruct (value_len (a :: a0)); [eauto|discriminate].
Qed.

Lemma firstn_app_short (x y y' : text) n :
  n <= length x -> firstn n (x ++ y) = firstn n (x ++ y').
Proof.
  intros H. rewrite !firstn_app.
  replace (n - length x) with 0 by lia. reflexivity.
Qed.

(** Changing the text after [x] keeps [x] tidy when every statement
    starting in [x] ends in [x]. *)
Lemma tidy_in_transfer K y y' : forall x l,
  tidy_in K l x y = true ->
  (forall b1 b2 n, x = b1 ++ b2 -> b2 <> [] ->
     key_here K (rev b1 ++ l) (b2 ++ y) = true ->
     value_len (b2 ++ y) = Some n -> n < length b2) ->
  tidy_in K l x y' = true.
Proof.
  induction x as [|c x IH]; intros l H Hin; [reflexivity|].
  cbn [tidy_in] in *. apply andb_true_iff in H. destruct H as [H0 Hrest].
  apply andb_true_iff. split.
  - cbn [app] in *. rewrite (key_here_cons K l c (x ++ y') (x ++ y)).
    destruct (key_here K l (c :: x ++ y)) eqn:Hk; [|reflexivity].
    cbn [implb] in *.
    destruct (stmt_at_value _ _ _ H0) as [n Hn].
    pose proof (Hin [] (c :: x) n eq_refl ltac:(discriminate) Hk Hn) as Hlt.
    rewrite <- (stmt_at_agree K l (c :: x ++ y) (c :: x ++ y') n Hn);
      [exact H0|].
    apply (firstn_app_short (c :: x) y y'). exact Hlt.
  - apply IH; [exact Hrest|].
    intros b1 b2 n E Hb Hk Hn. apply (Hin (c :: b1) b2 n); try assumption.
    + rewrite E. reflexivity.
    + cbn [rev]. rewrite <- app_assoc. exact Hk.
Qed.

Lemma tidy_in_split K y : forall x l b1 b2,
  tidy_in K l x y = true -> x = b1 ++ b2 -> b2 <> [] ->
  key_here K (rev b1 ++ l) (b2 ++ y) = true ->
  stmt_at K (rev b1 ++ l) (b2 ++ y) = true.
Proof.
  intros x l b1 b2 H -> Hb Hk. rewrite tidy_in_app in H.
  apply andb_true_iff in H. destruct H as [_ H].
  destruct b2 as [|c b2]; [congruence|].
  cbn [tidy_in] in H. apply andb_true_iff in H. destruct H as [H _].
  rewrite Hk in H. exact H.
Qed.

End StatementLocality.

Section StatementEnds.

Variable K : list text.
Hypothesis K_words : forallb word K = true.

(** A statement that starts before a place where a name ends has its
    semicolon before that place. *)
Lemma tidy_in_ends_before l x y :
  tidy_in K l x y = true -> key_here K (rev x ++ l) y = true ->
  forall b1 b2 n, x = b1 ++ b2 -> b2 <> [] ->
    key_here K (rev b1 ++ l) (b2 ++ y) = true ->
    value_len (b2 ++ y) = Some n -> n < length b2.
Proof.
  intros Ht Hend b1 b2 n E Hb Hk Hn.
  pose proof (tidy_in_split K y x l b1 b2 Ht E Hb Hk) as Hs.
  destruct (Nat.lt_ge_cases n (length b2)) as [Hlt|Hge]; [exact Hlt|exfalso].
  pose proof (value_len_bound _ _ Hn) as Hbound. rewrite length_app in Hbound.
  destruct b2 as [|c b2]; [congruence|].
  destruct y as [|d y]; [cbn [length] in *; lia|].
  unfold stmt_at in Hs. cbn [app] in Hs, Hn. rewrite Hn in Hs.
  cbn [length] in Hge.
  rewrite firstn_app in Hs.
  rewrite firstn_all2 in Hs by lia.
  destruct (n - length b2) as [|m] eqn:Em; [lia|].
  cbn [firstn] in Hs. rewrite quiet_app in Hs.
  apply andb_true_iff in Hs. destruct Hs as [_ Hs].
  rewrite quiet_cons in Hs. apply andb_true_iff in Hs. destruct Hs as [Hs _].
  apply negb_true_iff in Hs.
  subst x. rewrite rev_app_distr in Hend. cbn [rev] in Hend.
  rewrite <- !app_assoc in Hend. cbn [app] in Hend.
  rewrite (key_here_cons K _ d y (firstn m y)) in Hend. congruence.
Qed.

Lemma ends_before_nosemi (b2 y : text) n :
  forallb (fun c => negb (ascii_eqb c ";")) y = true ->
  value_len (b2 ++ y) = Some n -> n < length b2.
Proof.
  intros Hy Hn. apply value_len_semi in Hn.
  destruct (Nat.lt_ge_cases n (length b2)) as [Hlt|Hge]; [exact Hlt|exfalso].
  rewrite nth_error_app2 in Hn by exact Hge.
  apply nth_error_In in Hn. rewrite forallb_forall in Hy.
  specialize (Hy _ Hn). discriminate.
Qed.

Lemma key_free_or_first k : forall a l,
  key_free k l a = true
  \/ exists a1 a2,
       a = a1 ++ a2 /\ a2 <> [] /\ key_free k l a1 = true
       /\ key_before k (rev a1 ++ l) a2 = true.
Proof.
  induction a as [|c a IH]; intros l; [left; reflexivity|].
  destruct (key_before k l (c :: a)) eqn:E.
  - right. exists [], (c :: a). repeat split; [discriminate|exact E].
  - destruct (IH (c :: l)) as [H|(a1 & a2 & -> & Hne & Hf & Hb)].
    + left. cbn [key_free]. rewrite E, H. reflexivity.
    + right. exists (c :: a1), a2. cbn [rev key_free app].
      rewrite <- app_assoc. cbn [app].
      split; [reflexivity|]. split; [exact Hne|].
      rewrite (key_before_cons k l c a1 (a1 ++ a2)), E, Hf.
      split; [reflexivity|exact Hb].
Qed.

Lemma key_here_in k l a : In k K -> key_before k l a = true -> key_here K l a = true.
Proof.
  intros Hin H. unfold key_here. apply existsb_exists. exists k.
  split; assumption.
Qed.

(** Only one word can end at a given position. *)
Lemma key_before_same k k0 l a a0 :
  word k = true -> word k0 = true ->
  key_before k l a = true -> key_before k0 l a0 = true -> k = k0.
Proof.
  intros Hk Hk0 H H0.
  destruct (key_before_inv _ _ _ H) as (l1 & E1 & _).
  destruct (key_before_inv _ _ _ H0) as (l2 & E2 & _).
  subst l. rewrite (key_before_word k l1 a Hk) in H.
  rewrite E2 in H0. rewrite (key_before_word k0 l2 a0 Hk0) in H0.
  apply andb_true_iff in H, H0.
  destruct H as [H _]. destruct H0 as [H0 _].
  apply negb_true_iff in H, H0.
  assert (Hr : rev k = rev k0).
  { destruct (app_eq_app _ _ _ _ E2) as [w [[Ew El]|[Ew El]]].
    - destruct w as [|c w]; [rewrite app_nil_r in Ew; exact Ew|].
      subst l2. exfalso.
      assert (Hc : is_word c = true).
      { assert (Hw' : forallb is_word (rev k) = true)
          by (rewrite forallb_rev; exact (word_all k Hk)).
        rewrite Ew, forallb_app in Hw'. apply andb_true_iff in Hw'.
        destruct Hw' as [_ Hw']. cbn in Hw'. apply andb_true_iff in Hw'.
        apply Hw'. }
      cbn in H0. congruence.
    - destruct w as [|c w]; [rewrite app_nil_r in Ew; symmetry; exact Ew|].
      subst l1. exfalso.
      assert (Hw' : forallb is_word (rev k0) = true)
        by (rewrite forallb_rev; exact (word_all k0 Hk0)).
      rewrite Ew, forallb_app in Hw'. apply andb_true_iff in Hw'.
      destruct Hw' as [_ Hw']. cbn in Hw'. apply andb_true_iff in Hw'.
      cbn in H. destruct Hw' as [Hc _]. congruence. }
  apply (f_equal (@rev ascii)) in Hr. rewrite !rev_involutive in Hr. exact Hr.
Qed.

End StatementEnds.

(** ** Writes to a tidy object *)
Section TidyWrites.

Variable K : list text.
Hypothesis K_words : forallb word K = true.

Lemma tidy_cons c a l :
  tidy K l (c :: a)
  = implb (key_here K l (c :: a)) (stmt_at K l (c :: a)) && tidy K (c :: l) a.
Proof.
  unfold tidy. cbn [tidy_in rev]. rewrite <- !app_assoc, !app_nil_r.
  cbn [app]. rewrite andb_assoc. reflexivity.
Qed.

Lemma tidy_nil l : tidy K l [] = negb (key_here K l []).
Proof. reflexivity. Qed.

Lemma key_here_nonword_left l a : prev_word l = false -> key_here K l a = false.
Proof.
  intros H. unfold key_here. destruct (existsb _ K) eqn:E; [|reflexivity].
  apply existsb_exists in E. destruct E as (q & Hq & Hb).
  rewrite (key_before_nonword_left q l a (K_word K K_words q Hq) H) in Hb.
  discriminate.
Qed.

Lemma key_here_false q l a :
  In q K -> key_here K l a = false -> key_before q l a = false.
Proof.
  intros Hq H. destruct (key_before q l a) eqn:E; [|reflexivity].
  rewrite (key_here_in K q l a Hq E) in H. discriminate.
Qed.

Lemma quiet_in q l x : In q K -> quiet K l x = true -> key_free q l x = true.
Proof.
  intros Hq H. unfold quiet in H. rewrite forallb_forall in H. exact (H q Hq).
Qed.

(** A run of word characters after a non-word character ends no name
    before its own end. *)
Lemma quiet_word_run w l :
  forallb is_word w = true -> prev_word l = false -> quiet K l w = true.
Proof.
  intros Hw Hl. destruct w as [|c w]; [unfold quiet; apply forallb_forall; reflexivity|].
  rewrite quiet_cons, (key_here_nonword_left l _ Hl). cbn [negb andb].
  cbn [forallb] in Hw. apply andb_true_iff in Hw. destruct Hw as [Hc Hw].
  unfold quiet. apply forallb_forall. intros q _.
  apply key_free_in_word; [exact Hw|exact Hc].
Qed.

(** Inside the value of a statement no name ends. *)
Lemma stmt_region_quiet l a n w z q :
  stmt_at K l a = true -> value_len a = Some n ->
  a = w ++ z -> w <> [] -> length w <= n -> In q K ->
  key_before q (rev w ++ l) z = false.
Proof.
  intros Hs Hn E Hw Hlen Hq.
  pose proof (value_len_bound _ _ Hn) as Hb.
  destruct w as [|c w]; [congruence|]. subst a.
  unfold stmt_at in Hs. cbn [app] in Hs, Hn. rewrite Hn in Hs.
  cbn [length] in Hlen, Hb. rewrite length_app in Hb.
  destruct z as [|d z]; [cbn [length] in Hb; lia|].
  rewrite firstn_app, firstn_all2 in Hs by lia.
  destruct (n - length w) as [|m] eqn:Em; [lia|].
  cbn [firstn] in Hs. rewrite quiet_app, quiet_cons in Hs.
  apply andb_true_iff in Hs. destruct Hs as [_ Hs].
  apply andb_true_iff in Hs. destruct Hs as [Hs _].
  apply negb_true_iff in Hs. cbn [rev]. rewrite <- app_assoc. cbn [app].
  rewrite (key_before_cons q _ d z (firstn m z)).
  apply key_here_false; assumption.
Qed.

Lemma settled_write k v t :
  word k = true -> clean_value v = true -> settled k v t ->
  modObjProp t k v = Ok t.
Proof.
  intros Hk Hv (a1 & rest & -> & Hf & Hb).
  rewrite (modObjProp_plain k _ v (word_plain k Hk)).
  rewrite (key_free_skip k [] a1 _ Hf), app_nil_r.
  unfold find_prop.
  rewrite (leftmost_here (prop_here k) (rev a1) _
             (length a1, length a1 + S (length v))).
  - rewrite firstn_len_app.
    replace (a1 ++ " "%char :: v ++ ";"%char :: rest)
      with (a1 ++ (" "%char :: v) ++ ";"%char :: rest) by reflexivity.
    change (S (length v)) with (length (" "%char :: v)).
    rewrite skipn_two. reflexivity.
  - unfold prop_here.
    rewrite (key_before_cons k (rev a1) " "%char _ []), Hb.
    rewrite (value_len_intro " "%char v rest eq_refl Hv).
    cbn [option_map]. rewrite length_rev. reflexivity.
Qed.

End TidyWrites.

Section TidyReplace.

Variable K : list text.
Hypothesis K_words : forallb word K = true.

Lemma snoc_app (v : text) c post : (v ++ [c]) ++ post = v ++ c :: post.
Proof. rewrite <- app_assoc. reflexivity. Qed.

Lemma fit_clean v : fit K v = true -> clean_value v = true.
Proof. unfold fit. intros H. apply andb_true_iff in H. apply H. Qed.

Lemma fit_quiet v l :
  fit K v = true -> prev_word l = false ->
  quiet K (" "%char :: l) (v ++ [";"%char]) = true.
Proof.
  unfold fit. intros H Hl. apply andb_true_iff in H. destruct H as [_ H].
  rewrite (quiet_ctx K K_words _ (" "%char :: l) [" "%char]); [exact H|].
  apply same_word_ctx_nonword; reflexivity.
Qed.

(** The statement written by a replacement, and what follows it. *)
Lemma tidy_written v l post l0 :
  fit K v = true ->
  key_here K l [" "%char] = true ->
  prev_word l0 = false -> tidy K (";"%char :: l0) post = true ->
  tidy K l (" "%char :: v ++ ";"%char :: post) = true.
Proof.
  intros Hfit Hk Hl0 Hpost.
  rewrite <- snoc_app, tidy_cons.
  apply andb_true_iff. split.
  - rewrite (key_here_cons K l " "%char _ []), Hk. cbn [implb].
    unfold stmt_at. rewrite snoc_app.
    rewrite (value_len_intro " "%char v post eq_refl (fit_clean v Hfit)).
    rewrite <- snoc_app.
    replace (S (length v)) with (length (v ++ [";"%char]))
      by (rewrite length_app; cbn [length]; lia).
    rewrite firstn_len_app.
    rewrite (quiet_ctx K K_words _ (" "%char :: l) [" "%char]).
    + unfold fit in Hfit. apply andb_true_iff in Hfit. apply Hfit.
    + apply same_word_ctx_nonword; reflexivity.
  - rewrite tidy_app. apply andb_true_iff. split.
    + apply quiet_tidy_in.
      rewrite (quiet_ctx K K_words _ (" "%char :: l) [" "%char]).
      * unfold fit in Hfit. apply andb_true_iff in Hfit. apply Hfit.
      * apply same_word_ctx_nonword; reflexivity.
    + rewrite rev_app_distr. cbn [rev app].
      rewrite (tidy_ctx K K_words post _ (";"%char :: l0)); [exact Hpost|].
      apply same_word_ctx_nonword; reflexivity.
Qed.



End TidyReplace.

(** * Further methods *)

(** ** extractObject and replaceObject together *)
Section ExtractReplace.

Lemma replaceObject_same self startInd :
  replaceObject self (extractObject self startInd) = self.
Proof.
  destruct self as [s po pi]. unfold replaceObject, extractObject, set_strModel.
  cbn [strModel pathModelOut pathModelIn o_start o_end o_obj].
  f_equal.
  destruct (brace_loop_len (skipn startInd s) startInd 0) as (k & -> & Hk & _).
  rewrite slice_from.
  replace (skipn (startInd + k) s) with (skipn k (skipn startInd s))
    by (rewrite skipn_skipn; f_equal; lia).
  rewrite (firstn_skipn k (skipn startInd s)). apply firstn_skipn.
Qed.

(** X1. Splicing an extracted object back in place changes nothing,
    whatever the model and the start offset are, also past the end of the
    model: the dictionary of [extractObject] describes a piece of the
    model exactly. *)
Theorem replaceObject_extractObject self startInd :
  let d := extractObject self startInd in
  replaceObject self d = self
  /\ o_start d = startInd
  /\ o_end d = startInd + length (o_obj d)
  /\ strModel self
     = firstn startInd (strModel self) ++ o_obj d
         ++ skipn (o_end d) (strModel self).
Proof.
  cbv zeta. split; [apply replaceObject_same|].
  split; [reflexivity|].
  pose proof (replaceObject_same self startInd) as H.
  apply (f_equal strModel) in H. unfold replaceObject in H.
  cbn [strModel set_strModel] in H.
  split; [|symmetry; exact H].
  unfold extractObject. cbn [o_end o_obj].
  destruct (brace_loop_len (skipn startInd (strModel self)) startInd 0)
    as (k & -> & Hk & _).
  rewrite slice_from, length_firstn. lia.
Qed.

End ExtractReplace.

(** ** Objects without inner braces *)
Section Flat.

Lemma brace_loop_free : forall x cs e d,
  brace_free x = true ->
  brace_loop (x ++ cs) e d = brace_loop cs (e + length x) d.
Proof.
  induction x as [|c x IH]; intros cs e d H.
  - cbn [app length]. f_equal. lia.
  - cbn [brace_free forallb] in H. apply andb_true_iff in H.
    destruct H as [Hc Hx]. apply andb_true_iff in Hc. destruct Hc as [Ho Hc].
    apply negb_true_iff in Ho, Hc.
    cbn [app brace_loop length]. rewrite Ho, Hc. cbn [andb].
    rewrite (IH cs (e + 1) d Hx). f_equal. lia.
Qed.

Lemma brace_loop_flat head body rest e :
  brace_free head = true -> brace_free body = true ->
  brace_loop (head ++ "{"%char :: body ++ "}"%char :: rest) e 0
  = e + length head + length body + 2.
Proof.
  intros Hh Hb. rewrite (brace_loop_free head _ e 0%Z Hh).
  cbn [brace_loop]. change (is_open "{") with true.
  change (is_close "{") with false. cbn [andb].
  rewrite (brace_loop_free body _ _ _ Hb).
  cbn [brace_loop]. change (is_open "}") with false.
  change (is_close "}") with true. cbn [andb]. 
  change (0 + 1 - 1 =? 0)%Z with true. cbn iota. lia.
Qed.

(** An object without inner braces is extracted as a whole. *)
Lemma extractObject_flat self pre head body rest :
  brace_free head = true -> brace_free body = true ->
  strModel self = pre ++ head ++ "{"%char :: body ++ "}"%char :: rest ->
  extractObject self (length pre)
  = ObjDict (length pre) (length pre + length head + length body + 2)
      (head ++ "{"%char :: body ++ ["}"%char]).
Proof.
  intros Hh Hb E. unfold extractObject. rewrite E, skipn_len_app.
  rewrite (brace_loop_flat head body rest _ Hh Hb).
  f_equal. 
  replace (length pre + length head + length body + 2)
    with (length pre + length (head ++ "{"%char :: body ++ ["}"%char]))
    by (rewrite !length_app; cbn [length]; rewrite length_app; cbn [length]; lia).
  rewrite slice_from, skipn_len_app.
  replace (head ++ "{"%char :: body ++ "}"%char :: rest)
    with ((head ++ "{"%char :: body ++ ["}"%char]) ++ rest).
  - apply firstn_len_app.
  - rewrite <- !app_assoc. cbn [app]. rewrite <- app_assoc. reflexivity.
Qed.

End Flat.
(** ** removeTape *)
Section Tape.

Lemma tape1_needs_m l c a :
  ascii_eqb c "m" = false -> match_here TAPE_REGEX1 l (c :: a) = None.
Proof.
  intros H. unfold match_here, TAPE_REGEX1. cbn [run].
  destruct (boundary l (c :: a)); [|reflexivity].
  cbn [cmatch]. rewrite H. reflexivity.
Qed.

Lemma tape2_needs_m l c a :
  ascii_eqb c "m" = false -> match_here TAPE_REGEX2 l (c :: a) = None.
Proof.
  intros H. unfold match_here, TAPE_REGEX2. cbn [run].
  destruct (boundary l (c :: a)); [|reflexivity].
  cbn [cmatch]. rewrite H. reflexivity.
Qed.

Lemma search_skip_no_m r pre a :
  (forall l c a', ascii_eqb c "m" = false -> match_here r l (c :: a') = None) ->
  no_m pre = true ->
  search r (pre ++ a) 0 = search_from r (rev pre) a.
Proof.
  intros Hr Hp. unfold search, search_from. cbn [firstn skipn rev].
  rewrite (leftmost_skip (match_here r) pre [] a), app_nil_r; [reflexivity|].
  intros b1 b2 -> Hb. destruct b2 as [|c b2]; [congruence|].
  unfold no_m in Hp. rewrite forallb_app in Hp. apply andb_true_iff in Hp.
  destruct Hp as [_ Hp]. cbn [forallb] in Hp. apply andb_true_iff in Hp.
  destruct Hp as [Hc _]. apply negb_true_iff in Hc.
  cbn [app]. apply Hr. exact Hc.
Qed.

Lemma tape1_here l rest :
  prev_word l = false ->
  match_here TAPE_REGEX1 l (T "module tape;" ++ rest)
  = Some (length l, 12 + length l).
Proof.
  intros H. unfold match_here, TAPE_REGEX1. 
  cbn [run T list_ascii_of_string app]. unfold boundary at 1. rewrite H.
  cbv -[length]. reflexivity.
Qed.

Lemma tape2_here l body :
  prev_word l = false ->
  match_here TAPE_REGEX2 l (T "module tape {" ++ body)
  = Some (length l, 12 + length l).
Proof.
  intros H. unfold match_here, TAPE_REGEX2.
  cbn [run T list_ascii_of_string app]. unfold boundary at 1. rewrite H.
  cbv -[length]. reflexivity.
Qed.

(** X2. Adding the tape module and removing it again gives the model
    back: [removeTape] finds the statement written by [addModule] at the
    start, and the one extra character it deletes after the semicolon is
    the line feed [addModule] wrote. *)
Theorem removeTape_addModule self :
  removeTape (addModule self (T "tape")) = self.
Proof.
  destruct self as [s po pi]. unfold removeTape, addModule, set_strModel.
  cbn [strModel pathModelOut pathModelIn].
  replace (T "module " ++ T "tape" ++ T ";" ++ [lf] ++ s)
    with ([] ++ T "module tape;" ++ lf :: s) by reflexivity.
  rewrite (search_skip_no_m TAPE_REGEX1 [] _ tape1_needs_m eq_refl).
  unfold search_from. cbn [rev].
  rewrite (leftmost_here _ _ _ _ (tape1_here [] (lf :: s) eq_refl)).
  reflexivity.
Qed.

(** X3. The simple form [module tape;] is removed together with the
    character that follows the semicolon, whatever that character is.
    Here the statement is the first place of the model where a match can
    start: no [m] comes before it and it does not continue a word. *)
Theorem removeTape_statement self pre rest :
  no_m pre = true -> prev_word (rev pre) = false ->
  strModel self = pre ++ T "module tape;" ++ rest ->
  strModel (removeTape self) = pre ++ skipn 1 rest.
Proof.
  intros Hm Hw E. unfold removeTape. rewrite E.
  rewrite (search_skip_no_m TAPE_REGEX1 pre _ tape1_needs_m Hm).
  unfold search_from.
  rewrite (leftmost_here _ _ _ _ (tape1_here (rev pre) rest Hw)).
  rewrite length_rev. cbn [strModel set_strModel].
  rewrite firstn_len_app. f_equal.
  replace (12 + length pre + 1)
    with (1 + length (pre ++ T "module tape;"))
    by (rewrite length_app; cbn [length T list_ascii_of_string]; lia).
  rewrite <- skipn_skipn.
  replace (pre ++ T "module tape;" ++ rest)
    with ((pre ++ T "module tape;") ++ rest) by (rewrite <- app_assoc; reflexivity).
  rewrite skipn_len_app. reflexivity.
Qed.

Lemma removeTape_statement_witness :
  let self := of_text (T "#set profiler=1" ++ [lf] ++ T "module tape;object node {}") in
  no_m (T "#set profiler=1" ++ [lf]) = true
  /\ strModel (removeTape self) = T "#set profiler=1" ++ [lf] ++ T "bject node {}".
Proof.
  split; [reflexivity|].
  exact (removeTape_statement
           (of_text (T "#set profiler=1" ++ [lf] ++ T "module tape;object node {}"))
           (T "#set profiler=1" ++ [lf]) (T "object node {}")
           eq_refl eq_refl eq_refl).
Defined.

(** X4. When the model holds no simple form, the full form
    [module tape {...}] is removed as an object, again together with the
    one character after its closing brace. *)
Theorem removeTape_object self pre body rest :
  no_m pre = true -> prev_word (rev pre) = false ->
  brace_free body = true ->
  strModel self = pre ++ T "module tape {" ++ body ++ T "}" ++ rest ->
  search TAPE_REGEX1 (strModel self) 0 = None ->
  strModel (removeTape self) = pre ++ skipn 1 rest.
Proof.
  intros Hm Hw Hb E Hnone. unfold removeTape. rewrite Hnone. rewrite E.
  rewrite (search_skip_no_m TAPE_REGEX2 pre _ tape2_needs_m Hm).
  unfold search_from.
  rewrite (leftmost_here _ _ _ _ (tape2_here (rev pre) _ Hw)).
  rewrite length_rev. cbn [fst].
  rewrite <- E.
  rewrite (extractObject_flat self pre (T "module tape ") body rest eq_refl Hb)
    by exact E.
  cbn [o_start o_end strModel set_strModel]. rewrite E.
  rewrite firstn_len_app. f_equal.
  replace (length pre + length (T "module tape ") + length body + 2 + 1)
    with (1 + length (pre ++ T "module tape {" ++ body ++ T "}"))
    by (rewrite !length_app; cbn [length T list_ascii_of_string]; lia).
  rewrite <- skipn_skipn.
  replace (pre ++ T "module tape {" ++ body ++ T "}" ++ rest)
    with ((pre ++ T "module tape {" ++ body ++ T "}") ++ rest)
    by (rewrite <- !app_assoc; reflexivity).
  rewrite skipn_len_app. reflexivity.
Qed.

Lemma removeTape_object_witness :
  let doc := T "module tape {" ++ [lf] ++ T "}" ++ [lf] ++ T "clock {}" in
  search TAPE_REGEX1 doc 0 = None
  /\ strModel (removeTape (of_text doc)) = T "clock {}".
Proof.
  split; [reflexivity|].
  exact (removeTape_object
           (of_text (T "module tape {" ++ [lf] ++ T "}" ++ [lf] ++ T "clock {}"))
           [] [lf] (lf :: T "clock {}") eq_refl eq_refl eq_refl eq_refl eq_refl).
Defined.

End Tape.
(** ** removeObjectsByType *)
Section RemoveObjects.

Lemma Subseq_refl x : Subseq x x.
Proof. induction x; constructor; assumption. Qed.

Lemma Subseq_trans x y z : Subseq x y -> Subseq y z -> Subseq x z.
Proof.
  intros H1 H2. revert x H1. induction H2; intros x0 H1.
  - exact H1.
  - inversion H1; subst.
    + constructor. apply IHSubseq. assumption.
    + apply Subseq_drop. apply IHSubseq. assumption.
  - apply Subseq_drop. apply IHSubseq. exact H1.
Qed.

Lemma Subseq_app x x' y y' : Subseq x x' -> Subseq y y' -> Subseq (x ++ y) (x' ++ y').
Proof.
  intros H1 H2. induction H1; cbn [app]; try constructor; assumption.
Qed.

Lemma Subseq_nil_l y : Subseq [] y.
Proof. induction y; constructor; assumption. Qed.

Lemma Subseq_length x y : Subseq x y -> length x <= length y.
Proof. induction 1; cbn [length]; lia. Qed.

(** Cutting a piece out leaves a subsequence. *)
Lemma Subseq_cut (s : text) a b :
  a <= b -> Subseq (firstn a s ++ skipn b s) s.
Proof.
  intros H.
  rewrite <- (firstn_skipn a s) at 3.
  apply Subseq_app; [apply Subseq_refl|].
  replace b with ((b - a) + a) by lia. rewrite <- skipn_skipn.
  rewrite <- (firstn_skipn (b - a) (skipn a s)) at 2.
  rewrite <- (app_nil_l (skipn (b - a) (skipn a s))) at 1.
  apply Subseq_app; [apply Subseq_nil_l|apply Subseq_refl].
Qed.

Lemma cut_length (s : text) a b :
  a < b -> a < length s ->
  length (firstn a s ++ skipn b s) < length s.
Proof.
  intros H Ha. rewrite length_app, length_firstn, length_skipn. lia.
Qed.

(** One turn of the loop: either IndexError, or a strictly shorter
    model that is the old one with a piece cut out. *)
Lemma removeObjects_step self start :
  let obj := extractObject self start in
  match nth_error (strModel self) (o_end obj) with
  | None => True
  | Some c =>
      let e := if ascii_eqb c ";" then o_end obj + 1 else o_end obj in
      let self' := replaceObject self (ObjDict (o_start obj) e []) in
      length (strModel self') < length (strModel self)
      /\ Subseq (strModel self') (strModel self)
      /\ pathModelIn self' = pathModelIn self
      /\ pathModelOut self' = pathModelOut self
  end.
Proof.
  cbv zeta. unfold extractObject.
  destruct (brace_loop_len (skipn start (strModel self)) start 0)
    as (k & -> & Hk & Hpos).
  cbn [o_start o_end].
  destruct (nth_error (strModel self) (start + k)) as [c|] eqn:E; [|exact I].
  assert (Hlt : start + k < length (strModel self)).
  { apply nth_error_Some. rewrite E. discriminate. }
  assert (Hk1 : 1 <= k).
  { apply Hpos. intros Hnil.
    apply (f_equal (@length ascii)) in Hnil. rewrite length_skipn in Hnil.
    cbn [length] in Hnil. lia. }
  unfold replaceObject. cbn [o_start o_end o_obj strModel set_strModel app
                               pathModelIn pathModelOut].
  repeat split.
  - apply cut_length; [destruct (ascii_eqb c ";"); lia|lia].
  - apply Subseq_cut. destruct (ascii_eqb c ";"); lia.
Qed.

Lemma removeObjects_loop_ends exp : forall fuel self,
  length (strModel self) < fuel ->
  exists res self',
    removeObjects_loop fuel exp self (search exp (strModel self) 0)
    = Some (res, self')
    /\ Subseq (strModel self') (strModel self)
    /\ pathModelIn self' = pathModelIn self
    /\ pathModelOut self' = pathModelOut self
    /\ ((res = Ok tt /\ search exp (strModel self') 0 = None)
        \/ res = Raise IndexError).
Proof.
  induction fuel as [|fuel IH]; intros self Hf; [lia|].
  destruct (search exp (strModel self) 0) as [sp|] eqn:Es.
  - cbn [removeObjects_loop].
    pose proof (removeObjects_step self (fst sp)) as Hstep. cbv zeta in Hstep.
    destruct (nth_error (strModel self) (o_end (extractObject self (fst sp))))
      as [c|] eqn:En.
    + destruct Hstep as (Hlen & Hsub & Hin & Hout).
      match goal with
      | |- context [removeObjects_loop fuel exp ?s _] => set (self1 := s) in *
      end.
      destruct (IH self1 ltac:(lia)) as (res & self' & Hloop & Hs' & Hi' & Ho' & Hres).
      exists res, self'. rewrite Hloop.
      split; [reflexivity|]. split; [exact (Subseq_trans _ _ _ Hs' Hsub)|].
      split; [congruence|]. split; [congruence|exact Hres].
    + exists (Raise IndexError), self.
      split; [reflexivity|]. split; [apply Subseq_refl|].
      split; [reflexivity|]. split; [reflexivity|right; reflexivity].
  - exists (Ok tt), self. cbn [removeObjects_loop].
    split; [reflexivity|]. split; [apply Subseq_refl|].
    split; [reflexivity|]. split; [reflexivity|left; split; [reflexivity|exact Es]].
Qed.

(** X5. For types whose pattern compiles, [removeObjectsByType] always
    ends: the loop for one type runs at most once per character of the
    model. It ends normally or with IndexError, and the model it leaves
    is the old one with characters left out: nothing is added or
    reordered. *)
Theorem removeObjectsByType_ends objStr : forall typeList self,
  (forall t, In t typeList -> compile (type_pattern objStr t) <> None) ->
  exists res self',
    removeObjectsByType self typeList objStr = Some (res, self')
    /\ Subseq (strModel self') (strModel self)
    /\ pathModelIn self' = pathModelIn self
    /\ pathModelOut self' = pathModelOut self
    /\ (res = Ok tt \/ res = Raise IndexError).
Proof.
  induction typeList as [|t ts IH]; intros self Hc.
  - exists (Ok tt), self. cbn [removeObjectsByType].
    split; [reflexivity|]. split; [apply Subseq_refl|].
    split; [reflexivity|]. split; [reflexivity|left; reflexivity].
  - cbn [removeObjectsByType]. unfold removeObjectsOfType.
    destruct (compile (type_pattern objStr t)) as [exp|] eqn:Ec;
      [|destruct (Hc t (or_introl eq_refl) Ec)].
    destruct (removeObjects_loop_ends exp (S (length (strModel self))) self
                (Nat.lt_succ_diag_r _))
      as (res & self1 & -> & Hsub & Hin & Hout & [[-> _]| ->]).
    + destruct (IH self1) as (res & self' & -> & Hs' & Hi' & Ho' & Hres).
      { intros t' Ht'. apply Hc. right. exact Ht'. }
      exists res, self'. split; [reflexivity|].
      split; [exact (Subseq_trans _ _ _ Hs' Hsub)|].
      split; [congruence|]. split; [congruence|exact Hres].
    + exists (Raise IndexError), self1. split; [reflexivity|].
      split; [exact Hsub|]. split; [exact Hin|]. split; [exact Hout|].
      right; reflexivity.
Qed.

Lemma removeObjectsByType_ends_witness :
  let doc := T "object house { name h1; };" ++ [lf] ++ T "object node { }"
             ++ [lf] ++ T "clock { }" in
  (forall t, In t [T "house"; T "node"] ->
     compile (type_pattern (T "object") t) <> None)
  /\ removeObjectsByType (of_text doc) [T "house"; T "node"] (T "object")
     = Some (Ok tt, of_text ([lf; lf] ++ T "clock { }"))
  /\ Subseq ([lf; lf] ++ T "clock { }") doc.
Proof.
  cbv zeta.
  assert (Hc : forall t, In t [T "house"; T "node"] ->
                 compile (type_pattern (T "object") t) <> None).
  { intros t [<-|[<-|[]]]; vm_compute; discriminate. }
  split; [exact Hc|].
  destruct (removeObjectsByType_ends (T "object") [T "house"; T "node"]
              (of_text (T "object house { name h1; };" ++ [lf]
                          ++ T "object node { }" ++ [lf] ++ T "clock { }"))
              Hc) as (res & self' & Hrun & Hsub & _).
  assert (E : removeObjectsByType
                (of_text (T "object house { name h1; };" ++ [lf]
                            ++ T "object node { }" ++ [lf] ++ T "clock { }"))
                [T "house"; T "node"] (T "object")
              = Some (Ok tt, of_text ([lf; lf] ++ T "clock { }")))
    by (vm_compute; reflexivity).
  split; [exact E|].
  rewrite E in Hrun. injection Hrun as <- <-. exact Hsub.
Defined.

(** X6. When the removal of one type ends normally, the model holds no
    match of that type's pattern any more. *)
Theorem removeObjectsOfType_none_left self objStr t exp self' :
  compile (type_pattern objStr t) = Some exp ->
  removeObjectsOfType self objStr t = Some (Ok tt, self') ->
  search exp (strModel self') 0 = None.
Proof.
  intros Hc H. unfold removeObjectsOfType in H. rewrite Hc in H.
  destruct (removeObjects_loop_ends exp (S (length (strModel self))) self
              (Nat.lt_succ_diag_r _))
    as (res & self1 & Hloop & _ & _ & _ & Hres).
  rewrite Hloop in H. injection H as -> ->.
  destruct Hres as [[_ Hn]|Hr]; [exact Hn|discriminate].
Qed.

End RemoveObjects.
Section RemoveObjectsEdge.

Lemma removeObjectsOfType_none_left_witness :
  let doc := T "object house { name h1; };" ++ [lf] ++ T "object node { }" ++ [lf] in
  compile (type_pattern (T "object") (T "house")) = Some HOUSE_REGEX
  /\ removeObjectsOfType (of_text doc) (T "object") (T "house")
     = Some (Ok tt, of_text ([lf] ++ T "object node { }" ++ [lf]))
  /\ search HOUSE_REGEX ([lf] ++ T "object node { }" ++ [lf]) 0 = None.
Proof.
  split; [reflexivity|]. split; [reflexivity|].
  exact (removeObjectsOfType_none_left
           (of_text (T "object house { name h1; };" ++ [lf]
                       ++ T "object node { }" ++ [lf]))
           (T "object") (T "house") HOUSE_REGEX
           (of_text ([lf] ++ T "object node { }" ++ [lf])) eq_refl eq_refl).
Defined.

(** X7. An object that is the last thing in the model cannot be removed:
    the test for a semicolon after the object reads one character past
    the end, the call ends with IndexError and the model keeps the
    object. *)
Theorem removeObjectsOfType_at_end self objStr t exp pre head body e :
  compile (type_pattern objStr t) = Some exp ->
  brace_free head = true -> brace_free body = true ->
  strModel self = pre ++ head ++ "{"%char :: body ++ ["}"%char] ->
  search exp (strModel self) 0 = Some (length pre, e) ->
  removeObjectsOfType self objStr t = Some (Raise IndexError, self).
Proof.
  intros Hc Hh Hb E Hs. unfold removeObjectsOfType. rewrite Hc, Hs.
  cbn [removeObjects_loop fst].
  rewrite (extractObject_flat self pre head body [] Hh Hb E).
  cbn [o_end].
  replace (nth_error (strModel self) (length pre + length head + length body + 2))
    with (@None ascii); [reflexivity|].
  symmetry. apply nth_error_None. rewrite E, !length_app. cbn [length].
  rewrite length_app. cbn [length]. lia.
Qed.

Lemma removeObjectsOfType_at_end_witness :
  let self := of_text (T "clock { }" ++ [lf] ++ T "object house { name h1; }") in
  search HOUSE_REGEX (strModel self) 0 = Some (10, 22)
  /\ removeObjectsOfType self (T "object") (T "house")
     = Some (Raise IndexError, self).
Proof.
  split; [reflexivity|].
  exact (removeObjectsOfType_at_end
           (of_text (T "clock { }" ++ [lf] ++ T "object house { name h1; }"))
           (T "object") (T "house") HOUSE_REGEX
           (T "clock { }" ++ [lf]) (T "object house ") (T " name h1; ") 22
           eq_refl eq_refl eq_refl eq_refl eq_refl).
Defined.

End RemoveObjectsEdge.
(** ** Blocks of property lines *)
Section Lines.

Lemma fold_lines (f : text * text -> text) props : forall s,
  fold_left (fun s pv => s ++ f pv) props s = s ++ flat_map f props.
Proof.
  induction props as [|pv props IH]; intros s; cbn [fold_left flat_map].
  - rewrite app_nil_r. reflexivity.
  - rewrite IH, <- app_assoc. reflexivity.
Qed.

(** No name ends inside a run of word characters that follows a
    non-word character. *)
Lemma key_free_word_run k w l :
  word k = true -> forallb is_word w = true -> prev_word l = false ->
  key_free k l w = true.
Proof.
  intros Hk Hw Hl. destruct w as [|c w]; [reflexivity|].
  cbn [key_free]. rewrite (key_before_nonword_left k l _ Hk Hl). cbn [negb andb].
  cbn [forallb] in Hw. apply andb_true_iff in Hw. destruct Hw as [Hc Hw].
  apply key_free_in_word; [exact Hw|exact Hc].
Qed.

(** The line of another name holds no place where [k] ends. *)
Lemma key_free_line k kj vj l :
  word k = true -> word kj = true -> k <> kj ->
  unmentioned k vj = true -> prev_word l = false ->
  key_free k l (prop_line kj vj) = true.
Proof.
  intros Hk Hkj Hne Hun Hl. unfold prop_line.
  cbn [T list_ascii_of_string app key_free].
  rewrite (key_before_nonword_left k l _ Hk Hl).
  rewrite (key_before_nonword_left k (" "%char :: l) _ Hk eq_refl).
  cbn [negb andb].
  rewrite key_free_app. apply andb_true_iff. split.
  - apply key_free_word_run; [exact Hk|apply word_all; exact Hkj|reflexivity].
  - cbn [key_free].
    assert (Hb : key_before k (rev kj ++ " "%char :: " "%char :: l)
                   (" "%char :: vj ++ [";"%char; lf]) = false).
    { destruct (key_before k _ _) eqn:E; [|reflexivity]. exfalso. apply Hne.
      apply (key_before_same k kj _ _ [" "%char] Hk Hkj E).
      rewrite (key_before_word kj _ _ Hkj). reflexivity. }
    rewrite Hb. cbn [negb andb].
    replace (vj ++ [";"%char; lf]) with ((vj ++ [";"%char]) ++ [lf])
      by (rewrite <- app_assoc; reflexivity).
    rewrite key_free_app. apply andb_true_iff. split.
    + rewrite (key_free_ctx k _ _ [" "%char] Hk); [exact Hun|].
      apply same_word_ctx_nonword; reflexivity.
    + cbn [key_free]. rewrite key_before_nonword_left; [reflexivity|exact Hk|].
      rewrite rev_app_distr. reflexivity.
Qed.

Lemma prop_line_last kj vj : exists b, prop_line kj vj = b ++ [lf].
Proof.
  exists (T "  " ++ kj ++ T " " ++ vj ++ T ";"). unfold prop_line.
  rewrite <- !app_assoc. reflexivity.
Qed.

Lemma key_free_lines k : forall props l,
  word k = true -> prev_word l = false ->
  (forall kj vj, In (kj, vj) props ->
     word kj = true /\ k <> kj /\ unmentioned k vj = true) ->
  key_free k l (prop_lines props) = true.
Proof.
  induction props as [|[kj vj] props IH]; intros l Hk Hl H; [reflexivity|].
  cbn [prop_lines flat_map fst snd]. rewrite key_free_app.
  destruct (H kj vj (or_introl eq_refl)) as (Hkj & Hne & Hun).
  apply andb_true_iff. split.
  - apply key_free_line; assumption.
  - apply IH; [exact Hk| |intros; apply H; right; assumption].
    destruct (prop_line_last kj vj) as [b ->]. rewrite rev_app_distr. reflexivity.
Qed.

End Lines.
Section Blocks.

Lemma settled_find k v t :
  word k = true -> clean_value v = true -> settled k v t ->
  exists a1 rest,
    t = a1 ++ " "%char :: v ++ ";"%char :: rest
    /\ find_prop k [] t = Some (length a1, length a1 + S (length v)).
Proof.
  intros Hk Hv (a1 & rest & -> & Hf & Hb). exists a1, rest.
  split; [reflexivity|].
  rewrite (key_free_skip k [] a1 _ Hf), app_nil_r. unfold find_prop.
  apply leftmost_here. unfold prop_here.
  rewrite (key_before_cons k (rev a1) " "%char _ []), Hb.
  rewrite (value_len_intro " "%char v rest eq_refl Hv).
  cbn [option_map]. rewrite length_rev. reflexivity.
Qed.

(** Reading a settled statement gives its value, without the white
    space and the double quotes around it. *)
Lemma settled_read k v t :
  word k = true -> clean_value v = true -> settled k v t ->
  exists s,
    extractProperties t [k]
    = Ok [(k, PropVal (strip is_dq (strip is_space v)) s (s + S (length v)))]
    /\ slice t s (s + S (length v)) = " "%char :: v.
Proof.
  intros Hk Hv Hs.
  destruct (settled_find k v t Hk Hv Hs) as (a1 & rest & -> & Hf).
  exists (length a1).
  assert (Hsl : slice (a1 ++ " "%char :: v ++ ";"%char :: rest) (length a1)
                  (length a1 + S (length v)) = " "%char :: v).
  { rewrite slice_from, skipn_len_app.
    change (S (length v)) with (length (" "%char :: v)).
    change (" "%char :: v ++ ";"%char :: rest)
      with ((" "%char :: v) ++ ";"%char :: rest).
    apply firstn_len_app. }
  split; [|exact Hsl].
  rewrite extractProperties_single, (extractProperty_plain k _ (word_plain k Hk)).
  rewrite Hf, Hsl. reflexivity.
Qed.

(** Writing what already stands changes nothing. *)
Lemma modObjProps_settled : forall pd t,
  (forall k v, In (k, v) pd ->
     word k = true /\ clean_value v = true /\ settled k v t) ->
  modObjProps t pd = Ok t.
Proof.
  induction pd as [|[k v] pd IH]; intros t H; [reflexivity|].
  cbn [modObjProps].
  destruct (H k v (or_introl eq_refl)) as (Hk & Hv & Hs).
  rewrite (settled_write k v t Hk Hv Hs). cbn [bind].
  apply IH. intros k' v' Hin. apply H. right. exact Hin.
Qed.

Lemma prop_lines_app p q : prop_lines (p ++ q) = prop_lines p ++ prop_lines q.
Proof. unfold prop_lines. apply flat_map_app. Qed.

Lemma lines_body_last c h props :
  is_word c = false ->
  exists b c', (h ++ [c]) ++ prop_lines props = b ++ [c'] /\ is_word c' = false.
Proof.
  intros Hc. induction props as [|[kj vj] props IH] using rev_ind.
  - exists h, c. rewrite app_nil_r. split; [reflexivity|exact Hc].
  - rewrite prop_lines_app. cbn [prop_lines flat_map fst snd]. rewrite app_nil_r.
    destruct (prop_line_last kj vj) as [b ->].
    exists ((h ++ [c]) ++ prop_lines props ++ b), lf.
    rewrite <- !app_assoc. split; reflexivity.
Qed.

(** In a block of lines after a head without the name, the line of a
    name is its first statement. *)
Lemma lines_settled h c props1 k v props2 tail :
  word k = true -> is_word c = false ->
  key_free k [] (h ++ [c]) = true ->
  (forall kj vj, In (kj, vj) props1 ->
     word kj = true /\ k <> kj /\ unmentioned k vj = true) ->
  settled k v ((h ++ [c]) ++ prop_lines (props1 ++ (k, v) :: props2) ++ tail).
Proof.
  intros Hk Hc Hh Hp.
  destruct (lines_body_last c h props1 Hc) as (b & c' & Eb & Hc').
  assert (Hfree : key_free k [] (b ++ [c']) = true).
  { rewrite <- Eb, key_free_app, Hh. cbn [andb].
    apply key_free_lines; [exact Hk| |exact Hp].
    rewrite rev_app_distr. cbn [rev app prev_word]. exact Hc. }
  exists (((b ++ [c']) ++ T "  ") ++ k), (lf :: prop_lines props2 ++ tail).
  split; [|split].
  - rewrite <- Eb, prop_lines_app. cbn [prop_lines flat_map fst snd].
    unfold prop_line. rewrite <- !app_assoc. reflexivity.
  - apply (key_free_appended k (b ++ [c']) c' Hk Hc').
    rewrite <- app_assoc. cbn [app].
    replace (b ++ [c'; c']) with ((b ++ [c']) ++ [c'])
      by (rewrite <- app_assoc; reflexivity).
    rewrite key_free_app, Hfree. cbn [andb key_free].
    rewrite key_before_nonword_left; [reflexivity|exact Hk|].
    rewrite rev_app_distr. cbn [rev app prev_word]. exact Hc'.
  - rewrite rev_app_distr, (key_before_word k _ _ Hk).
    rewrite rev_app_distr. reflexivity.
Qed.

End Blocks.
Section ReadBack.

Lemma distinct_split (K1 : list text) k K2 q :
  distinct (K1 ++ k :: K2) = true -> In q K1 -> k <> q.
Proof.
  induction K1 as [|a K1 IH]; intros Hd Hin; [destruct Hin|].
  cbn [app distinct] in Hd. apply andb_true_iff in Hd. destruct Hd as [Ha Hd].
  destruct Hin as [<-|Hin]; [|exact (IH Hd Hin)].
  intros <-. apply negb_true_iff in Ha.
  rewrite existsb_app in Ha. cbn [existsb] in Ha.
  rewrite text_eqb_refl, orb_true_r in Ha. discriminate.
Qed.

Lemma readable_in props k v :
  readable props = true -> In (k, v) props ->
  word k = true /\ clean_value v = true /\ brace_free v = true
  /\ forall q, In q (map fst props) -> unmentioned q v = true.
Proof.
  intros H Hin. unfold readable in H. rewrite forallb_forall in H.
  specialize (H _ Hin). cbn [fst snd] in H.
  repeat (apply andb_true_iff in H; destruct H as [H ?]).
  repeat split; try assumption.
  intros q Hq. rewrite forallb_forall in H0. exact (H0 q Hq).
Qed.

(** Every line of a readable dictionary with distinct names is the first
    statement of its name in the block. *)
Lemma readable_settled h c props tail k v :
  readable props = true -> distinct (map fst props) = true ->
  is_word c = false ->
  (forall q, In q (map fst props) -> key_free q [] (h ++ [c]) = true) ->
  In (k, v) props ->
  settled k v ((h ++ [c]) ++ prop_lines props ++ tail).
Proof.
  intros Hr Hd Hc Hh Hin.
  destruct (in_split _ _ Hin) as (props1 & props2 & E).
  destruct (readable_in props k v Hr Hin) as (Hk & _).
  rewrite E. apply lines_settled; [exact Hk|exact Hc| |].
  - apply Hh. apply (in_map fst) in Hin. exact Hin.
  - intros kj vj Hj.
    assert (Hj' : In (kj, vj) props).
    { rewrite E. apply in_or_app. left. exact Hj. }
    destruct (readable_in props kj vj Hr Hj') as (Hkj & _ & _ & Hun).
    split; [exact Hkj|]. split.
    + rewrite E, map_app in Hd. cbn [map fst] in Hd.
      apply (distinct_split _ _ _ _ Hd). apply (in_map fst) in Hj. exact Hj.
    + apply Hun. apply (in_map fst) in Hin. exact Hin.
Qed.

Lemma word_char_no_brace c :
  is_word c = true -> negb (is_open c) && negb (is_close c) = true.
Proof.
  intros H. unfold is_open, is_close.
  destruct (ascii_eqb c "{") eqn:E1.
  - apply ascii_eqb_eq in E1. subst c. discriminate.
  - destruct (ascii_eqb c "}") eqn:E2; [|reflexivity].
    apply ascii_eqb_eq in E2. subst c. discriminate.
Qed.

Lemma brace_free_app x y : brace_free (x ++ y) = brace_free x && brace_free y.
Proof. apply forallb_app. Qed.

Lemma word_brace_free k : word k = true -> brace_free k = true.
Proof.
  intros H. apply word_all in H. unfold brace_free.
  rewrite forallb_forall in *. intros c Hc. apply word_char_no_brace. auto.
Qed.

Lemma readable_brace_free props :
  readable props = true -> brace_free (prop_lines props) = true.
Proof.
  intros H.
  assert (Hall : forall k v, In (k, v) props ->
            word k = true /\ brace_free v = true).
  { intros k v Hin. destruct (readable_in props k v H Hin) as (Hk & _ & Hb & _).
    split; assumption. }
  clear H. induction props as [|[k v] props IH]; [reflexivity|].
  change (prop_lines ((k, v) :: props))
    with (prop_line k v ++ prop_lines props).
  rewrite brace_free_app.
  destruct (Hall k v (or_introl eq_refl)) as [Hk Hv].
  rewrite IH by (intros; apply Hall; right; assumption).
  rewrite andb_true_r. unfold prop_line. rewrite !brace_free_app.
  rewrite (word_brace_free k Hk), Hv. reflexivity.
Qed.

End ReadBack.
Section AddObject.

Lemma addObject_text self objType props place :
  addObject self objType props place
  = if text_eqb place (T "beginning")
    then Passed (set_strModel self
                   (object_text objType props ++ T ";" ++ [lf] ++ strModel self))
    else if text_eqb place (T "end")
    then Passed (set_strModel self
                   (strModel self ++ [lf] ++ object_text objType props
                      ++ T ";" ++ [lf]))
    else AssertionError
           (T "'place' inputs must be 'beginning' or 'end.' '" ++ place
              ++ T "' was given.").
Proof.
  unfold addObject, object_text. cbv zeta.
  rewrite (fold_lines (fun pv => prop_line (fst pv) (snd pv))).
  fold (prop_lines props).
  replace (((T "object " ++ objType ++ T " {" ++ [lf]) ++ prop_lines props)
             ++ T "};" ++ [lf])
    with ((T "object " ++ objType ++ T " {" ++ [lf] ++ prop_lines props ++ T "}")
            ++ T ";" ++ [lf]).
  - destruct (text_eqb place (T "beginning")).
    + rewrite <- !app_assoc. reflexivity.
    + destruct (text_eqb place (T "end")); [|reflexivity].
      rewrite <- !app_assoc. reflexivity.
  - rewrite <- !app_assoc. reflexivity.
Qed.

Lemma object_text_flat pre objType props rest self :
  readable props = true -> brace_free objType = true ->
  strModel self = pre ++ object_text objType props ++ rest ->
  extractObject self (length pre)
  = ObjDict (length pre) (length pre + length (object_text objType props))
      (object_text objType props).
Proof.
  intros Hr Ht E.
  rewrite (extractObject_flat self pre (T "object " ++ objType ++ T " ")
             (lf :: prop_lines props) rest).
  - unfold object_text. f_equal.
    + repeat first [rewrite length_app | progress cbn [length T list_ascii_of_string app]].
      lia.
    + rewrite <- !app_assoc. reflexivity.
  - rewrite !brace_free_app, Ht. reflexivity.
  - change (lf :: prop_lines props) with ([lf] ++ prop_lines props).
    rewrite brace_free_app, (readable_brace_free props Hr). reflexivity.
  - rewrite E. unfold object_text. rewrite <- !app_assoc. reflexivity.
Qed.

(** X8. An object added by [addObject] can be found and read again.
    For properties given as a dictionary (distinct names) that is
    readable, and an object type without braces that mentions none of
    the names, the model gains the object text followed by [;] and a
    line feed, at the beginning or after a line feed at the end;
    [extractObject] at the place where it starts returns exactly the
    object text, and [extractProperties] on it returns every value
    written, stripped of white space and double quotes, with a span
    covering one blank and the value. *)
Theorem addObject_read_back self objType props :
  readable props = true -> distinct (map fst props) = true ->
  brace_free objType = true ->
  quiet (map fst props) [] (T "object " ++ objType ++ T " {" ++ [lf]) = true ->
  let obj := object_text objType props in
  let front := set_strModel self (obj ++ T ";" ++ [lf] ++ strModel self) in
  let back := set_strModel self (strModel self ++ [lf] ++ obj ++ T ";" ++ [lf]) in
  addObject self objType props (T "beginning") = Passed front
  /\ extractObject front 0 = ObjDict 0 (length obj) obj
  /\ addObject self objType props (T "end") = Passed back
  /\ extractObject back (length (strModel self) + 1)
     = ObjDict (length (strModel self) + 1)
         (length (strModel self) + 1 + length obj) obj
  /\ forall k v, In (k, v) props ->
       exists s,
         extractProperties obj [k]
         = Ok [(k, PropVal (strip is_dq (strip is_space v)) s
                     (s + S (length v)))]
         /\ slice obj s (s + S (length v)) = " "%char :: v.
Proof.
  intros Hr Hd Ht Hq obj front back.
  split; [rewrite addObject_text; reflexivity|].
  split.
  { apply (object_text_flat [] objType props (T ";" ++ [lf] ++ strModel self)
             front Hr Ht). reflexivity. }
  split; [rewrite addObject_text; reflexivity|].
  split.
  { replace (length (strModel self) + 1) with (length (strModel self ++ [lf]))
      by (rewrite length_app; reflexivity).
    apply (object_text_flat (strModel self ++ [lf]) objType props (T ";" ++ [lf])
             back Hr Ht).
    subst back obj. cbn [strModel set_strModel]. rewrite <- !app_assoc.
    reflexivity. }
  intros k v Hin.
  destruct (readable_in props k v Hr Hin) as (Hk & Hv & _).
  apply (settled_read k v obj Hk Hv).
  subst obj. unfold object_text.
  replace (T "object " ++ objType ++ T " {" ++ [lf] ++ prop_lines props ++ T "}")
    with (((T "object " ++ objType ++ T " {") ++ [lf]) ++ prop_lines props ++ T "}")
    by (rewrite <- !app_assoc; reflexivity).
  apply readable_settled; try assumption; [reflexivity|].
  intros q Hq'. unfold quiet in Hq. rewrite forallb_forall in Hq.
  rewrite <- app_assoc. rewrite <- app_assoc. exact (Hq q Hq').
Qed.

Lemma addObject_read_back_witness :
  let props := [(T "name", T "swing_meter"); (T "parent", T "sub_1");
                (T "phases", T "ABCN"); (T "nominal_voltage", T "7200.0")] in
  let obj := T "object meter {" ++ [lf] ++ T "  name swing_meter;" ++ [lf]
             ++ T "  parent sub_1;" ++ [lf] ++ T "  phases ABCN;" ++ [lf]
             ++ T "  nominal_voltage 7200.0;" ++ [lf] ++ T "}" in
  let self := of_text (T "clock { }") in
  readable props = true /\ distinct (map fst props) = true
  /\ quiet (map fst props) [] (T "object meter {" ++ [lf]) = true
  /\ addObject self (T "meter") props (T "end")
     = Passed (of_text (T "clock { }" ++ [lf] ++ obj ++ T ";" ++ [lf]))
  /\ extractObject (of_text (T "clock { }" ++ [lf] ++ obj ++ T ";" ++ [lf])) 10
     = ObjDict 10 103 obj
  /\ exists s,
       extractProperties obj [T "parent"]
       = Ok [(T "parent", PropVal (T "sub_1") s (s + 6))].
Proof.
  cbv zeta.
  pose proof (addObject_read_back (of_text (T "clock { }")) (T "meter")
                [(T "name", T "swing_meter"); (T "parent", T "sub_1");
                 (T "phases", T "ABCN"); (T "nominal_voltage", T "7200.0")]
                eq_refl eq_refl eq_refl eq_refl) as H.
  cbv zeta in H. destruct H as (_ & _ & Hend & Hobj & Hread).
  split; [reflexivity|]. split; [reflexivity|]. split; [reflexivity|].
  split; [exact Hend|]. split; [exact Hobj|].
  destruct (Hread (T "parent") (T "sub_1") (or_intror (or_introl eq_refl)))
    as (s & Hs & _).
  exists s. exact Hs.
Defined.

End AddObject.
(** Texts equal up to the grouping of their pieces. *)
Ltac text_eq :=
  repeat first [rewrite <- app_assoc
               | progress cbn [app T list_ascii_of_string]];
  reflexivity.

Section Singletons.

Lemma replaceObject_flat self head body rest new :
  strModel self = head ++ "{"%char :: body ++ "}"%char :: rest ->
  replaceObject self
    (ObjDict 0 (0 + length head + length body + 2) new)
  = set_strModel self (new ++ rest).
Proof.
  intros E. unfold replaceObject. cbn [o_start o_end o_obj firstn app].
  rewrite E. f_equal. f_equal.
  replace (0 + length head + length body + 2)
    with (length (head ++ "{"%char :: body ++ ["}"%char]))
    by (rewrite !length_app; cbn [length]; rewrite length_app; cbn [length]; lia).
  replace (head ++ "{"%char :: body ++ "}"%char :: rest)
    with ((head ++ "{"%char :: body ++ ["}"%char]) ++ rest).
  - apply skipn_len_app.
  - rewrite <- !app_assoc. cbn [app]. rewrite <- app_assoc. reflexivity.
Qed.

Lemma set_strModel_same self : set_strModel self (strModel self) = self.
Proof. destruct self; reflexivity. Qed.

(** A second write of a block of readable lines finds every statement
    in place. *)
Lemma block_rewrite self head props pd rest :
  brace_free head = true ->
  readable props = true -> distinct (map fst props) = true ->
  quiet (map fst props) [] (head ++ T "{" ++ [lf]) = true ->
  (forall k v, In (k, v) pd -> In (k, v) props) ->
  strModel self = head ++ T "{" ++ [lf] ++ prop_lines props ++ T "}" ++ rest ->
  let pf := extractObject self 0 in
  (obj' <- modObjProps (o_obj pf) pd ;;
   Ok (replaceObject self (ObjDict (o_start pf) (o_end pf) obj')))
  = Ok self.
Proof.
  intros Hh Hr Hd Hq Hsub E. cbv zeta.
  assert (E' : strModel self
               = [] ++ head ++ "{"%char :: (lf :: prop_lines props)
                   ++ "}"%char :: rest).
  { rewrite E. reflexivity. }
  assert (Hb : brace_free (lf :: prop_lines props) = true).
  { change (lf :: prop_lines props) with ([lf] ++ prop_lines props).
    rewrite brace_free_app, (readable_brace_free props Hr). reflexivity. }
  pose proof (extractObject_flat self [] head (lf :: prop_lines props) rest
                Hh Hb E') as Hx.
  change (length (@nil ascii)) with 0 in Hx. rewrite Hx.
  cbn [o_obj o_start o_end].
  rewrite (modObjProps_settled pd).
  - cbn [bind]. f_equal.
    rewrite (replaceObject_flat self head (lf :: prop_lines props) rest _ E').
    rewrite <- (set_strModel_same self) at 2. f_equal. rewrite E.
    repeat first [rewrite <- app_assoc
                 | progress cbn [app T list_ascii_of_string]].
    reflexivity.
  - intros k v Hin. apply Hsub in Hin.
    destruct (readable_in props k v Hr Hin) as (Hk & Hv & _).
    split; [exact Hk|]. split; [exact Hv|].
    replace (head ++ "{"%char :: (lf :: prop_lines props) ++ ["}"%char])
      with (((head ++ T "{") ++ [lf]) ++ prop_lines props ++ T "}")
      by (rewrite <- !app_assoc; reflexivity).
    apply readable_settled; try assumption; [reflexivity|].
    intros q Hq'. unfold quiet in Hq. rewrite forallb_forall in Hq.
    rewrite <- app_assoc. exact (Hq q Hq').
Qed.

(** X9. Without a powerflow module in the model, [updatePowerflow]
    writes one in front of it and keeps the old text after it. The next
    call finds that module at offset 0, and when the values can be read
    back, a second call with the same arguments changes nothing. *)
Theorem updatePowerflow_created self solver_method line_capacitance lu_solver :
  let props :=
    [(T "solver_method", solver_method);
     (T "line_capacitance", line_capacitance)]
    ++ (if truthy lu_solver then [(T "lu_solver", str_of lu_solver)] else []) in
  let self' :=
    set_strModel self
      (T "module powerflow {" ++ [lf] ++ prop_lines props ++ T "};" ++ [lf]
         ++ strModel self) in
  search POWERFLOW_REGEX (strModel self) 0 = None ->
  updatePowerflow self solver_method line_capacitance lu_solver = Ok self'
  /\ search POWERFLOW_REGEX (strModel self') 0 = Some (0, 16)
  /\ (readable props = true ->
      updatePowerflow self' solver_method line_capacitance lu_solver = Ok self').
Proof.
  intros props self' Hnone.
  split; [|split].
  - unfold updatePowerflow. rewrite Hnone. subst self' props. f_equal. f_equal.
    destruct (truthy lu_solver); cbn [app prop_lines flat_map fst snd];
      unfold prop_line; text_eq.
  - reflexivity.
  - intros Hr. unfold updatePowerflow.
    replace (search POWERFLOW_REGEX (strModel self') 0) with (Some (0, 16))
      by reflexivity.
    cbn [fst].
    apply (block_rewrite self' (T "module powerflow ") props _
             (T ";" ++ [lf] ++ strModel self)); try assumption.
    + reflexivity.
    + subst props. destruct (truthy lu_solver); reflexivity.
    + subst props. destruct (truthy lu_solver); reflexivity.
    + intros k v Hin. exact Hin.
    + subst self'. cbn [strModel set_strModel]. text_eq.
Qed.

Lemma updatePowerflow_created_witness :
  let self := of_text (T "object node { }") in
  let klu := [dq] ++ T "KLU" ++ [dq] in
  let self' :=
    of_text (T "module powerflow {" ++ [lf] ++ T "  solver_method NR;" ++ [lf]
               ++ T "  line_capacitance TRUE;" ++ [lf]
               ++ T "  lu_solver " ++ klu ++ T ";" ++ [lf] ++ T "};" ++ [lf]
               ++ T "object node { }") in
  search POWERFLOW_REGEX (strModel self) 0 = None
  /\ readable [(T "solver_method", T "NR"); (T "line_capacitance", T "TRUE");
               (T "lu_solver", klu)] = true
  /\ updatePowerflow self (T "NR") (T "TRUE") (Some klu) = Ok self'
  /\ updatePowerflow self' (T "NR") (T "TRUE") (Some klu) = Ok self'.
Proof.
  cbv zeta.
  pose proof (updatePowerflow_created (of_text (T "object node { }"))
                (T "NR") (T "TRUE") (Some ([dq] ++ T "KLU" ++ [dq])) eq_refl)
    as (H1 & _ & H2).
  split; [reflexivity|]. split; [reflexivity|].
  split; [exact H1|exact (H2 eq_refl)].
Defined.

(** X10. Without a clock in the model, [updateClock] writes one in
    front of it, time zone first and the times in single quotes, and
    keeps the old text after it. The next call finds that clock at
    offset 0, and when the values can be read back a second call with
    the same arguments changes nothing. *)
Theorem updateClock_created self starttime stoptime timezone :
  let props :=
    (if truthy timezone then [(T "timezone", str_of timezone)] else [])
    ++ (if truthy starttime
        then [(T "starttime", quoted (str_of starttime))] else [])
    ++ (if truthy stoptime
        then [(T "stoptime", quoted (str_of stoptime))] else []) in
  let self' :=
    set_strModel self
      (T "clock {" ++ [lf] ++ prop_lines props ++ T "}" ++ [lf]
         ++ strModel self) in
  search CLOCK_REGEX (strModel self) 0 = None ->
  updateClock self starttime stoptime timezone = Ok self'
  /\ search CLOCK_REGEX (strModel self') 0 = Some (0, 6)
  /\ (readable props = true ->
      updateClock self' starttime stoptime timezone = Ok self').
Proof.
  intros props self' Hnone.
  split; [|split].
  - unfold updateClock. rewrite Hnone. subst self' props. f_equal. f_equal.
    destruct (truthy timezone), (truthy starttime), (truthy stoptime);
      cbn [app prop_lines flat_map fst snd]; unfold prop_line; text_eq.
  - reflexivity.
  - intros Hr. unfold updateClock.
    replace (search CLOCK_REGEX (strModel self') 0) with (Some (0, 6))
      by reflexivity.
    cbn [fst].
    apply (block_rewrite self' (T "clock ") props _
             (lf :: strModel self)); try assumption.
    + reflexivity.
    + subst props.
      destruct (truthy timezone), (truthy starttime), (truthy stoptime);
        reflexivity.
    + subst props.
      destruct (truthy timezone), (truthy starttime), (truthy stoptime);
        reflexivity.
    + intros k v Hin. subst props.
      destruct (truthy timezone), (truthy starttime), (truthy stoptime);
        cbn [app In] in *; tauto.
    + subst self'. cbn [strModel set_strModel]. text_eq.
Qed.

Lemma updateClock_created_witness :
  let self := of_text (T "object node { }") in
  let self' :=
    of_text (T "clock {" ++ [lf] ++ T "  timezone PST+8PDT;" ++ [lf]
               ++ T "  starttime '2017-01-01 00:00:00';" ++ [lf]
               ++ T "  stoptime '2017-01-02 00:00:00';" ++ [lf]
               ++ T "}" ++ [lf] ++ T "object node { }") in
  search CLOCK_REGEX (strModel self) 0 = None
  /\ updateClock self (Some (T "2017-01-01 00:00:00"))
       (Some (T "2017-01-02 00:00:00")) (Some (T "PST+8PDT")) = Ok self'
  /\ updateClock self' (Some (T "2017-01-01 00:00:00"))
       (Some (T "2017-01-02 00:00:00")) (Some (T "PST+8PDT")) = Ok self'.
Proof.
  cbv zeta.
  pose proof (updateClock_created (of_text (T "object node { }"))
                (Some (T "2017-01-01 00:00:00"))
                (Some (T "2017-01-02 00:00:00")) (Some (T "PST+8PDT")) eq_refl)
    as (H1 & _ & H2).
  split; [reflexivity|]. split; [exact H1|exact (H2 eq_refl)].
Defined.

End Singletons.
(** ** Writing a property twice *)
Section WriteTwice.





End WriteTwice.
(** ** addTapePlayer *)
Section TapePlayer.

Lemma drop_while_snoc f (x : text) c :
  f c = true ->
  drop_while f (x ++ [c])
  = match drop_while f x with [] => [] | y => y ++ [c] end.
Proof.
  intros Hc. induction x as [|a x IH]; cbn [app drop_while].
  - rewrite Hc. reflexivity.
  - destruct (f a); [exact IH|reflexivity].
Qed.

(** Quotes written around a text are stripped with those it has. *)
Lemma strip_quoted (x : text) :
  strip is_dq (strip is_space ([dq] ++ x ++ [dq])) = strip is_dq x.
Proof.
  assert (H1 : strip is_space ([dq] ++ x ++ [dq]) = [dq] ++ x ++ [dq]).
  { unfold strip. cbn [app drop_while]. change (is_space dq) with false.
    cbn iota. cbn [rev]. rewrite rev_app_distr. cbn [rev app drop_while].
    change (is_space dq) with false. cbn iota. cbn [rev].
    rewrite rev_app_distr, rev_involutive. reflexivity. }
  rewrite H1. unfold strip. cbn [app drop_while].
  change (is_dq dq) with true. cbn iota.
  rewrite (drop_while_snoc is_dq x dq eq_refl).
  destruct (drop_while is_dq x) as [|a y] eqn:E; [reflexivity|].
  rewrite rev_app_distr. cbn [rev app drop_while].
  change (is_dq dq) with true. cbn iota. reflexivity.
Qed.

Lemma extractObject_block self pre head props rest :
  brace_free head = true -> readable props = true ->
  let blk := head ++ T "{" ++ [lf] ++ prop_lines props ++ T "}" in
  strModel self = pre ++ blk ++ rest ->
  extractObject self (length pre)
  = ObjDict (length pre) (length pre + length blk) blk.
Proof.
  intros Hh Hr blk E.
  rewrite (extractObject_flat self pre head (lf :: prop_lines props) rest).
  - subst blk. f_equal; try text_eq.
    repeat first [rewrite length_app
                 | progress cbn [length T list_ascii_of_string app]].
    lia.
  - exact Hh.
  - change (lf :: prop_lines props) with ([lf] ++ prop_lines props).
    rewrite brace_free_app, (readable_brace_free props Hr). reflexivity.
  - rewrite E. subst blk. text_eq.
Qed.

Lemma extractObject_lines self pre head props rest :
  brace_free head = true -> brace_free (prop_lines props) = true ->
  let blk := head ++ T "{" ++ [lf] ++ prop_lines props ++ T "}" in
  strModel self = pre ++ blk ++ rest ->
  extractObject self (length pre)
  = ObjDict (length pre) (length pre + length blk) blk.
Proof.
  intros Hh Hb blk E.
  rewrite (extractObject_flat self pre head (lf :: prop_lines props) rest).
  - subst blk. f_equal; try text_eq.
    repeat first [rewrite length_app
                 | progress cbn [length T list_ascii_of_string app]].
    lia.
  - exact Hh.
  - change (lf :: prop_lines props) with ([lf] ++ prop_lines props).
    rewrite brace_free_app, Hb. reflexivity.
  - rewrite E. subst blk. text_eq.
Qed.

(** X12. The player written by [addTapePlayer] can be found and read
    again. Whatever the arguments, the model gains the player object in
    front, preceded by the class block that exposes the value exactly
    when neither parent nor property is given. When no value holds a
    brace, [extractObject] at the start of the player returns the
    object. When the values can be read back, every one of them is
    returned by [extractProperties], the file name without the double
    quotes written around it. *)
Theorem addTapePlayer_read_back self name file parent prop loop :
  let props :=
    [(T "name", name); (T "file", [dq] ++ file ++ [dq]); (T "loop", loop)]
    ++ (if truthy parent then [(T "parent", str_of parent)] else [])
    ++ (if truthy prop then [(T "property", str_of prop)] else []) in
  let obj := T "object tape.player {" ++ [lf] ++ prop_lines props ++ T "}" in
  let class :=
    if negb (truthy parent) && negb (truthy prop)
    then T "class player {" ++ [lf] ++ T "  double value;" ++ [lf]
         ++ T "}" ++ [lf]
    else [] in
  let self' := addTapePlayer self name file parent prop loop in
  strModel self' = class ++ obj ++ [lf] ++ strModel self
  /\ pathModelIn self' = pathModelIn self
  /\ pathModelOut self' = pathModelOut self
  /\ (brace_free (prop_lines props) = true ->
      extractObject self' (length class)
      = ObjDict (length class) (length class + length obj) obj)
  /\ (readable props = true ->
      (forall k v, In (k, v) props ->
         exists s,
           extractProperties obj [k]
           = Ok [(k, PropVal (strip is_dq (strip is_space v)) s
                       (s + S (length v)))])
      /\ (exists s,
            extractProperties obj [T "file"]
            = Ok [(T "file", PropVal (strip is_dq file) s
                               (s + S (S (S (length file)))))])).
Proof.
  intros props obj class self'.
  assert (Hm : strModel self' = class ++ obj ++ [lf] ++ strModel self).
  { subst self' class obj props. unfold addTapePlayer.
    destruct (truthy parent), (truthy prop);
      cbn [negb andb strModel set_strModel app prop_lines flat_map fst snd];
      unfold prop_line; text_eq. }
  split; [exact Hm|]. split; [reflexivity|]. split; [reflexivity|].
  split.
  - intros Hb.
    apply (extractObject_lines self' class (T "object tape.player ") props
             (lf :: strModel self) eq_refl Hb).
    rewrite Hm. subst obj. text_eq.
  - intros Hr.
    assert (Hread : forall k v, In (k, v) props ->
              exists s,
                extractProperties obj [k]
                = Ok [(k, PropVal (strip is_dq (strip is_space v)) s
                            (s + S (length v)))]).
    { intros k v Hin.
      destruct (readable_in props k v Hr Hin) as (Hk & Hv & _).
      destruct (settled_read k v obj Hk Hv) as (s & Hs & _); [|eauto].
      subst obj.
      change (T "object tape.player {" ++ [lf] ++ prop_lines props ++ T "}")
        with ((T "object tape.player {" ++ [lf]) ++ prop_lines props ++ T "}").
      apply readable_settled; try assumption.
      - subst props. destruct (truthy parent), (truthy prop); reflexivity.
      - reflexivity.
      - intros q Hq. subst props.
        destruct (truthy parent), (truthy prop); cbn [app map fst In] in Hq;
          repeat (destruct Hq as [<-|Hq]; [reflexivity|]); destruct Hq. }
    split; [exact Hread|].
    destruct (Hread (T "file") ([dq] ++ file ++ [dq])) as (s & Hs).
    { subst props. right. left. reflexivity. }
    exists s. rewrite Hs, strip_quoted. repeat f_equal.
    rewrite !length_app. cbn [length]. lia.
Qed.

Lemma addTapePlayer_read_back_witness :
  let self' :=
    addTapePlayer (of_text (T "clock { }")) (T "zip_player") (T "zip.csv")
      None None (T "0") in
  let props := [(T "name", T "zip_player");
                (T "file", [dq] ++ T "zip.csv" ++ [dq]); (T "loop", T "0")] in
  let obj := T "object tape.player {" ++ [lf] ++ T "  name zip_player;" ++ [lf]
             ++ T "  file " ++ [dq] ++ T "zip.csv" ++ [dq] ++ T ";" ++ [lf]
             ++ T "  loop 0;" ++ [lf] ++ T "}" in
  brace_free (prop_lines props) = true
  /\ readable props = true
  /\ extractObject self' 33 = ObjDict 33 (33 + length obj) obj
  /\ exists s,
       extractProperties obj [T "file"]
       = Ok [(T "file", PropVal (T "zip.csv") s (s + 10))].
Proof.
  cbv zeta.
  pose proof (addTapePlayer_read_back (of_text (T "clock { }"))
                (T "zip_player") (T "zip.csv") None None (T "0"))
    as (_ & _ & _ & Hobj & Hread).
  split; [reflexivity|]. split; [reflexivity|].
  split; [exact (Hobj eq_refl)|exact (proj2 (Hread eq_refl))].
Defined.

End TapePlayer.
(** ** addMetricsCollectorWriter *)
Section MetricsWriter.

Lemma strip_keep f c (x : text) d :
  f c = false -> f d = false -> strip f (c :: x ++ [d]) = c :: x ++ [d].
Proof.
  intros Hc Hd. unfold strip. cbn [drop_while]. rewrite Hc.
  change (c :: x ++ [d]) with ((c :: x) ++ [d]).
  rewrite rev_app_distr. cbn [rev app drop_while]. rewrite Hd.
  change (d :: rev x ++ [c]) with ([d] ++ rev (c :: x)).
  rewrite rev_app_distr, rev_involutive. reflexivity.
Qed.

Lemma object_text_read objType props k v :
  readable props = true -> distinct (map fst props) = true ->
  quiet (map fst props) [] (T "object " ++ objType ++ T " {" ++ [lf]) = true ->
  In (k, v) props ->
  exists s,
    extractProperties (object_text objType props) [k]
    = Ok [(k, PropVal (strip is_dq (strip is_space v)) s (s + S (length v)))].
Proof.
  intros Hr Hd Hq Hin.
  destruct (readable_in props k v Hr Hin) as (Hk & Hv & _).
  destruct (settled_read k v (object_text objType props) Hk Hv) as (s & Hs & _);
    [|eauto].
  unfold object_text.
  replace (T "object " ++ objType ++ T " {" ++ [lf] ++ prop_lines props ++ T "}")
    with (((T "object " ++ objType ++ T " {") ++ [lf]) ++ prop_lines props ++ T "}")
    by (rewrite <- !app_assoc; reflexivity).
  apply readable_settled; try assumption; [reflexivity|].
  intros q Hq'. unfold quiet in Hq. rewrite forallb_forall in Hq.
  rewrite <- app_assoc. rewrite <- app_assoc. exact (Hq q Hq').
Qed.

(** X18. [addMetricsCollectorWriter] never stops at the assertion of
    [addObject]: whatever interval and suffix are, it appends the writer
    object after a line feed at the end of the model and returns the
    file name [metrics.json], or [metrics_<suffix>.json] for a non-empty
    suffix. When interval and suffix hold no brace, [extractObject] at
    the offset after the old model returns the writer object, and when
    interval and file name can be read back, [extractProperties] returns
    the same file name from it. *)
Theorem addMetricsCollectorWriter_read_back self interval suffix :
  let fName :=
    T "metrics" ++ match suffix with [] => [] | _ => T "_" ++ suffix end
      ++ T ".json" in
  let props := [(T "interval", interval); (T "filename", fName)] in
  let obj := object_text (T "metrics_collector_writer") props in
  let self' :=
    set_strModel self (strModel self ++ [lf] ++ obj ++ T ";" ++ [lf]) in
  addMetricsCollectorWriter self interval suffix = Passed (fName, self')
  /\ (brace_free (interval ++ suffix) = true ->
      extractObject self' (length (strModel self) + 1)
      = ObjDict (length (strModel self) + 1)
          (length (strModel self) + 1 + length obj) obj)
  /\ (readable props = true ->
      exists s,
        extractProperties obj [T "filename"]
        = Ok [(T "filename", PropVal fName s (s + S (length fName)))]).
Proof.
  intros fName props obj self'. split; [|split].
  - unfold addMetricsCollectorWriter. rewrite addObject_text.
    cbn [text_eqb]. subst self' obj props fName.
    destruct suffix; reflexivity.
  - intros Hb. rewrite brace_free_app in Hb. apply andb_true_iff in Hb.
    destruct Hb as [Hi Hs].
    assert (Hl : brace_free (prop_lines props) = true).
    { subst props fName. cbn [prop_lines flat_map fst snd]. unfold prop_line.
      rewrite !brace_free_app, Hi.
      destruct suffix as [|c suffix]; [reflexivity|].
      rewrite !brace_free_app, Hs. reflexivity. }
    replace (length (strModel self) + 1) with (length (strModel self ++ [lf]))
      by (rewrite length_app; reflexivity).
    apply (extractObject_lines self' (strModel self ++ [lf])
             (T "object metrics_collector_writer ") props (T ";" ++ [lf])
             eq_refl Hl).
    subst self' obj. unfold object_text. cbn [strModel set_strModel]. text_eq.
  - intros Hr.
    destruct (object_text_read (T "metrics_collector_writer") props
                (T "filename") fName Hr eq_refl eq_refl
                (or_intror (or_introl eq_refl))) as (s & Hs).
    exists s. subst obj. rewrite Hs. f_equal. f_equal. f_equal. f_equal.
    subst fName.
    change (T "metrics" ++ match suffix with
                           | [] => []
                           | _ :: _ => T "_" ++ suffix
                           end ++ T ".json")
      with ("m"%char :: (T "etrics" ++ match suffix with
                                       | [] => []
                                       | _ :: _ => T "_" ++ suffix
                                       end ++ T ".json")).
    replace (T "etrics" ++ match suffix with
                           | [] => []
                           | _ :: _ => T "_" ++ suffix
                           end ++ T ".json")
      with ((T "etrics" ++ match suffix with
                           | [] => []
                           | _ :: _ => T "_" ++ suffix
                           end ++ T ".jso") ++ ["n"%char])
      by (rewrite <- !app_assoc; reflexivity).
    rewrite (strip_keep is_space) by reflexivity.
    rewrite (strip_keep is_dq) by reflexivity. reflexivity.
Qed.

Lemma addMetricsCollectorWriter_read_back_witness :
  let obj := T "object metrics_collector_writer {" ++ [lf]
             ++ T "  interval 60;" ++ [lf]
             ++ T "  filename metrics_run1.json;" ++ [lf] ++ T "}" in
  let self' := of_text (T "clock { }" ++ [lf] ++ obj ++ T ";" ++ [lf]) in
  brace_free (T "60" ++ T "run1") = true
  /\ readable [(T "interval", T "60"); (T "filename", T "metrics_run1.json")]
     = true
  /\ addMetricsCollectorWriter (of_text (T "clock { }")) (T "60") (T "run1")
     = Passed (T "metrics_run1.json", self')
  /\ extractObject self' 10 = ObjDict 10 (10 + length obj) obj
  /\ exists s,
       extractProperties obj [T "filename"]
       = Ok [(T "filename", PropVal (T "metrics_run1.json") s (s + 18))].
Proof.
  cbv zeta.
  pose proof (addMetricsCollectorWriter_read_back (of_text (T "clock { }"))
                (T "60") (T "run1")) as (H1 & H2 & H3).
  split; [reflexivity|]. split; [reflexivity|].
  split; [exact H1|]. split; [exact (H2 eq_refl)|exact (H3 eq_refl)].
Defined.

End MetricsWriter.
(** ** helper.py and gld.py *)
Section Helpers.
Import Helper Gld.
Local Open Scope Z_scope.

Lemma bin2int_loop_app : forall xs ys n k,
  bin2int_loop (xs ++ ys) n k
  = bin2int_loop ys (bin2int_loop xs n k) (k + Z.of_nat (length xs)).
Proof.
  induction xs as [|x xs IH]; intros ys n k; cbn [app bin2int_loop length].
  - f_equal. lia.
  - rewrite IH. f_equal. lia.
Qed.

Lemma bin2int_loop_shift : forall xs n k,
  0 <= k -> bin2int_loop xs n k = n + 2 ^ k * bin2int_loop xs 0 0.
Proof.
  induction xs as [|x xs IH]; intros n k Hk; cbn [bin2int_loop].
  - lia.
  - rewrite (IH (n + x * 2 ^ k) (k + 1)) by lia.
    rewrite (IH (0 + x * 2 ^ 0) (0 + 1)) by lia.
    rewrite Z.pow_add_r by lia. change (2 ^ 0) with 1. change (2 ^ 1) with 2.
    change (0 + 1) with 1. change (2 ^ 1) with 2. ring.
Qed.

(** The first digit weighs most. *)
Lemma bin2int_cons b bs :
  bin2int (b :: bs) = b * 2 ^ Z.of_nat (length bs) + bin2int bs.
Proof.
  unfold bin2int. cbn [rev]. rewrite bin2int_loop_app. cbn [bin2int_loop].
  rewrite length_rev. change (0 + Z.of_nat (length bs)) with (Z.of_nat (length bs)).
  ring.
Qed.

Lemma bin2int_range bs : bits bs -> 0 <= bin2int bs < 2 ^ Z.of_nat (length bs).
Proof.
  induction 1 as [|b bs Hb _ IH].
  - cbv. split; [discriminate|reflexivity].
  - rewrite bin2int_cons. cbn [length]. rewrite Nat2Z.inj_succ, Z.pow_succ_r by lia.
    assert (0 < 2 ^ Z.of_nat (length bs)) by (apply Z.pow_pos_nonneg; lia).
    destruct Hb as [-> | ->]; lia.
Qed.

(** X15. [bin2int] reads a list of binary digits with the first digit
    weighing most: the value lies below 2 to the number of digits, a
    leading zero changes nothing, and two digit lists of the same length
    with the same value are the same list. *)
Theorem bin2int_bits bs :
  bits bs ->
  0 <= bin2int bs < 2 ^ Z.of_nat (length bs)
  /\ bin2int (0 :: bs) = bin2int bs
  /\ bin2int (bs ++ [0]) = 2 * bin2int bs
  /\ bin2int (bs ++ [1]) = 2 * bin2int bs + 1
  /\ forall bs', bits bs' -> length bs' = length bs ->
       bin2int bs' = bin2int bs -> bs' = bs.
Proof.
  intros Hb. split; [exact (bin2int_range bs Hb)|].
  split; [rewrite bin2int_cons; lia|].
  split; [|split].
  - unfold bin2int. rewrite rev_app_distr. cbn [rev app bin2int_loop].
    rewrite (bin2int_loop_shift (rev bs) _ (0 + 1)) by lia.
    change (2 ^ (0 + 1)) with 2. change (2 ^ 0) with 1. lia.
  - unfold bin2int. rewrite rev_app_distr. cbn [rev app bin2int_loop].
    rewrite (bin2int_loop_shift (rev bs) _ (0 + 1)) by lia.
    change (2 ^ (0 + 1)) with 2. change (2 ^ 0) with 1. lia.
  - induction Hb as [|b bs Hb Hbs IH]; intros bs' Hb' Hlen Heq.
    + destruct bs'; [reflexivity|discriminate].
    + destruct Hb' as [|b' bs' Hb' Hbs']; [discriminate|].
      cbn [length] in Hlen. injection Hlen as Hlen.
      rewrite !bin2int_cons, Hlen in Heq.
      pose proof (bin2int_range bs Hbs) as R.
      pose proof (bin2int_range bs' Hbs') as R'. rewrite Hlen in R'.
      assert (b' = b /\ bin2int bs' = bin2int bs) as [-> Hv].
      { destruct Hb as [-> | ->], Hb' as [-> | ->]; lia. }
      f_equal. apply IH; assumption.
Qed.

Lemma bin2int_bits_witness :
  bits [0; 1; 0; 0; 1] /\ bin2int [0; 1; 0; 0; 1] = 9
  /\ 0 <= bin2int [0; 1; 0; 0; 1] < 2 ^ 5.
Proof.
  assert (H : bits [0; 1; 0; 0; 1]) by (repeat constructor; auto).
  split; [exact H|]. split; [reflexivity|].
  exact (proj1 (bin2int_bits [0; 1; 0; 0; 1] H)).
Defined.

(** X16. [translateTaps] and [inverseTranslateTaps] undo each other, and
    positions from 0 to [lowerTaps + raiseTaps] correspond exactly to
    positions from [-lowerTaps] to [raiseTaps]. *)
Theorem translateTaps_inverse lowerTaps raiseTaps pos :
  inverseTranslateTaps lowerTaps (translateTaps lowerTaps pos) = pos
  /\ translateTaps lowerTaps (inverseTranslateTaps lowerTaps pos) = pos
  /\ (0 <= pos <= lowerTaps + raiseTaps
      <-> - lowerTaps <= translateTaps lowerTaps pos <= raiseTaps)
  /\ (- lowerTaps <= pos <= raiseTaps
      <-> 0 <= inverseTranslateTaps lowerTaps pos <= lowerTaps + raiseTaps).
Proof. unfold translateTaps, inverseTranslateTaps. lia. Qed.

Lemma replace_char_gone s : ~ In "."%char (replace_char "." "_" s).
Proof.
  unfold replace_char. intros H. apply in_map_iff in H.
  destruct H as (c & E & _). destruct (ascii_eqb c ".") eqn:Ec.
  - discriminate.
  - subst c. discriminate.
Qed.

Lemma replace_char_id s : ~ In "."%char s -> replace_char "." "_" s = s.
Proof.
  unfold replace_char. induction s as [|c s IH]; intros H; [reflexivity|].
  cbn [map]. rewrite IH by (intros H'; apply H; right; exact H').
  destruct (ascii_eqb c ".") eqn:Ec; [|reflexivity].
  apply ascii_eqb_eq in Ec. subst c. exfalso. apply H. left. reflexivity.
Qed.

(** X17. [propToCol] gives one column name per property, of the same
    length, without any period; a name without period is unchanged, and
    translating twice is the same as translating once. *)
Theorem propToCol_columns propList :
  length (propToCol propList) = length propList
  /\ (forall i, length (nth i (propToCol propList) [])
                = length (nth i propList []))
  /\ (forall col, In col (propToCol propList) -> ~ In "."%char col)
  /\ (forall s, In s propList -> ~ In "."%char s -> In s (propToCol propList))
  /\ propToCol (propToCol propList) = propToCol propList.
Proof.
  unfold propToCol. split; [apply length_map|]. split; [|split; [|split]].
  - intros i. change (@nil ascii) with (replace_char "." "_" []) at 1.
    rewrite map_nth. unfold replace_char. apply length_map.
  - intros col H. apply in_map_iff in H. destruct H as (s & <- & _).
    apply replace_char_gone.
  - intros s Hin Hs. apply in_map_iff. exists s. split; [|exact Hin].
    apply replace_char_id. exact Hs.
  - rewrite map_map. apply map_ext. intros s. apply replace_char_id.
    apply replace_char_gone.
Qed.

End Helpers.
(** ** switchControl *)
Section SwitchControl.

Lemma Matches_width r l a l' a' :
  Matches r l a l' a' ->
  exists w, a = w ++ a' /\ l' = rev w ++ l /\ min_width r <= length w.
Proof.
  induction 1; cbn [min_width].
  - exists []. repeat split; lia.
  - exists [x]. repeat split. cbn. lia.
  - exists []. repeat split; lia.
  - destruct IHMatches1 as (w1 & -> & -> & H1).
    destruct IHMatches2 as (w2 & -> & -> & H2).
    exists (w1 ++ w2). rewrite rev_app_distr, <- !app_assoc, length_app.
    repeat split. lia.
  - destruct IHMatches as (w & -> & -> & H1). exists w. repeat split. lia.
  - destruct IHMatches as (w & -> & -> & H1). exists w. repeat split. lia.
  - exists []. repeat split; lia.
  - destruct IHMatches as (w & -> & -> & H1). exists (x :: w).
    cbn [rev app]. rewrite <- app_assoc. repeat split. lia.
  - exists []. repeat split; lia.
  - exists []. repeat split; lia.
Qed.

Lemma match_here_width r l a s e :
  match_here r l a = Some (s, e) ->
  s = length l /\ s + min_width r <= e /\ e <= length l + length a.
Proof.
  intros H. unfold match_here in H.
  destruct (run r l a ret) as [[l' a']|] eqn:E; [|discriminate].
  injection H as <- <-.
  destruct (run_sound r l a ret (l', a') E) as (l1 & a1 & HM & Hret).
  unfold ret in Hret. injection Hret as <- <-.
  destruct (Matches_width _ _ _ _ _ HM) as (w & -> & -> & Hw).
  rewrite !length_app, length_rev. repeat split; lia.
Qed.

Lemma leftmost_width r : forall a l s e,
  leftmost (match_here r) l a = Some (s, e) ->
  length l <= s /\ s + min_width r <= e /\ e <= length l + length a.
Proof.
  induction a as [|x a IH]; intros l s e H; cbn [leftmost] in H.
  - destruct (match_here r l []) as [sp|] eqn:E; [|discriminate].
    injection H as ->. apply match_here_width in E. lia.
  - destruct (match_here r l (x :: a)) as [sp|] eqn:E.
    + injection H as ->. apply match_here_width in E. lia.
    + apply IH in H. cbn [length] in *. lia.
Qed.

(** A match found from [pos] on starts at or after [pos], is as long as
    the pattern needs, and ends inside the subject. *)
Lemma search_width r s pos st e :
  search r s pos = Some (st, e) ->
  Nat.min pos (length s) <= st /\ st + min_width r <= e /\ e <= length s.
Proof.
  intros H. unfold search, search_from in H. apply leftmost_width in H.
  rewrite length_rev, length_firstn, length_skipn in H. lia.
Qed.

End SwitchControl.
Section CommentSearch.

Lemma comment_tail (k : cont) :
  (forall l a c, k l a = Some c -> exists a', a = ";"%char :: a') ->
  forall a x l c,
    is_space x = false ->
    star_greedy CNotSpace k l a = Some c ->
    ends_statement (x :: a) = true.
Proof.
  intros Hk.
  induction a as [|y a IH]; intros x l c Hx H; cbn [star_greedy] in H.
  - apply Hk in H. destruct H as (? & [=]).
  - change (ends_statement (x :: y :: a))
      with ((negb (is_space x) && ascii_eqb y ";") || ends_statement (y :: a)).
    cbn [cmatch] in H. destruct (is_space y) eqn:Ey; cbn [negb] in H.
    + apply Hk in H. destruct H as (a' & [= -> ->]). discriminate.
    + destruct (star_greedy CNotSpace k (y :: l) a) eqn:E.
      * rewrite (IH y (y :: l) c0 Ey E). apply orb_true_r.
      * apply Hk in H. destruct H as (a' & [= -> ->]).
        rewrite Hx. reflexivity.
Qed.

Lemma comment_here_sound l a sp :
  match_here COMMENT_REGEX l a = Some sp -> ends_statement a = true.
Proof.
  unfold match_here, COMMENT_REGEX. cbn [run].
  destruct a as [|x a]; [discriminate|]. cbn [cmatch].
  destruct (is_space x) eqn:Ex; cbn [negb]; [discriminate|].
  destruct (star_greedy _ _ _ _) eqn:E; [|discriminate].
  intros _. refine (comment_tail _ _ a x (x :: l) c Ex E).
  intros l0 a0 c0 H0. destruct a0 as [|y a0]; [discriminate|].
  cbn [cmatch] in H0. destruct (ascii_eqb y ";") eqn:Ey; [|discriminate].
  apply ascii_eqb_eq in Ey. subst. eauto.
Qed.

Lemma comment_here_pair l x a :
  is_space x = false ->
  match_here COMMENT_REGEX l (x :: ";"%char :: a) <> None.
Proof.
  intros Hx. unfold match_here, COMMENT_REGEX. cbn [run cmatch]. rewrite Hx.
  cbn [negb star_greedy cmatch].
  change (is_space ";") with false. cbn [negb].
  destruct (star_greedy _ _ _ a) as [[? ?]|]; [discriminate|].
  cbn [run cmatch ascii_eqb]. rewrite ascii_eqb_refl. unfold ret. discriminate.
Qed.

Lemma comment_leftmost : forall a l,
  is_none (leftmost (match_here COMMENT_REGEX) l a) = negb (ends_statement a).
Proof.
  induction a as [|x a IH]; intros l.
  - reflexivity.
  - cbn [leftmost].
    destruct (match_here COMMENT_REGEX l (x :: a)) as [sp|] eqn:E.
    + rewrite (comment_here_sound _ _ _ E). reflexivity.
    + rewrite IH. destruct a as [|y a]; [reflexivity|].
      change (ends_statement (x :: y :: a))
        with ((negb (is_space x) && ascii_eqb y ";")
              || ends_statement (y :: a)).
      destruct (negb (is_space x) && ascii_eqb y ";") eqn:P; [|reflexivity].
      apply andb_true_iff in P. destruct P as [Px Py].
      apply negb_true_iff in Px. apply ascii_eqb_eq in Py. subst y.
      exfalso. exact (comment_here_pair l x a Px E).
Qed.

(** [COMMENT_REGEX] finds a match from [e] on exactly when a statement
    ends somewhere in the rest of the model. *)
Lemma comment_search m e :
  is_none (search COMMENT_REGEX m e) = negb (ends_statement (skipn e m)).
Proof. unfold search, search_from. apply comment_leftmost. Qed.

End CommentSearch.
Section SwitchControlEnds.

Lemma switchControl_loop_ends : forall fuel self c,
  length (strModel self) - c < fuel ->
  exists self',
    switchControl_loop fuel self (search CONTROL_REGEX (strModel self) c)
    = Some self'
    /\ Subseq (strModel self') (strModel self)
    /\ pathModelIn self' = pathModelIn self
    /\ pathModelOut self' = pathModelOut self.
Proof.
  induction fuel as [|fuel IH]; intros self c Hf; [lia|].
  destruct (search CONTROL_REGEX (strModel self) c) as [[s e]|] eqn:Es.
  - apply search_width in Es. change (min_width CONTROL_REGEX) with 9 in Es.
    cbn [switchControl_loop].
    match goal with
    | |- context [switchControl_loop fuel ?s1 _] => set (self1 := s1)
    end.
    assert (H1 : length (strModel self1) <= length (strModel self)
                 /\ Subseq (strModel self1) (strModel self)
                 /\ pathModelIn self1 = pathModelIn self
                 /\ pathModelOut self1 = pathModelOut self).
    { subst self1.
      destruct (is_none (search COMMENT_REGEX (strModel self) e)).
      - repeat split; [lia|apply Subseq_refl].
      - cbn [strModel set_strModel pathModelIn pathModelOut].
        repeat split; [|apply Subseq_cut; lia].
        rewrite length_app, length_firstn, length_skipn. lia. }
    destruct H1 as (Hlen & Hsub & Hin & Hout).
    destruct (IH self1 e ltac:(lia)) as (self' & Hloop & Hs' & Hi' & Ho').
    exists self'. rewrite Hloop. split; [reflexivity|].
    split; [exact (Subseq_trans _ _ _ Hs' Hsub)|]. split; congruence.
  - exists self. cbn [switchControl_loop]. split; [reflexivity|].
    split; [apply Subseq_refl|]. split; reflexivity.
Qed.

(** The model after one pass of the loop for the match [(s, e)]. *)
Lemma switchControl_loop_step fuel self s e :
  switchControl_loop (S fuel) self (Some (s, e))
  = let m := strModel self in
    let self1 :=
      if ends_statement (skipn e m)
      then set_strModel self (firstn s m ++ skipn e m) else self in
    switchControl_loop fuel self1 (search CONTROL_REGEX (strModel self1) e).
Proof.
  cbn [switchControl_loop]. cbv zeta. rewrite comment_search.
  destruct (ends_statement (skipn e (strModel self))); reflexivity.
Qed.

(** What stands before the cursor is never changed again. *)
Lemma switchControl_loop_prefix : forall fuel self c self',
  switchControl_loop fuel self (search CONTROL_REGEX (strModel self) c)
  = Some self' ->
  firstn c (strModel self') = firstn c (strModel self).
Proof.
  induction fuel as [|fuel IH]; intros self c self' H;
    destruct (search CONTROL_REGEX (strModel self) c) as [[s e]|] eqn:Es;
    try (cbn [switchControl_loop] in H; congruence).
  apply search_width in Es. change (min_width CONTROL_REGEX) with 9 in Es.
  rewrite switchControl_loop_step in H. cbv zeta in H.
  apply IH in H.
  assert (Hc : c <= s) by lia.
  assert (He : firstn c (strModel self') = firstn c (firstn e (strModel self')))
    by (rewrite firstn_firstn; f_equal; lia).
  rewrite He, H, firstn_firstn. replace (Nat.min c e) with c by lia.
  destruct (ends_statement (skipn e (strModel self))); [|reflexivity].
  cbn [strModel set_strModel].
  rewrite firstn_app, length_firstn, firstn_firstn.
  replace (c - Nat.min s (length (strModel self))) with 0 by lia.
  replace (Nat.min c s) with c by lia.
  cbn [firstn]. apply app_nil_r.
Qed.

(** Without a statement after any control match nothing is removed. *)
Lemma switchControl_loop_same self :
  (forall c s e, search CONTROL_REGEX (strModel self) c = Some (s, e) ->
     ends_statement (skipn e (strModel self)) = false) ->
  forall fuel c,
    length (strModel self) - c < fuel ->
    switchControl_loop fuel self (search CONTROL_REGEX (strModel self) c)
    = Some self.
Proof.
  intros Hn. induction fuel as [|fuel IH]; intros c Hf; [lia|].
  destruct (search CONTROL_REGEX (strModel self) c) as [[s e]|] eqn:Es;
    [|reflexivity].
  rewrite switchControl_loop_step. cbv zeta. rewrite (Hn c s e Es).
  apply search_width in Es. change (min_width CONTROL_REGEX) with 9 in Es.
  apply IH. lia.
Qed.

(** X19. [switchControl] always terminates: every match of the control
    pattern takes at least nine characters and the next search starts at
    its end. The paths are unchanged and the model left behind is the
    old one with characters left out. A match is cut out exactly when,
    anywhere in the rest of the model after its end, a character that is
    not blank stands directly before a semicolon; a statement on a later
    line is enough. So when no match is followed by such a statement
    nothing is removed, and when the first match is followed by one and
    no further match is found from the old end offset in the cut model,
    the result is the model without the first match. Because the cursor
    is the end of the match in the text before the cut, the characters
    that follow the cut, as many as were cut out, are kept whatever they
    hold, a control statement included. *)
Theorem switchControl_ends self :
  let m := strModel self in
  (exists self',
      switchControl self = Some self'
      /\ Subseq (strModel self') m
      /\ pathModelIn self' = pathModelIn self
      /\ pathModelOut self' = pathModelOut self)
  /\ ((forall c s e, search CONTROL_REGEX m c = Some (s, e) ->
         ends_statement (skipn e m) = false) ->
      switchControl self = Some self)
  /\ (forall s e,
        search CONTROL_REGEX m 0 = Some (s, e) ->
        ends_statement (skipn e m) = true ->
        (exists self',
            switchControl self = Some self'
            /\ firstn e (strModel self')
               = firstn s m ++ firstn (e - s) (skipn e m))
        /\ (search CONTROL_REGEX (firstn s m ++ skipn e m) e = None ->
            switchControl self
            = Some (set_strModel self (firstn s m ++ skipn e m))))
  /\ (forall s e,
        search CONTROL_REGEX m 0 = Some (s, e) ->
        ends_statement (skipn e m) = false ->
        exists self',
          switchControl self = Some self'
          /\ firstn e (strModel self') = firstn e m).
Proof.
  intros m.
  assert (Hends : exists self',
             switchControl self = Some self'
             /\ Subseq (strModel self') m
             /\ pathModelIn self' = pathModelIn self
             /\ pathModelOut self' = pathModelOut self).
  { unfold switchControl. apply switchControl_loop_ends. lia. }
  assert (Hfirst : forall s e,
             search CONTROL_REGEX m 0 = Some (s, e) ->
             let self1 :=
               if ends_statement (skipn e m)
               then set_strModel self (firstn s m ++ skipn e m) else self in
             s + 9 <= e <= length m
             /\ switchControl self
                = switchControl_loop (length m) self1
                    (search CONTROL_REGEX (strModel self1) e)).
  { intros s e Hs. split.
    - apply search_width in Hs.
      change (min_width CONTROL_REGEX) with 9 in Hs. lia.
    - unfold switchControl. fold m. rewrite Hs.
      apply switchControl_loop_step. }
  split; [exact Hends|]. split; [|split].
  - intros Hn. unfold switchControl.
    apply switchControl_loop_same; [exact Hn|lia].
  - intros s e Hs He.
    destruct (Hfirst s e Hs) as (Hw & Hsw). rewrite He in Hsw.
    destruct Hends as (self' & Hr & _). split.
    + exists self'. split; [exact Hr|].
      rewrite Hsw in Hr. apply switchControl_loop_prefix in Hr.
      rewrite Hr. cbn [strModel set_strModel].
      rewrite firstn_app, length_firstn, firstn_firstn.
      replace (Nat.min e s) with s by lia.
      replace (e - Nat.min s (length m)) with (e - s) by lia.
      reflexivity.
    + intros Hnone. rewrite Hsw. cbn [strModel set_strModel]. rewrite Hnone.
      destruct (length m); reflexivity.
  - intros s e Hs He.
    destruct (Hfirst s e Hs) as (Hw & Hsw). rewrite He in Hsw.
    destruct Hends as (self' & Hr & _).
    exists self'. split; [exact Hr|].
    rewrite Hsw in Hr. exact (switchControl_loop_prefix _ _ _ _ Hr).
Qed.

(** The example of the docstring: the commented option takes the place
    of [MANUAL], with the blank on either side of the cut kept. *)
Lemma switchControl_ends_witness :
  let self := of_text (T "  Control MANUAL; // OUTPUT_VOLTAGE;") in
  search CONTROL_REGEX (strModel self) 0 = Some (10, 20)
  /\ ends_statement (skipn 20 (strModel self)) = true
  /\ search CONTROL_REGEX
       (firstn 10 (strModel self) ++ skipn 20 (strModel self)) 20 = None
  /\ switchControl self = Some (of_text (T "  Control  OUTPUT_VOLTAGE;")).
Proof.
  cbv zeta.
  split; [reflexivity|]. split; [reflexivity|]. split; [reflexivity|].
  pose proof (switchControl_ends
                (of_text (T "  Control MANUAL; // OUTPUT_VOLTAGE;"))) as H.
  cbv zeta in H. destruct H as (_ & _ & H & _).
  exact (proj2 (H 10 20 eq_refl eq_refl) eq_refl).
Defined.

(** Further runs: nothing but a brace after the comment; a statement on
    a later line; a second control statement right after the cut. *)
Lemma switchControl_runs :
  switchControl (of_text (T "  Control MANUAL; //" ++ [lf] ++ T "}"))
  = Some (of_text (T "  Control MANUAL; //" ++ [lf] ++ T "}"))
  /\ switchControl
       (of_text (T "  Control MANUAL; //" ++ [lf] ++ T "  name r1;" ++ [lf]
                   ++ T "}"))
     = Some (of_text (T "  Control " ++ [lf] ++ T "  name r1;" ++ [lf] ++ T "}"))
  /\ switchControl (of_text (T "Control MANUAL; //;Control MANUAL; //b;"))
     = Some (of_text (T "Control ;Control MANUAL; //b;")).
Proof. repeat split; vm_compute; reflexivity. Qed.

End SwitchControlEnds.
(** ** commandCapacitors and commandRegulators *)
Section Commands.


Lemma replaceObject_paths self d :
  pathModelIn (replaceObject self d) = pathModelIn self
  /\ pathModelOut (replaceObject self d) = pathModelOut self.
Proof. split; reflexivity. Qed.















End Commands.
(** ** What adding text leaves alone *)
Section Frames.

Lemma brace_loop_shift : forall cs e d k,
  brace_loop cs (k + e) d = k + brace_loop cs e d.
Proof.
  induction cs as [|c cs IH]; intros e d k; cbn [brace_loop]; [reflexivity|].
  destruct (is_close c && _)%bool.
  - lia.
  - replace (k + e + 1) with (k + (e + 1)) by lia. apply IH.
Qed.

(** Text put in front of the model moves every object without changing
    it. *)
Lemma extractObject_shift self self' pre n :
  strModel self' = pre ++ strModel self ->
  extractObject self' (length pre + n)
  = ObjDict (length pre + n)
      (length pre + o_end (extractObject self n))
      (o_obj (extractObject self n)).
Proof.
  intros E. unfold extractObject. cbn [o_end o_obj]. rewrite E.
  assert (Hs : skipn (length pre + n) (pre ++ strModel self)
               = skipn n (strModel self)).
  { replace (length pre + n) with (n + length pre) by lia.
    rewrite <- skipn_skipn, skipn_len_app. reflexivity. }
  rewrite Hs, brace_loop_shift. f_equal.
  destruct (brace_loop_len (skipn n (strModel self)) n 0) as (k & -> & _).
  replace (length pre + (n + k)) with ((length pre + n) + k) by lia.
  rewrite !slice_from, Hs. reflexivity.
Qed.

(** Text put after the model leaves alone every object that closes
    before the old end. *)
Lemma extractObject_append self self' post n :
  strModel self' = strModel self ++ post ->
  closes (skipn n (strModel self)) = true ->
  extractObject self' n = extractObject self n.
Proof.
  intros E Hc.
  destruct (closes_least _ Hc) as (k & Hk & Hmin).
  rewrite (extractObject_closed self n k Hk Hmin).
  pose proof (closing_rel_lt _ _ _ Hk) as Hlt. rewrite length_skipn in Hlt.
  assert (Hs : skipn n (strModel self') = skipn n (strModel self) ++ post).
  { rewrite E, skipn_app. replace (n - length (strModel self)) with 0 by lia.
    reflexivity. }
  assert (Hcl : forall m, m <= k ->
            closing_at (skipn n (strModel self')) m
            = closing_at (skipn n (strModel self)) m).
  { intros m Hm. unfold closing_at, closing_rel. rewrite Hs.
    rewrite nth_error_app1 by (rewrite length_skipn; lia).
    rewrite firstn_app.
    replace (S m - length (skipn n (strModel self))) with 0
      by (rewrite length_skipn; lia).
    cbn [firstn]. rewrite app_nil_r. reflexivity. }
  rewrite (extractObject_closed self' n k).
  - f_equal. rewrite Hs, firstn_app.
    replace (S k - length (skipn n (strModel self))) with 0
      by (rewrite length_skipn; lia).
    cbn [firstn]. rewrite app_nil_r. reflexivity.
  - rewrite Hcl by lia. exact Hk.
  - intros m Hm. rewrite Hcl by lia. apply Hmin. exact Hm.
Qed.

(** X23. Adding text does not disturb the objects already in the model.
    After [addLine], [addModule], [addClass] or [addObject] at the
    beginning, [extractObject] at an offset moved by the length of the
    text added returns the same object text as before, with both ends
    moved by that length. After [addObject] at the end, every object
    that closes in the old model is returned exactly as before, at the
    same offsets. *)
Theorem adding_keeps_objects self n :
  let moved (self' : modGLM) :=
    let k := length (strModel self') - length (strModel self) in
    extractObject self' (k + n)
    = ObjDict (k + n) (k + o_end (extractObject self n))
        (o_obj (extractObject self n)) in
  (forall line, moved (addLine self line))
  /\ (forall module, moved (addModule self module))
  /\ (forall className properties, moved (addClass self className properties))
  /\ (forall objType properties self',
        addObject self objType properties (T "beginning") = Passed self' ->
        moved self')
  /\ (forall objType properties self',
        addObject self objType properties (T "end") = Passed self' ->
        closes (skipn n (strModel self)) = true ->
        extractObject self' n = extractObject self n).
Proof.
  cbv zeta.
  assert (Hpre : forall self' pre,
            strModel self' = pre ++ strModel self ->
            extractObject self'
              (length (strModel self') - length (strModel self) + n)
            = ObjDict (length (strModel self') - length (strModel self) + n)
                (length (strModel self') - length (strModel self)
                 + o_end (extractObject self n))
                (o_obj (extractObject self n))).
  { intros self' pre E.
    replace (length (strModel self') - length (strModel self))
      with (length pre) by (rewrite E, length_app; lia).
    apply extractObject_shift. exact E. }
  split; [|split; [|split; [|split]]].
  - intros line. apply (Hpre _ (line ++ [lf])).
    unfold addLine. cbn [strModel set_strModel]. text_eq.
  - intros module. apply (Hpre _ (T "module " ++ module ++ T ";" ++ [lf])).
    unfold addModule. cbn [strModel set_strModel]. text_eq.
  - intros className properties. unfold addClass. cbv zeta.
    rewrite (fold_lines (fun nt => prop_line (snd nt) (fst nt))).
    eapply Hpre. cbn [strModel set_strModel].
    rewrite app_assoc. rewrite (app_assoc _ [lf]). reflexivity.
  - intros objType properties self' H. rewrite addObject_text in H.
    cbn [text_eqb] in H. change (text_eqb (T "beginning") (T "beginning"))
      with true in H. injection H as <-.
    apply (Hpre _ (object_text objType properties ++ T ";" ++ [lf])).
    cbn [strModel set_strModel]. unfold object_text. text_eq.
  - intros objType properties self' H Hc. rewrite addObject_text in H.
    change (text_eqb (T "end") (T "beginning")) with false in H.
    change (text_eqb (T "end") (T "end")) with true in H. injection H as <-.
    apply (extractObject_append self _
             ([lf] ++ object_text objType properties ++ T ";" ++ [lf]) n);
      [reflexivity|exact Hc].
Qed.

Lemma adding_keeps_objects_witness :
  let self := of_text (T "clock { }" ++ [lf] ++ T "object node { }") in
  let node := ObjDict 10 25 (T "object node { }") in
  extractObject self 10 = node
  /\ closes (skipn 10 (strModel self)) = true
  /\ (forall self',
        addObject self (T "meter") [(T "name", T "m1")] (T "end") = Passed self' ->
        extractObject self' 10 = node)
  /\ extractObject (addLine self (T "#set profiler=1")) (16 + 10)
     = ObjDict (16 + 10) (16 + 25) (T "object node { }").
Proof.
  cbv zeta.
  pose proof (adding_keeps_objects
                (of_text (T "clock { }" ++ [lf] ++ T "object node { }")) 10)
    as H.
  cbv zeta in H. destruct H as (Hline & _ & _ & _ & Hend).
  split; [reflexivity|]. split; [reflexivity|]. split.
  - intros self' Hadd.
    exact (Hend (T "meter") [(T "name", T "m1")] self' Hadd eq_refl).
  - exact (Hline (T "#set profiler=1")).
Defined.

End Frames.
(** ** repeatMessages and toggleProfile *)
Section Switches.

Lemma search_skip_char r ch pre a :
  (forall l c a', ascii_eqb c ch = false -> match_here r l (c :: a') = None) ->
  lacks ch pre = true ->
  search r (pre ++ a) 0 = search_from r (rev pre) a.
Proof.
  intros Hr Hp. unfold search, search_from. cbn [firstn skipn rev].
  rewrite (leftmost_skip (match_here r) pre [] a), app_nil_r; [reflexivity|].
  intros b1 b2 -> Hb. destruct b2 as [|c b2]; [congruence|].
  unfold lacks in Hp. rewrite forallb_app in Hp. apply andb_true_iff in Hp.
  destruct Hp as [_ Hp]. cbn [forallb] in Hp. apply andb_true_iff in Hp.
  destruct Hp as [Hc _]. apply negb_true_iff in Hc.
  cbn [app]. apply Hr. exact Hc.
Qed.

Lemma profiler_needs_hash l c a :
  ascii_eqb c "#" = false -> match_here PROFILER_REGEX l (c :: a) = None.
Proof.
  intros H. unfold match_here, PROFILER_REGEX. cbn [run cmatch].
  rewrite H. reflexivity.
Qed.

Lemma suppress_needs_hash l c a :
  ascii_eqb c "#" = false -> match_here SUPPRESS_REGEX l (c :: a) = None.
Proof.
  intros H. unfold match_here, SUPPRESS_REGEX. cbn [run cmatch].
  rewrite H. reflexivity.
Qed.

Lemma profiler_here l d rest :
  binary_digit [d] ->
  match_here PROFILER_REGEX l (T "#set profiler=" ++ d :: rest)
  = Some (length l, 15 + length l).
Proof.
  intros [E|E]; injection E as ->; unfold match_here, PROFILER_REGEX;
    cbv -[length]; reflexivity.
Qed.

Lemma suppress_here l d rest :
  binary_digit [d] ->
  match_here SUPPRESS_REGEX l (T "#set suppress_repeat_messages=" ++ d :: rest)
  = Some (length l, 31 + length l).
Proof.
  intros [E|E]; injection E as ->; unfold match_here, SUPPRESS_REGEX;
    cbv -[length]; reflexivity.
Qed.

(** A setting written as [key] followed by one binary digit, found by
    the pattern [R] wherever no [#] comes before it. *)
Section Setting.

Variable R : regex.
Variable key : text.
Hypothesis R_needs_hash : forall l c a,
  ascii_eqb c "#" = false -> match_here R l (c :: a) = None.
Hypothesis R_here : forall l d rest,
  binary_digit [d] ->
  match_here R l (key ++ d :: rest)
  = Some (length l, S (length key) + length l).

Lemma set_digit_found self val pre d rest :
  lacks "#" pre = true -> binary_digit [d] ->
  strModel self = pre ++ key ++ d :: rest ->
  set_digit R key self val = set_strModel self (pre ++ key ++ val ++ rest).
Proof.
  intros Hp Hd E. unfold set_digit. rewrite E.
  rewrite (search_skip_char R "#" pre _ R_needs_hash Hp).
  unfold search_from.
  rewrite (leftmost_here _ _ _ _ (R_here (rev pre) d rest Hd)).
  cbn [snd]. rewrite length_rev. f_equal.
  replace (S (length key) + length pre - 1) with (length (pre ++ key))
    by (rewrite length_app; lia).
  replace (S (length key) + length pre) with (length ((pre ++ key) ++ [d]))
    by (rewrite !length_app; cbn [length]; lia).
  replace (pre ++ key ++ d :: rest) with ((pre ++ key) ++ d :: rest)
    by (rewrite <- app_assoc; reflexivity).
  rewrite firstn_len_app.
  replace ((pre ++ key) ++ d :: rest) with (((pre ++ key) ++ [d]) ++ rest)
    by (rewrite <- !app_assoc; reflexivity).
  rewrite skipn_len_app, <- !app_assoc. reflexivity.
Qed.

Lemma set_digit_twice self val :
  binary_digit val ->
  (search R (strModel self) 0 = None
   \/ exists pre d rest,
        lacks "#" pre = true /\ binary_digit [d]
        /\ strModel self = pre ++ key ++ d :: rest) ->
  set_digit R key (set_digit R key self val) val = set_digit R key self val.
Proof.
  intros Hv Hcase.
  assert (Hshape : exists pre rest,
            lacks "#" pre = true
            /\ set_digit R key self val
               = set_strModel self (pre ++ key ++ val ++ rest)).
  { destruct Hcase as [Hn|(pre & d & rest & Hp & Hd & E)].
    - exists [], (lf :: strModel self). split; [reflexivity|].
      unfold set_digit. rewrite Hn. reflexivity.
    - exists pre, rest. split; [exact Hp|].
      apply (set_digit_found self val pre d rest Hp Hd E). }
  destruct Hshape as (pre & rest & Hp & E). rewrite E.
  assert (Hd : exists d, val = [d] /\ binary_digit [d]).
  { destruct Hv as [-> | ->]; eexists; (split; [reflexivity|]);
      [left|right]; reflexivity. }
  destruct Hd as (d & -> & Hd).
  rewrite (set_digit_found _ [d] pre d rest Hp Hd) by reflexivity.
  destruct self; reflexivity.
Qed.

End Setting.

Lemma toggleProfile_set_digit self val :
  toggleProfile self val = set_digit PROFILER_REGEX (T "#set profiler=") self val.
Proof.
  unfold toggleProfile, set_digit.
  destruct (search PROFILER_REGEX (strModel self) 0); reflexivity.
Qed.

Lemma repeatMessages_set_digit self val :
  repeatMessages self val
  = set_digit SUPPRESS_REGEX (T "#set suppress_repeat_messages=") self val.
Proof.
  unfold repeatMessages, set_digit.
  destruct (search SUPPRESS_REGEX (strModel self) 0); [reflexivity|].
  f_equal. text_eq.
Qed.

(** X24. [toggleProfile] sets the digit of the profiler setting. Where
    the line [#set profiler=d] with a binary digit [d] is the first place
    of the model at which a [#] stands, exactly that digit is replaced by
    the value and nothing else changes; without a profiler setting the
    line is put in front of the model. In both cases a second call with
    the same value, 0 or 1, changes nothing more. *)
Theorem toggleProfile_sets self val :
  (forall pre d rest,
      lacks "#" pre = true -> binary_digit [d] ->
      strModel self = pre ++ T "#set profiler=" ++ d :: rest ->
      toggleProfile self val
      = set_strModel self (pre ++ T "#set profiler=" ++ val ++ rest))
  /\ (search PROFILER_REGEX (strModel self) 0 = None ->
      toggleProfile self val
      = set_strModel self (T "#set profiler=" ++ val ++ [lf] ++ strModel self))
  /\ (binary_digit val ->
      search PROFILER_REGEX (strModel self) 0 = None
      \/ (exists pre d rest,
            lacks "#" pre = true /\ binary_digit [d]
            /\ strModel self = pre ++ T "#set profiler=" ++ d :: rest) ->
      toggleProfile (toggleProfile self val) val = toggleProfile self val).
Proof.
  split; [|split].
  - intros pre d rest Hp Hd E. rewrite toggleProfile_set_digit.
    apply (set_digit_found PROFILER_REGEX (T "#set profiler=")
             profiler_needs_hash profiler_here self val pre d rest Hp Hd E).
  - intros Hn. unfold toggleProfile. rewrite Hn. reflexivity.
  - intros Hv Hcase. rewrite !toggleProfile_set_digit.
    apply (set_digit_twice PROFILER_REGEX (T "#set profiler=")
             profiler_needs_hash profiler_here self val Hv Hcase).
Qed.

Lemma toggleProfile_sets_witness :
  let self := of_text (T "// feeder" ++ [lf] ++ T "#set profiler=0" ++ [lf]
                         ++ T "clock { }") in
  let self' := of_text (T "// feeder" ++ [lf] ++ T "#set profiler=1" ++ [lf]
                          ++ T "clock { }") in
  lacks "#" (T "// feeder" ++ [lf]) = true
  /\ toggleProfile self (T "1") = self'
  /\ toggleProfile self' (T "1") = self'.
Proof.
  cbv zeta.
  pose proof (toggleProfile_sets
                (of_text (T "// feeder" ++ [lf] ++ T "#set profiler=0" ++ [lf]
                            ++ T "clock { }")) (T "1")) as (H1 & _ & H3).
  split; [reflexivity|].
  assert (E1 : toggleProfile
                 (of_text (T "// feeder" ++ [lf] ++ T "#set profiler=0"
                             ++ [lf] ++ T "clock { }")) (T "1")
               = of_text (T "// feeder" ++ [lf] ++ T "#set profiler=1"
                            ++ [lf] ++ T "clock { }")).
  { exact (H1 (T "// feeder" ++ [lf]) "0"%char (lf :: T "clock { }")
             eq_refl (or_introl eq_refl) eq_refl). }
  split; [exact E1|].
  rewrite <- E1 at 1 2. apply H3; [right; reflexivity|].
  right. exists (T "// feeder" ++ [lf]), "0"%char, (lf :: T "clock { }").
  repeat split. left. reflexivity.
Defined.

(** X25. [repeatMessages] sets the digit of the setting
    [#set suppress_repeat_messages=d]. Where that text with a binary
    digit [d] is the first place of the model at which a [#] stands,
    exactly that digit is replaced by the value and nothing else changes;
    without the setting the line is put in front of the model. In both
    cases a second call with the same value, 0 or 1, changes nothing
    more. *)
Theorem repeatMessages_sets self val :
  (forall pre d rest,
      lacks "#" pre = true -> binary_digit [d] ->
      strModel self = pre ++ T "#set suppress_repeat_messages=" ++ d :: rest ->
      repeatMessages self val
      = set_strModel self
          (pre ++ T "#set suppress_repeat_messages=" ++ val ++ rest))
  /\ (search SUPPRESS_REGEX (strModel self) 0 = None ->
      repeatMessages self val
      = set_strModel self
          ((T "#set suppress_repeat_messages=" ++ val ++ [lf])
             ++ strModel self))
  /\ (binary_digit val ->
      search SUPPRESS_REGEX (strModel self) 0 = None
      \/ (exists pre d rest,
            lacks "#" pre = true /\ binary_digit [d]
            /\ strModel self
               = pre ++ T "#set suppress_repeat_messages=" ++ d :: rest) ->
      repeatMessages (repeatMessages self val) val = repeatMessages self val).
Proof.
  split; [|split].
  - intros pre d rest Hp Hd E. rewrite repeatMessages_set_digit.
    apply (set_digit_found SUPPRESS_REGEX (T "#set suppress_repeat_messages=")
             suppress_needs_hash suppress_here self val pre d rest Hp Hd E).
  - intros Hn. unfold repeatMessages. rewrite Hn. reflexivity.
  - intros Hv Hcase. rewrite !repeatMessages_set_digit.
    apply (set_digit_twice SUPPRESS_REGEX (T "#set suppress_repeat_messages=")
             suppress_needs_hash suppress_here self val Hv Hcase).
Qed.

Lemma repeatMessages_sets_witness :
  let self := of_text (T "clock { }") in
  let self' := of_text (T "#set suppress_repeat_messages=1" ++ [lf]
                          ++ T "clock { }") in
  search SUPPRESS_REGEX (strModel self) 0 = None
  /\ repeatMessages self (T "1") = self'
  /\ repeatMessages self' (T "1") = self'.
Proof.
  cbv zeta.
  pose proof (repeatMessages_sets (of_text (T "clock { }")) (T "1"))
    as (_ & H2 & H3).
  split; [reflexivity|].
  assert (E1 : repeatMessages (of_text (T "clock { }")) (T "1")
               = of_text (T "#set suppress_repeat_messages=1" ++ [lf]
                            ++ T "clock { }")).
  { exact (H2 eq_refl). }
  split; [exact E1|].
  rewrite <- E1 at 1 2. apply H3; [right; reflexivity|left; reflexivity].
Defined.

End Switches.
